(** * A shallow embedding of [main.py]: the world model and the action loop

    The Python program keeps its world in mutable objects that reference each
    other: containers reference list objects, exits reference locations, an
    item references its use and the use references its item and the container
    it believes it is in.  The embedding keeps these objects in stores indexed
    by reference (the position at which the object was allocated), so that two
    containers holding the same list object really do share it.  Methods are
    state-passing functions over the stores that may raise a Python
    exception. *)

From Stdlib Require Import ZArith Ascii DecimalString DecimalPos.
From stdpp Require Import base tactics option list strings.

(** ** References and objects *)

(** A reference is the position of the object in its store. *)
Abbreviation lref := nat (only parsing).  (* a [List[Item]] object *)
Abbreviation elref := nat (only parsing). (* a [List[Exit]] object *)
Abbreviation cref := nat (only parsing).  (* a Container, Location, Room or Player object *)
Abbreviation eref := nat (only parsing).  (* an Exit object *)
Abbreviation uref := nat (only parsing).  (* an ItemUse object *)
Abbreviation iref := nat (only parsing).  (* an Item object *)

(** [class Exit]: [_to] and [_description]. *)
Record Exit := mkExit {
  e_to : cref;
  e_description : string;
}.

(** What a subclass of [Container] adds to the base fields: [Location] (and
    [Room], which adds nothing more) has [_exits]; [Player] has [_location],
    which [Player.__init__] sets to [None]. *)
Inductive Extra :=
| IsContainer
| IsLocation (room : bool) (c_exits : elref)
| IsPlayer (c_location : option cref).

(** [class Container]: [_name], [_description] and [_items]; [_items] is a
    reference to a list object, not a list of its own. *)
Record Container := mkContainer {
  c_name : string;
  c_description : string;
  c_items : lref;
  c_extra : Extra;
}.

(** The [execute] argument of an [ItemUse] is any zero-argument callable.
    Every callable the source builds is [lambda: print(text)]; any other
    callable is identified by a number and its behaviour is supplied by the
    environment (see [Section Game]). *)
Inductive Callable :=
| LambdaPrint (text : string)
| Extern (n : nat).

(** [class ItemUse]. *)
Record ItemUse := mkItemUse {
  u_name : string;
  u_description : string;
  u__item : option iref;
  u__destroy_on_execute : bool;
  u_virtual_location : option cref;
  u_execute : Callable;
}.

(** [class Item]. *)
Record Item := mkItem {
  i_name : string;
  i_description : string;
  i_use : uref;
}.

(** What the console has received: a [print] writes a line, [input] writes
    its prompt without a line end. *)
Inductive Output :=
| Line (s : string)
| Prompt (s : string).

(** The stores, and the console: the lines still to be read and what has
    been written so far (oldest first). *)
Record World := mkWorld {
  item_lists : list (list iref);
  exit_lists : list (list eref);
  containers : list Container;
  exits : list Exit;
  uses : list ItemUse;
  items : list Item;
  stdin : list string;
  stdout : list Output;
}.

Definition set_item_lists (f : list (list iref) → list (list iref)) (w : World) : World :=
  mkWorld (f (item_lists w)) (exit_lists w) (containers w) (exits w) (uses w) (items w) (stdin w) (stdout w).
Definition set_exit_lists (f : list (list eref) → list (list eref)) (w : World) : World :=
  mkWorld (item_lists w) (f (exit_lists w)) (containers w) (exits w) (uses w) (items w) (stdin w) (stdout w).
Definition set_containers (f : list Container → list Container) (w : World) : World :=
  mkWorld (item_lists w) (exit_lists w) (f (containers w)) (exits w) (uses w) (items w) (stdin w) (stdout w).
Definition set_exits (f : list Exit → list Exit) (w : World) : World :=
  mkWorld (item_lists w) (exit_lists w) (containers w) (f (exits w)) (uses w) (items w) (stdin w) (stdout w).
Definition set_uses (f : list ItemUse → list ItemUse) (w : World) : World :=
  mkWorld (item_lists w) (exit_lists w) (containers w) (exits w) (f (uses w)) (items w) (stdin w) (stdout w).
Definition set_items (f : list Item → list Item) (w : World) : World :=
  mkWorld (item_lists w) (exit_lists w) (containers w) (exits w) (uses w) (f (items w)) (stdin w) (stdout w).
Definition set_stdin (f : list string → list string) (w : World) : World :=
  mkWorld (item_lists w) (exit_lists w) (containers w) (exits w) (uses w) (items w) (f (stdin w)) (stdout w).
Definition set_stdout (f : list Output → list Output) (w : World) : World :=
  mkWorld (item_lists w) (exit_lists w) (containers w) (exits w) (uses w) (items w) (stdin w) (f (stdout w)).

(** ** Exceptions and the state-and-exception monad *)

(** The Python exceptions the program can raise.  The last two are not
    Python exceptions.  [NoSuchObject] is what the embedding answers when a
    reference points outside its store, which no Python reference does.
    [OutOfFuel] is what a [while] loop answers when its iteration budget is
    used up; [select_total] and [select_item_total] show that the budget the
    program's loops are given is never used up. *)
Inductive Exn :=
| AttributeError
| ValueError
| IndexError
| EOFError
| SystemExit
| TypeError
| RecursionError
| NoSuchObject
| OutOfFuel.

#[global] Instance Exn_eq_dec : EqDecision Exn.
Proof. solve_decision. Defined.

Inductive Res (A : Type) :=
| Ok (a : A) (w : World)
| Raise (e : Exn) (w : World).
Arguments Ok {A} a w.
Arguments Raise {A} e w.

Definition M (A : Type) : Type := World → Res A.

Definition ret {A} (a : A) : M A := fun w => Ok a w.
Definition bind {A B} (m : M A) (k : A → M B) : M B :=
  fun w => match m w with
           | Ok a w' => k a w'
           | Raise e w' => Raise e w'
           end.
Definition raise {A} (e : Exn) : M A := fun w => Raise e w.
Definition gets {A} (f : World → A) : M A := fun w => Ok (f w) w.
Definition modify (f : World → World) : M unit := fun w => Ok tt (f w).

Declare Scope py_scope.
Delimit Scope py_scope with py.
Notation "x <- m ;; k" := (bind m (fun x => k))
  (at level 100, m at next level, right associativity) : py_scope.
Notation "m ;; k" := (bind m (fun _ => k))
  (at level 100, right associativity) : py_scope.
Local Open Scope py_scope.

(** [try: body / except exn: handler]. *)
Definition try_except {A} (body : M A) (exn : Exn) (handler : M A) : M A :=
  fun w => match body w with
           | Ok a w' => Ok a w'
           | Raise e w' => if decide (e = exn) then handler w' else Raise e w'
           end.

(** The state a result carries, whether it returned or raised. *)
Definition world_of {A} (r : Res A) : World :=
  match r with Ok _ w => w | Raise _ w => w end.

(** Reading an object through a reference, and allocating one. *)
Definition load {A} (store : World → list A) (r : nat) : M A :=
  fun w => match store w !! r with
           | Some a => Ok a w
           | None => Raise NoSuchObject w
           end.

Definition new_item_list (l : list iref) : M lref :=
  fun w => Ok (length (item_lists w)) (set_item_lists (fun s => s ++ [l]) w).
Definition new_exit_list (l : list eref) : M elref :=
  fun w => Ok (length (exit_lists w)) (set_exit_lists (fun s => s ++ [l]) w).
Definition new_container (c : Container) : M cref :=
  fun w => Ok (length (containers w)) (set_containers (fun s => s ++ [c]) w).
Definition new_exit (e : Exit) : M eref :=
  fun w => Ok (length (exits w)) (set_exits (fun s => s ++ [e]) w).
Definition new_use (u : ItemUse) : M uref :=
  fun w => Ok (length (uses w)) (set_uses (fun s => s ++ [u]) w).
Definition new_item (i : Item) : M iref :=
  fun w => Ok (length (items w)) (set_items (fun s => s ++ [i]) w).

(** ** The console *)

Definition print (s : string) : M unit :=
  modify (set_stdout (fun o => o ++ [Line s])).

(** [input(prompt)]: writes the prompt, then reads a line; at the end of the
    input it raises [EOFError]. *)
Definition input (prompt : string) : M string :=
  modify (set_stdout (fun o => o ++ [Prompt prompt]));;
  l <- gets stdin;;
  match l with
  | [] => raise EOFError
  | s :: rest => modify (set_stdin (fun _ => rest));; ret s
  end.

(** [str(n)] of an integer. *)
Definition str (n : Z) : string := NilZero.string_of_int (Z.to_int n).

(** *** Text and [int]

    A text (a Python [str]) is a [string] that holds its UTF-8 form.  The
    texts of the program are ASCII, where the two are the same, and what
    the program does with texts (joining them, writing an integer out)
    is the same on the UTF-8 forms. *)

(** The payload of a UTF-8 continuation byte. *)
Definition continuation (b : N) : option N :=
  (if (0x80 <=? b) && (b <? 0xC0) then Some (b - 0x80) else None)%N.

(** The characters (code points) of a text given by its bytes; [None] when
    the bytes are not well-formed UTF-8: too short or too long a form, a
    surrogate, or a value beyond U+10FFFF. *)
Fixpoint code_points (l : list N) : option (list N) :=
  match l with
  | [] => Some []
  | b0 :: l1 =>
      if b0 <? 0x80 then cons b0 <$> code_points l1
      else if (0xC2 <=? b0) && (b0 <? 0xE0) then
        match l1 with
        | b1 :: l2 =>
            match continuation b1 with
            | Some c1 => cons ((b0 - 0xC0) * 64 + c1) <$> code_points l2
            | None => None
            end
        | _ => None
        end
      else if (0xE0 <=? b0) && (b0 <? 0xF0) then
        match l1 with
        | b1 :: b2 :: l3 =>
            match continuation b1, continuation b2 with
            | Some c1, Some c2 =>
                let ch := (b0 - 0xE0) * 4096 + c1 * 64 + c2 in
                if (ch <? 0x800) || ((0xD800 <=? ch) && (ch <? 0xE000)) then None
                else cons ch <$> code_points l3
            | _, _ => None
            end
        | _ => None
        end
      else if (0xF0 <=? b0) && (b0 <? 0xF5) then
        match l1 with
        | b1 :: b2 :: b3 :: l4 =>
            match continuation b1, continuation b2, continuation b3 with
            | Some c1, Some c2, Some c3 =>
                let ch := (b0 - 0xF0) * 262144 + c1 * 4096 + c2 * 64 + c3 in
                if (ch <? 0x10000) || (0x10FFFF <? ch) then None
                else cons ch <$> code_points l4
            | _, _, _ => None
            end
        | _ => None
        end
      else None
  end%N.

(** The characters outside ASCII that count as white space. *)
Definition unicode_space (ch : N) : bool :=
  ((ch =? 0x85) || (ch =? 0xA0) || (ch =? 0x1680)
   || ((0x2000 <=? ch) && (ch <=? 0x200A))
   || (ch =? 0x2028) || (ch =? 0x2029) || (ch =? 0x202F) || (ch =? 0x205F)
   || (ch =? 0x3000))%N.

(** The decimal digits outside ASCII come in runs of ten, zero to nine;
    these are the zeros of the runs (Unicode 14.0, the character data of
    Python 3.11). *)
Definition decimal_zeros : list N :=
  [0x660; 0x6F0; 0x7C0; 0x966; 0x9E6; 0xA66; 0xAE6; 0xB66;
   0xBE6; 0xC66; 0xCE6; 0xD66; 0xDE6; 0xE50; 0xED0; 0xF20;
   0x1040; 0x1090; 0x17E0; 0x1810; 0x1946; 0x19D0; 0x1A80; 0x1A90;
   0x1B50; 0x1BB0; 0x1C40; 0x1C50; 0xA620; 0xA8D0; 0xA900; 0xA9D0;
   0xA9F0; 0xAA50; 0xABF0; 0xFF10; 0x104A0; 0x10D30; 0x11066; 0x110F0;
   0x11136; 0x111D0; 0x112F0; 0x11450; 0x114D0; 0x11650; 0x116C0; 0x11730;
   0x118E0; 0x11950; 0x11C50; 0x11D50; 0x11DA0; 0x16A60; 0x16AC0; 0x16B50;
   0x1D7CE; 0x1D7D8; 0x1D7E2; 0x1D7EC; 0x1D7F6; 0x1E140; 0x1E2F0; 0x1E950;
   0x1FBF0]%N.

Definition unicode_decimal (ch : N) : option N :=
  (λ z, ch - z)%N <$> find (λ z, (z <=? ch) && (ch <? z + 10))%N decimal_zeros.

(** What [int] makes of each character before it reads the text: an ASCII
    character stays, white space becomes a blank, a decimal digit becomes
    the ASCII digit of its value, and anything else becomes a question
    mark, which no number contains. *)
Definition to_ascii (ch : N) : ascii :=
  if (ch <? 127)%N then ascii_of_N ch
  else if unicode_space ch then " "%char
  else match unicode_decimal ch with
       | Some d => ascii_of_N (48 + d)%N
       | None => "?"%char
       end.

(** White space among the ASCII characters, as [int] sees it: tab, line
    feed, vertical tab, form feed, carriage return and the blank. *)
Definition is_space (a : ascii) : bool :=
  let n := nat_of_ascii a in
  ((9 <=? n) && (n <=? 13)) || (n =? 32).

Definition digit_val (a : ascii) : option Z :=
  let n := nat_of_ascii a in
  if (48 <=? n) && (n <=? 57) then Some (Z.of_nat (n - 48)) else None.

Fixpoint lstrip (l : list ascii) : list ascii :=
  match l with
  | a :: l' => if is_space a then lstrip l' else l
  | [] => []
  end.

Definition strip (l : list ascii) : list ascii := rev (lstrip (rev (lstrip l))).

Fixpoint more_digits (acc : Z) (l : list ascii) : option Z :=
  match l with
  | [] => Some acc
  | a :: l' =>
      if Ascii.eqb a "_"%char then
        match l' with
        | d :: l'' =>
            match digit_val d with
            | Some v => more_digits (10 * acc + v)%Z l''
            | None => None
            end
        | [] => None
        end
      else
        match digit_val a with
        | Some v => more_digits (10 * acc + v)%Z l'
        | None => None
        end
  end.

Definition max_str_digits : nat := 4300.

Definition digits (l : list ascii) : option Z :=
  match l with
  | d :: l' =>
      match digit_val d with
      | Some v =>
          if max_str_digits <? length (filter (λ a, is_Some (digit_val a)) l)
          then None
          else more_digits v l'
      | None => None
      end
  | [] => None
  end.

(** The integer an ASCII text denotes in base ten: surrounding white space
    is dropped, a sign may come first, and the digits may be grouped by
    single underscores; a text of more digits than the interpreter allows
    (4300 unless it is set otherwise) is refused. *)
Definition ascii_int (l : list ascii) : option Z :=
  match strip l with
  | a :: l =>
      if Ascii.eqb a "-"%char then Z.opp <$> digits l
      else if Ascii.eqb a "+"%char then digits l
      else digits (a :: l)
  | [] => None
  end.

(** [int(s)] of a text; [None] stands for [ValueError].  Bytes that are no
    text are refused too: reading them from the console either raises
    [UnicodeDecodeError], which is a [ValueError], or gives surrogates,
    which [int] refuses. *)
Definition py_int (s : string) : option Z :=
  match code_points (N_of_ascii <$> String.list_ascii_of_string s) with
  | Some l => ascii_int (to_ascii <$> l)
  | None => None
  end.

(** [int(s)] as the program calls it. *)
Definition int (s : string) : M Z :=
  match py_int s with
  | Some n => ret n
  | None => raise ValueError
  end.

(** ** Control structures *)

(** [for x in l: body], with the local variables the body updates passed
    along.  The list is the content of the list object when the loop starts;
    no loop of the program changes the list it walks. *)
Fixpoint for_in {A S} (l : list A) (body : A → S → M S) (s : S) : M S :=
  match l with
  | [] => ret s
  | x :: l' => s' <- body x s;; for_in l' body s'
  end.

(** Truth value of a local variable that holds [None] or an integer. *)
Definition truthy (v : option Z) : bool :=
  match v with
  | Some n => negb (n =? 0)%Z
  | None => false
  end.

(** [while not v: v = body()]. *)
Fixpoint while_not (fuel : nat) (v : option Z) (body : M (option Z)) : M (option Z) :=
  if truthy v then ret v
  else match fuel with
       | O => raise OutOfFuel
       | S fuel' => v' <- body;; while_not fuel' v' body
       end.

(** [l[k]], with Python's negative indices. *)
Definition py_index {A} (l : list A) (k : Z) : M A :=
  let n := Z.of_nat (length l) in
  let k' := if (k <? 0)%Z then (k + n)%Z else k in
  if (k' <? 0)%Z then raise IndexError
  else match l !! Z.to_nat k' with
       | Some a => ret a
       | None => raise IndexError
       end.

(** [enumerate(l)]. *)
Definition enumerate {A} (l : list A) : list (Z * A) :=
  imap (fun i a => (Z.of_nat i, a)) l.

(** [list.remove(x)]: the list without its first element equal to [x];
    [None] stands for [ValueError] ([x] is not in the list).  Items define no
    [__eq__], so equality is identity; [x] may be [None] (a use never bound
    to an item), which no element equals. *)
Fixpoint list_remove (x : option iref) (l : list iref) : option (list iref) :=
  match l with
  | [] => None
  | y :: l' =>
      if decide (Some y = x) then Some l'
      else cons y <$> list_remove x l'
  end.

(** ** [class Exit] *)
Module Exit.
Definition init (to : cref) (description : string) : M eref :=
  new_exit (mkExit to description).

Definition get_to (self : eref) : M cref :=
  e <- load exits self;; ret (e_to e).

Definition get_description (self : eref) : M string :=
  e <- load exits self;; ret (e_description e).

Definition set_to (self : eref) (to : cref) : M unit :=
  e <- load exits self;;
  modify (set_exits (<[self := mkExit to (e_description e)]>)).

Definition set_description (self : eref) (description : string) : M unit :=
  e <- load exits self;;
  modify (set_exits (<[self := mkExit (e_to e) description]>)).
End Exit.

(** ** [class Container] *)
Module Container.
Definition init (name description : string) (items : lref) : M cref :=
  new_container (mkContainer name description items IsContainer).

Definition get_name (self : cref) : M string :=
  c <- load containers self;; ret (c_name c).

Definition get_description (self : cref) : M string :=
  c <- load containers self;; ret (c_description c).

(** Returns the list object itself, not a copy. *)
Definition get_items (self : cref) : M lref :=
  c <- load containers self;; ret (c_items c).

Definition add_item (self : cref) (item : iref) : M unit :=
  c <- load containers self;;
  l <- load item_lists (c_items c);;
  modify (set_item_lists (<[c_items c := l ++ [item]]>)).

Definition remove_item (self : cref) (item : option iref) : M unit :=
  c <- load containers self;;
  try_except
    (l <- load item_lists (c_items c);;
     match list_remove item l with
     | Some l' => modify (set_item_lists (<[c_items c := l']>))
     | None => raise ValueError
     end)
    ValueError
    (ret tt).
End Container.

(** The content of a container's list object. *)
Definition items_of (self : cref) : M (list iref) :=
  r <- Container.get_items self;; load item_lists r.

(** ** [class Location(Container)] and [class Room(Location)] *)
Module Location.
Definition init (name description : string) (exits : elref) (items : lref) : M cref :=
  new_container (mkContainer name description items (IsLocation false exits)).

Definition get_exits (self : cref) : M elref :=
  c <- load containers self;;
  match c_extra c with
  | IsLocation _ r => ret r
  | _ => raise AttributeError
  end.

Definition add_exit (self : cref) (exit : eref) : M unit :=
  r <- get_exits self;;
  l <- load exit_lists r;;
  modify (set_exit_lists (<[r := l ++ [exit]]>)).

(** Looking [add_exit] up on an object, which [x.add_exit(...)] does before
    it evaluates the argument: only a [Location] has the method. *)
Definition lookup_add_exit (self : cref) : M unit :=
  c <- load containers self;;
  match c_extra c with
  | IsLocation _ _ => ret tt
  | _ => raise AttributeError
  end.
End Location.

(** The content of a location's exit list object. *)
Definition exits_of (self : cref) : M (list eref) :=
  r <- Location.get_exits self;; load exit_lists r.

(** The default value [[]] of the [items] parameter of [Room.__init__] is
    one list object, made when the class body is executed: it is the first
    list object of the program. *)
Definition Room_default_items : lref := 0.

(** The stores once the module's class definitions have been executed. *)
Definition module_loaded (lines : list string) : World :=
  mkWorld [[]] [] [] [] [] [] lines [].

Module Room.
(** [items = None] stands for a call that leaves the argument out. *)
Definition init (name description : string) (exits : elref) (items : option lref) : M cref :=
  new_container
    (mkContainer name description (default Room_default_items items) (IsLocation true exits)).
End Room.

(** ** [class ItemUse] *)
Module ItemUse.
(** [destroy_on_execute = None] stands for a call that leaves the argument
    out. *)
Definition init (name description : string) (execute : Callable)
    (destroy_on_execute : option bool) : M uref :=
  new_use (mkItemUse name description None (default false destroy_on_execute) None execute).

Definition set_item (self : uref) (item : iref) : M unit :=
  u <- load uses self;;
  modify (set_uses (<[self := mkItemUse (u_name u) (u_description u) (Some item)
                             (u__destroy_on_execute u) (u_virtual_location u) (u_execute u)]>)).

Definition get_name (self : uref) : M string :=
  u <- load uses self;; ret (u_name u).

Definition get_description (self : uref) : M string :=
  u <- load uses self;; ret (u_description u).

Definition get_virtual_location (self : uref) : M (option cref) :=
  u <- load uses self;; ret (u_virtual_location u).

Definition set_virtual_location (self : uref) (virtual_location : cref) : M unit :=
  u <- load uses self;;
  modify (set_uses (<[self := mkItemUse (u_name u) (u_description u) (u__item u)
                             (u__destroy_on_execute u) (Some virtual_location) (u_execute u)]>)).

(** [self.get_virtual_location().remove_item(self.__item)]: a method call
    on [None] raises [AttributeError]. *)
Definition destroy (self : uref) : M unit :=
  v <- get_virtual_location self;;
  match v with
  | None => raise AttributeError
  | Some c =>
      u <- load uses self;;
      Container.remove_item c (u__item u)
  end.

Section Execute.
(** What a callable other than the source's own lambdas does. *)
Variable extern : nat → M unit.

Definition call (f : Callable) : M unit :=
  match f with
  | LambdaPrint text => print text
  | Extern n => extern n
  end.

Definition execute (self : uref) : M unit :=
  u <- load uses self;;
  (if u__destroy_on_execute u then destroy self else ret tt);;
  u <- load uses self;;
  call (u_execute u).
End Execute.
End ItemUse.

(** ** [class Item] and [class Fruit(Item)] *)
Module Item.
Definition init (name description : string) (use : uref) : M iref :=
  self <- new_item (mkItem name description use);;
  ItemUse.set_item use self;;
  ret self.

Definition get_name (self : iref) : M string :=
  i <- load items self;; ret (i_name i).

Definition get_description (self : iref) : M string :=
  i <- load items self;; ret (i_description i).

Definition get_use (self : iref) : M uref :=
  i <- load items self;; ret (i_use i).
End Item.

Module Fruit.
Definition init (name : string) : M iref :=
  use <- ItemUse.init "Eat" ("Eat the " +:+ name +:+ ".")
           (LambdaPrint ("You eat the " +:+ name +:+ ".")) (Some true);;
  Item.init name ("A juicy " +:+ name +:+ ".") use.
End Fruit.

(** ** [PlayerAction] and [class Player(Container)] *)

(** The tuples [('quit', None)], [('inventory', None)], [('take', item)] and
    [('go', exit)]. *)
Inductive PlayerAction :=
| Quit
| Inventory
| Take (item : iref)
| Go (exit : eref).

(** A method call on a value that may be [None]. *)
Definition not_none {A} (v : option A) : M A :=
  match v with
  | Some a => ret a
  | None => raise AttributeError
  end.

(** [len(l)]. *)
Definition len {A} (l : list A) : Z := Z.of_nat (length l).

(** [s * n] on strings. *)
Fixpoint string_repeat (s : string) (n : nat) : string :=
  match n with
  | O => ""
  | S n' => s +:+ string_repeat s n'
  end.

Module Player.
Definition init (name description : string) (items : lref) : M cref :=
  new_container (mkContainer name description items (IsPlayer None)).

Definition get_location (self : cref) : M (option cref) :=
  c <- load containers self;;
  match c_extra c with
  | IsPlayer l => ret l
  | _ => raise AttributeError
  end.

Definition set_location (self : cref) (location : cref) : M unit :=
  c <- load containers self;;
  match c_extra c with
  | IsPlayer _ =>
      modify (set_containers
                (<[self := mkContainer (c_name c) (c_description c) (c_items c)
                             (IsPlayer (Some location))]>))
  | _ => raise AttributeError
  end.

Definition print_location (self : cref) : M unit :=
  location <- get_location self;;
  l <- not_none location;;
  n <- Container.get_name l;;
  print ("Location: " +:+ n);;
  d <- Container.get_description l;;
  print d.

(** The two [for] loops update the local variables [i] and [actions]. *)
Definition print_and_get_actions (self : cref) : M (list PlayerAction) :=
  location <- get_location self;;
  print "Actions:";;
  print "  (1) Quit";;
  print "  (2) Inventory";;
  print "";;
  print "Items:";;
  l <- not_none location;;
  its <- items_of l;;
  ia <- for_in its
          (fun item '(i, actions) =>
             let i := (i + 1)%Z in
             n <- Item.get_name item;;
             print ("  (" +:+ str i +:+ ") " +:+ n);;
             d <- Item.get_description item;;
             print ("    " +:+ d);;
             ret (i, actions ++ [Take item]))
          (2%Z, [Quit; Inventory]);;
  (if (ia.1 =? 2)%Z then print "  (no available items)" else ret tt);;
  print "";;
  print "Exits:";;
  exs <- exits_of l;;
  ia <- for_in exs
          (fun ex '(i, actions) =>
             let i := (i + 1)%Z in
             to <- Exit.get_to ex;;
             n <- Container.get_name to;;
             print ("  (" +:+ str i +:+ ") " +:+ n);;
             d <- Exit.get_description ex;;
             print ("    " +:+ d);;
             ret (i, actions ++ [Go ex]))
          ia;;
  ret ia.2.

(** The [try] statement in the selection loop of [prompt].  It returns
    the value [action] has when the statement is left.  When the handler
    runs [action] is [None]: it is [None] when a round starts, a failed
    [int] leaves it as it is, and the range check resets it before
    raising. *)
Definition choose (actions : list PlayerAction) : M (option Z) :=
  try_except
    (s <- input "> ";;
     action <- int s;;
     if ((action <? 1) || (action >? len actions))%Z
     then raise ValueError
     else ret (Some action))
    ValueError
    (print ("Invalid choice. Please enter a number between 1 and "
            +:+ str (len actions) +:+ ".");;
     ret None).

(** The selection loop of [prompt]: [action = None / while not action].
    Each round reads one line, so one round more than there are lines
    left is enough. *)
Definition select (actions : list PlayerAction) : M (option Z) :=
  fuel <- gets (fun w => S (length (stdin w)));;
  while_not fuel None (choose actions).

(** The [try] statement in the selection loop of [enter_inventory]. *)
Definition choose_item (self : cref) : M (option Z) :=
  try_except
    (s <- input "> ";;
     choice <- int s;;
     if (choice <? 1)%Z then raise ValueError
     else
       l <- items_of self;;
       if (choice >? len l + 1)%Z then raise ValueError
       else ret (Some choice))
    ValueError
    (l <- items_of self;;
     print ("Invalid choice. Please enter a number between 0 and "
            +:+ str (len l) +:+ ".");;
     ret None).

(** The selection loop of [enter_inventory]. *)
Definition select_item (self : cref) : M (option Z) :=
  fuel <- gets (fun w => S (length (stdin w)));;
  while_not fuel None (choose_item self).

(** Arithmetic on a local variable that holds [None] or an integer. *)
Definition minus (v : option Z) (k : Z) : M Z :=
  match v with
  | Some n => ret (n - k)%Z
  | None => raise TypeError
  end.

Section Loop.
Variable extern : nat → M unit.

Definition enter_inventory (self : cref) : M unit :=
  print "Inventory:";;
  print "  (1) Close inventory.";;
  l <- items_of self;;
  for_in (enumerate l)
    (fun '(i, item) _ =>
       n <- Item.get_name item;;
       print ("  (" +:+ str (i + 2) +:+ ") " +:+ n);;
       d <- Item.get_description item;;
       print ("    " +:+ d);;
       u <- Item.get_use item;;
       ud <- ItemUse.get_description u;;
       print ("    " +:+ ud))
    tt;;
  print "Enter item number to use or 0 to exit:";;
  choice <- select_item self;;
  if decide (choice = Some 1%Z) then ret tt
  else
    print (from_option str "None" choice);;
    (* [if not <use>]: an [ItemUse] object is always true *)
    k <- minus choice 2;;
    l <- items_of self;;
    item <- py_index l k;;
    _ <- Item.get_use item;;
    k <- minus choice 2;;
    l <- items_of self;;
    item <- py_index l k;;
    use <- Item.get_use item;;
    ItemUse.execute extern use.

(** The [match] statement of [prompt]. *)
Definition perform (self : cref) (action : PlayerAction) : M unit :=
  match action with
  | Quit =>
      print "Goodbye!";;
      raise SystemExit
  | Inventory =>
      enter_inventory self
  | Take item =>
      n <- Item.get_name item;;
      print ("You take the " +:+ n +:+ ".");;
      location <- get_location self;;
      l <- not_none location;;
      Container.remove_item l (Some item);;
      Container.add_item self item;;
      use <- Item.get_use item;;
      ItemUse.set_virtual_location use self
  | Go ex =>
      to <- Exit.get_to ex;;
      n <- Container.get_name to;;
      print ("You go to the " +:+ n +:+ ".");;
      to <- Exit.get_to ex;;
      set_location self to
  end.

(** [prompt] up to its closing call of itself. *)
Definition turn (self : cref) : M unit :=
  print (string_repeat "=" 30);;
  print_location self;;
  print "";;
  actions <- print_and_get_actions self;;
  print "";;
  print "What would you like to do?";;
  action <- select actions;;
  k <- minus action 1;;
  a <- py_index actions k;;
  perform self a.

(** [prompt] ends by calling itself, so a game is a chain of nested calls,
    and it ends when the interpreter allows no further one.  [depth] is the
    number of turns the chain has room for: the call that would start the
    next one raises [RecursionError].  The frames of the methods a turn
    calls are not counted; the interpreter counts them too, so its limit
    strikes a few calls sooner, inside a turn. *)
Fixpoint prompt (depth : nat) (self : cref) : M unit :=
  match depth with
  | O => raise RecursionError
  | S depth' => turn self;; prompt depth' self
  end.
End Loop.
End Player.

(** [create_twoway_link].  In each of its two statements the method is
    looked up first, then the exit is made, then the method is called. *)
Definition create_twoway_link (from_location to_location : cref) : M unit :=
  Location.lookup_add_exit from_location;;
  n <- Container.get_name to_location;;
  e <- Exit.init to_location ("Go to the " +:+ n +:+ ".");;
  Location.add_exit from_location e;;
  Location.lookup_add_exit to_location;;
  n <- Container.get_name from_location;;
  e <- Exit.init from_location ("Go to the " +:+ n +:+ ".");;
  Location.add_exit to_location e.

(** The objects [__main__] makes. *)
Record Cast := mkCast {
  player : cref;
  lounge : cref; kitchen : cref; hall : cref; dining_room : cref;
  crown : iref; mango : iref; apple : iref; diamond : iref;
}.

(** The body of [if __name__ == '__main__'] up to the start of the game
    loop; [responses] are the four texts the text service answered. *)
Definition setup (responses : list string) : M Cast :=
  print "Please wait while the game loads...";;
  print "Game loaded!";;
  u <- ItemUse.init "Wear" "Wear the crown."
         (LambdaPrint "You put the crown on your head.") (Some true);;
  crown <- Item.init "Crown" "A golden crown." u;;
  d <- py_index responses 0;;
  ex <- new_exit_list [];;
  its <- new_item_list [crown];;
  lounge <- Room.init "Lounge" d ex (Some its);;
  mango <- Fruit.init "Mango";;
  apple <- Fruit.init "Apple";;
  d <- py_index responses 1;;
  ex <- new_exit_list [];;
  its <- new_item_list [mango; apple];;
  kitchen <- Room.init "Kitchen" d ex (Some its);;
  d <- py_index responses 2;;
  ex <- new_exit_list [];;
  its <- new_item_list [];;
  hall <- Location.init "Hall" d ex its;;
  u <- ItemUse.init "Sell" "Sell the diamond."
         (LambdaPrint "You sell the diamond but get scammed.") (Some true);;
  diamond <- Item.init "Diamond" "A shiny diamond. It looks valuable." u;;
  d <- py_index responses 3;;
  ex <- new_exit_list [];;
  its <- new_item_list [diamond];;
  dining_room <- Room.init "Dining Room" d ex (Some its);;
  create_twoway_link lounge hall;;
  create_twoway_link lounge kitchen;;
  create_twoway_link hall dining_room;;
  create_twoway_link kitchen dining_room;;
  print "Enter your name:";;
  name <- input "> ";;
  print ("Nice to meet you, " +:+ name +:+ "!");;
  its <- new_item_list [];;
  player <- Player.init name "You are you." its;;
  Player.set_location player lounge;;
  ret (mkCast player lounge kitchen hall dining_room crown mango apple diamond).

(** The whole of it: the setup, then the game loop. *)
Definition main (extern : nat → M unit) (responses : list string) (depth : nat) : M unit :=
  cast <- setup responses;;
  Player.prompt extern depth (player cast).

(** ** Vocabulary of the statements *)

(** *** Lists, lines and the console *)

(** The list without the first occurrence of [x], or the list itself when
    [x] does not occur. *)
Definition without_first (x : iref) (l : list iref) : list iref :=
  default l (list_remove (Some x) l).

(** How often [x] occurs in [l]. *)
Definition occurrences (x : iref) (l : list iref) : nat :=
  length (filter (λ y, y = x) l).

(** The state after [out] more outputs. *)
Definition says (out : list Output) (w : World) : World :=
  set_stdout (fun o => o ++ out) w.

(** The state once lines have been consumed, [rest] being the lines that
    are left, and [out] has been written. *)
Definition advance (rest : list string) (out : list Output) (w : World) : World :=
  set_stdin (λ _, rest) (says out w).

(** The choice a line stands for in a menu of [n] entries: the integer it
    parses as, when it parses and the integer is in [1, n]. *)
Definition choice_of (n : Z) (s : string) : option Z :=
  match py_int s with
  | Some k => if ((k <? 1) || (k >? n))%Z then None else Some k
  | None => None
  end.

(** What the main menu writes when it rejects a line. *)
Definition complaint (n : Z) : Output :=
  Line ("Invalid choice. Please enter a number between 1 and " +:+ str n +:+ ".").

(** What the main menu writes while it reads the lines [bad], none of which
    it accepts, and then one more line: a prompt and a complaint for each
    line of [bad], and a prompt. *)
Definition rejections (n : Z) (bad : list string) : list Output :=
  concat (map (λ _, [Prompt "> "; complaint n]) bad) ++ [Prompt "> "].

(** What the inventory menu writes when it rejects a line, [n] being the
    number of items the player holds. *)
Definition inventory_complaint (n : Z) : Output :=
  Line ("Invalid choice. Please enter a number between 0 and " +:+ str n +:+ ".").

(** The action list the specification asks for. *)
Definition canonical (its : list iref) (exs : list eref) : list PlayerAction :=
  [Quit; Inventory] ++ map Take its ++ map Go exs.

(** *** Observations of a state *)

(** The owner reference of a use, when the use exists. *)
Definition owner_in (w : World) (u : uref) : option (option cref) :=
  u_virtual_location <$> uses w !! u.


(** The list object that is the item sequence of the container [c]. *)
Definition item_list_of (w : World) (c : cref) : option lref :=
  c_items <$> containers w !! c.

(** The container [c] exists and its item sequence is [l]. *)
Definition holds (w : World) (c : cref) (l : list iref) : Prop :=
  ∃ C, containers w !! c = Some C ∧ item_lists w !! c_items C = Some l.

(** The player [self] stands in the location [loc], whose item sequence is
    [its] and whose exit sequence is [exs]. *)
Definition stands_in (w : World) (self loc : cref) (its : list iref) (exs : list eref) : Prop :=
  ∃ P L room er,
    containers w !! self = Some P ∧ c_extra P = IsPlayer (Some loc) ∧
    containers w !! loc = Some L ∧ c_extra L = IsLocation room er ∧
    item_lists w !! c_items L = Some its ∧ exit_lists w !! er = Some exs.

(** The use objects and the item objects of a state. *)
Definition bindings (w : World) : list ItemUse * list Item := (uses w, items w).

(** All the objects of a state: everything but the console. *)
Definition objects (w : World) :=
  (item_lists w, exit_lists w, containers w, exits w, uses w, items w).

(** Two states hold the same objects: they differ at most in the console. *)
Definition same_objects (w w' : World) : Prop := objects w' = objects w.

(** Every reference a list, a container, an exit or an item holds points at
    an object: true of every state of the Python program, where a reference
    cannot dangle. *)
Definition extra_closed (w : World) (x : Extra) : Prop :=
  match x with
  | IsContainer => True
  | IsLocation _ er => er < length (exit_lists w)
  | IsPlayer location => from_option (λ l, l < length (containers w)) True location
  end.

Definition closed (w : World) : Prop :=
  Forall (Forall (λ i, i < length (items w))) (item_lists w) ∧
  Forall (Forall (λ e, e < length (exits w))) (exit_lists w) ∧
  Forall (λ C, c_items C < length (item_lists w) ∧ extra_closed w (c_extra C)) (containers w) ∧
  Forall (λ E, e_to E < length (containers w)) (exits w) ∧
  Forall (λ I, i_use I < length (uses w)) (items w).

(** A game in good order, for the player [self] whose item sequence is the
    list object [pl]: references point at objects; the player stands
    somewhere else than in itself; every other container is a location
    whose item sequence is another list object than the player's, and no
    exit leads to the player; no list names an item twice, no item is in two
    list objects, no two items share a use; and the use of every item in a
    list object other than the player's has an unset owner reference. *)
Definition tidy (self : cref) (pl : lref) (w : World) : Prop :=
  closed w ∧
  (∃ P loc, containers w !! self = Some P ∧ c_items P = pl ∧
            c_extra P = IsPlayer (Some loc) ∧ loc ≠ self) ∧
  (∀ c C, containers w !! c = Some C → c ≠ self →
          c_items C ≠ pl ∧ ∃ room er, c_extra C = IsLocation room er) ∧
  (∀ e E, exits w !! e = Some E → e_to E ≠ self) ∧
  (∀ r l, item_lists w !! r = Some l → NoDup l) ∧
  (∀ r1 r2 l1 l2 i, item_lists w !! r1 = Some l1 → item_lists w !! r2 = Some l2 →
                    i ∈ l1 → i ∈ l2 → r1 = r2) ∧
  (∀ i j I J, items w !! i = Some I → items w !! j = Some J →
              i_use I = i_use J → i = j) ∧
  (∀ r l i I, item_lists w !! r = Some l → r ≠ pl → i ∈ l →
              items w !! i = Some I → owner_in w (i_use I) = Some None).

(** *** What a computation does *)

(** The computation returns [a] and does nothing but write. *)
Definition writes {A} (m : M A) (w : World) (a : A) : Prop :=
  ∃ out, m w = Ok a (says out w).

(** A call that returns normally, writes nothing and changes no item
    sequence. *)
Definition silently_inert (m : M unit) (w : World) : Prop :=
  ∃ w', m w = Ok tt w' ∧ stdout w' = stdout w ∧ item_lists w' = item_lists w.

(** The effect of a use runs on a state in which the bound item is not in
    the item sequence of the owner the use had: [execute] is [destroy]
    followed by the call of the effect on the state [destroy] leaves, and in
    that state the item is not among the owner's items. *)
Definition absent_when_effect_runs (extern : nat → M unit) (u : uref) (w : World) : Prop :=
  ∃ U c i w' l,
    uses w !! u = Some U ∧ u_virtual_location U = Some c ∧ u__item U = Some i ∧
    ItemUse.destroy u w = Ok tt w' ∧
    ItemUse.execute extern u w = ItemUse.call extern (u_execute U) w' ∧
    items_of c w' = Ok l w' ∧ i ∉ l.

(** The move protocol is complete for [item], from [loc] to [self]: the item
    is not in the item sequence of [loc], it is in the item sequence of
    [self], and the owner reference of its use is [self]. *)
Definition move_completed (w : World) (item : iref) (loc self : cref) : Prop :=
  ∃ ll lp I,
    holds w loc ll ∧ (item ∉ ll) ∧
    holds w self lp ∧ (item ∈ lp) ∧
    items w !! item = Some I ∧ owner_in w (i_use I) = Some (Some self).

(** The state the computation leaves, whether it returns or raises, is
    related by [R] to the state it started in. *)
Definition keeps {A} (R : relation World) (m : M A) : Prop :=
  ∀ w, R w (world_of (m w)).

(** The observation [f] of two states is the same. *)
Definition same_at {X} (f : World → X) : relation World :=
  λ w w', f w' = f w.

(** The computation leaves the observation [f] of the state as it was,
    whether it returns or raises. *)
Definition preserves {A X} (f : World → X) (m : M A) : Prop :=
  keeps (same_at f) m.

(** The property [J], when it holds of the first state, holds of the
    second. *)
Definition carries (J : World → Prop) : relation World :=
  λ w w', J w → J w'.

(** A relation that holds whatever is read or written on the console. *)
Definition console_free (R : relation World) : Prop :=
  (∀ g w, R w (set_stdout g w)) ∧ (∀ g w, R w (set_stdin g w)).

(** A relation that holds when a list object loses the first occurrence of
    an item. *)
Definition removal_free (R : relation World) : Prop :=
  ∀ w r l x l', item_lists w !! r = Some l → list_remove x l = Some l' →
                R w (set_item_lists (<[r := l']>) w).

(** A relation that holds when an item is appended to a list object. *)
Definition append_free (R : relation World) : Prop :=
  ∀ w r l x, item_lists w !! r = Some l →
             R w (set_item_lists (<[r := l ++ [x]]>) w).

(** An observation that does not depend on the console. *)
Definition off_console {X} (f : World → X) : Prop :=
  (∀ g w, f (set_stdout g w) = f w) ∧ (∀ g w, f (set_stdin g w) = f w).

(** *** States of the examples *)

(** Callables that do nothing. *)
Definition quiet : nat → M unit := fun _ => ret tt.

(** The game as [__main__] sets it up, for a player called Ann, with
    [lines] still to be read: the rooms are the containers 0 to 3 (lounge,
    kitchen, hall, dining room), the player is the container 4, and the
    items are 0 (crown), 1 (mango), 2 (apple) and 3 (diamond). *)
Definition start (lines : list string) : World :=
  world_of (setup ["lounge"; "kitchen"; "hall"; "dining room"]
              (module_loaded ("Ann" :: lines))).

(** The game after the player took the crown: one turn from the start,
    choosing action 3. *)
Definition taken : World :=
  world_of (Player.turn quiet 4 (start ["3"])).

(** The same, with [lines] to be read. *)
Definition taken_then (lines : list string) : World :=
  set_stdin (λ _, lines) taken.

(** The game after the player took the crown and wore it: two turns from
    the start, choosing action 3 (take the crown), then action 2 (the
    inventory) and in it entry 2 (the crown). *)
Definition worn : World :=
  world_of ((Player.turn quiet 4;; Player.turn quiet 4) (start ["3"; "2"; "2"])).

(** The game after the player went from the lounge to the kitchen: one
    turn from the start, choosing action 5. *)
Definition in_kitchen : World :=
  world_of (Player.turn quiet 4 (start ["5"])).

(** An apple on its own: [Fruit('Apple')] and nothing else. *)
Definition lone_apple : World :=
  world_of (Fruit.init "Apple" (module_loaded [])).

(** A use that does not destroy on execute, on its own:
    [ItemUse('Light', 'Light the lamp.', lambda: print('The lamp glows.'))]. *)
Definition lamp_use : World :=
  world_of (ItemUse.init "Light" "Light the lamp." (LambdaPrint "The lamp glows.") None
              (module_loaded [])).

(** A room that lists the same item twice,
    [c = Fruit('Cherry'); bowl = Room('Bowl', '', [], [c, c])], and in it
    a player who holds one item twice,
    [p = Fruit('Plum'); ann = Player('Ann', '', [p, p])], the plum's owner
    reference being set to the player; [lines] are still to be read.  The
    bowl is the container 0 and the player the container 1; the cherry is
    the item 0 and the plum the item 1. *)
Definition twice (lines : list string) : World :=
  world_of
    ((cherry <- Fruit.init "Cherry";;
      ex <- new_exit_list [];;
      its <- new_item_list [cherry; cherry];;
      bowl <- Room.init "Bowl" "" ex (Some its);;
      plum <- Fruit.init "Plum";;
      its <- new_item_list [plum; plum];;
      ann <- Player.init "Ann" "" its;;
      Player.set_location ann bowl;;
      use <- Item.get_use plum;;
      ItemUse.set_virtual_location use ann)
       (module_loaded lines)).

(** A room and the player in it that were given one and the same list
    object as their item sequence,
    [c = Fruit('Cherry'); both = [c]; bowl = Room('Bowl', '', [], both);
     ann = Player('Ann', '', both)]; [lines] are still to be read.  The bowl
    is the container 0 and the player the container 1; the cherry is the
    item 0. *)
Definition shared (lines : list string) : World :=
  world_of
    ((cherry <- Fruit.init "Cherry";;
      ex <- new_exit_list [];;
      both <- new_item_list [cherry];;
      bowl <- Room.init "Bowl" "" ex (Some both);;
      ann <- Player.init "Ann" "" both;;
      Player.set_location ann bowl)
       (module_loaded lines)).

(** *** Vocabulary of the further properties *)

(** What a container is, leaving out where a player stands. *)
Definition kind (x : Extra) : Extra :=
  match x with
  | IsPlayer _ => IsPlayer None
  | _ => x
  end.

(** The fixtures of a state: the exits and the exit sequences, the items,
    and of every container and every use all but what the game moves (where
    the player stands, what an item sequence holds, which owner a use
    has). *)
Definition fixtures (w : World) :=
  (exits w, exit_lists w, items w,
   (λ C, (c_name C, c_description C, c_items C, kind (c_extra C))) <$> containers w,
   (λ U, (u_name U, u_description U, u__item U, u__destroy_on_execute U, u_execute U))
     <$> uses w).

(** A relation that holds when an item is appended to the item sequence of
    the container [self]. *)
Definition gain_free (self : cref) (R : relation World) : Prop :=
  ∀ w P l x, containers w !! self = Some P → item_lists w !! c_items P = Some l →
             R w (set_item_lists (<[c_items P := l ++ [x]]>) w).

(** A relation that holds when the owner reference of a use is set to
    [self]. *)
Definition owner_free (self : cref) (R : relation World) : Prop :=
  ∀ w u U, uses w !! u = Some U →
           R w (set_uses (<[u := mkItemUse (u_name U) (u_description U) (u__item U)
                                   (u__destroy_on_execute U) (Some self) (u_execute U)]>) w).

(** A relation that holds when the player [self] is given a location. *)
Definition move_free (self : cref) (R : relation World) : Prop :=
  ∀ w P l loc, containers w !! self = Some P → c_extra P = IsPlayer l →
               R w (set_containers
                      (<[self := mkContainer (c_name P) (c_description P) (c_items P)
                                   (IsPlayer (Some loc))]>) w).

(** From the first state to the second, the container [self] has kept its
    list object, no list object was made, and every list object other than
    that of [self] holds a sublist of what it held. *)
Definition only_shrinks (self : cref) : relation World :=
  λ w w',
    item_list_of w' self = item_list_of w self ∧
    length (item_lists w') = length (item_lists w) ∧
    ∀ r l', Some r ≠ item_list_of w self → item_lists w' !! r = Some l' →
            ∃ l, item_lists w !! r = Some l ∧ l' `sublist_of` l.

(** Every callable of the state is one of the program's own lambdas. *)
Definition own_lambdas (w : World) : Prop :=
  Forall (λ U, ∃ text, u_execute U = LambdaPrint text) (uses w).

(** The use of every item is bound to that item. *)
Definition bound (w : World) : Prop :=
  ∀ i I U, items w !! i = Some I → uses w !! i_use I = Some U → u__item U = Some i.

(** The use of every item in the list object [pl] has [self] as its
    owner. *)
Definition owned (self : cref) (pl : lref) (w : World) : Prop :=
  ∀ l i I, item_lists w !! pl = Some l → i ∈ l → items w !! i = Some I →
           owner_in w (i_use I) = Some (Some self).

(** A game in play, for the player [self] whose item sequence is the list
    object [pl]: the game is in good order, its callables are the program's
    own, every use is bound to its item, and the player owns what it
    holds. *)
Definition in_play (self : cref) (pl : lref) (w : World) : Prop :=
  tidy self pl w ∧ own_lambdas w ∧ bound w ∧ owned self pl w.

(** The two ways a turn ends when it does not return: the player has quit,
    and the last line written is the farewell; or the input has ended. *)
Definition quit_or_eof (e : Exn) (w : World) : Prop :=
  (e = SystemExit ∧ last (stdout w) = Some (Line "Goodbye!")) ∨
  (e = EOFError ∧ stdin w = []).

(** The three ways a game ends: the player quits, the input ends, or the
    nested calls of [prompt] reach the depth the interpreter allows. *)
Definition game_over {A} (r : Res A) : Prop :=
  ∃ e w, r = Raise e w ∧ (quit_or_eof e w ∨ e = RecursionError).

(** Two computations do the same on every state that [R] relates to [w]. *)
Definition agree {A} (R : relation World) (w : World) (m1 m2 : M A) : Prop :=
  ∀ w', R w w' → m1 w' = m2 w'.

(** The integer that decimal digits denote, read after digits that gave
    [acc]. *)
Fixpoint decimal_value (acc : Z) (d : Decimal.uint) : Z :=
  match d with
  | Decimal.Nil => acc
  | Decimal.D0 d => decimal_value (10 * acc + 0) d
  | Decimal.D1 d => decimal_value (10 * acc + 1) d
  | Decimal.D2 d => decimal_value (10 * acc + 2) d
  | Decimal.D3 d => decimal_value (10 * acc + 3) d
  | Decimal.D4 d => decimal_value (10 * acc + 4) d
  | Decimal.D5 d => decimal_value (10 * acc + 5) d
  | Decimal.D6 d => decimal_value (10 * acc + 6) d
  | Decimal.D7 d => decimal_value (10 * acc + 7) d
  | Decimal.D8 d => decimal_value (10 * acc + 8) d
  | Decimal.D9 d => decimal_value (10 * acc + 9) d
  end.

(** The two lines that show an item as entry [n] of the main menu. *)
Definition item_entry (w : World) (n : Z) (i : iref) : list Output :=
  match items w !! i with
  | Some it => [Line ("  (" +:+ str n +:+ ") " +:+ i_name it);
                Line ("    " +:+ i_description it)]
  | None => []
  end.

(** The two lines that show an exit as entry [n] of the main menu. *)
Definition exit_entry (w : World) (n : Z) (e : eref) : list Output :=
  match exits w !! e with
  | Some E =>
      match containers w !! e_to E with
      | Some C => [Line ("  (" +:+ str n +:+ ") " +:+ c_name C);
                   Line ("    " +:+ e_description E)]
      | None => []
      end
  | None => []
  end.

(** The main menu of a location whose item sequence is [its] and whose exit
    sequence is [exs]: the item at place [j] is shown as entry [3 + j], the
    exit at place [j] as entry [3 + len its + j]. *)
Definition listing (w : World) (its : list iref) (exs : list eref) : list Output :=
  [Line "Actions:"; Line "  (1) Quit"; Line "  (2) Inventory"; Line ""; Line "Items:"]
  ++ concat (imap (λ j i, item_entry w (3 + Z.of_nat j) i) its)
  ++ (if its is [] then [Line "  (no available items)"] else [])
  ++ [Line ""; Line "Exits:"]
  ++ concat (imap (λ j e, exit_entry w (3 + len its + Z.of_nat j) e) exs).

(** The three lines that show an item as entry [n] of the inventory
    menu. *)
Definition inventory_entry (w : World) (n : Z) (i : iref) : list Output :=
  match items w !! i with
  | Some it =>
      match uses w !! i_use it with
      | Some u => [Line ("  (" +:+ str n +:+ ") " +:+ i_name it);
                   Line ("    " +:+ i_description it);
                   Line ("    " +:+ u_description u)]
      | None => []
      end
  | None => []
  end.

(** The inventory menu of a player whose item sequence is [l]: the item at
    place [j] is shown as entry [2 + j]. *)
Definition inventory_listing (w : World) (l : list iref) : list Output :=
  [Line "Inventory:"; Line "  (1) Close inventory."]
  ++ concat (imap (λ j i, inventory_entry w (2 + Z.of_nat j) i) l)
  ++ [Line "Enter item number to use or 0 to exit:"].

(** What the inventory menu writes while it reads the lines [bad], none of
    which it accepts, and then one more line: a prompt and a complaint for
    each line of [bad], and a prompt. *)
Definition inventory_rejections (n : Z) (bad : list string) : list Output :=
  concat (map (λ _, [Prompt "> "; inventory_complaint n]) bad) ++ [Prompt "> "].

(** What a turn has written when it asks for a choice, for a player who
    stands in [loc]: the rule, the location, the main menu and the
    question. *)
Definition screen (w : World) (loc : cref) (its : list iref) (exs : list eref)
    : list Output :=
  match containers w !! loc with
  | Some L =>
      [Line (string_repeat "=" 30); Line ("Location: " +:+ c_name L);
       Line (c_description L); Line ""]
      ++ listing w its exs
      ++ [Line ""; Line "What would you like to do?"]
  | None => []
  end.

(** ** Properties *)

Lemma list_remove_absent (x : iref) (l : list iref) :
  x ∉ l → list_remove (Some x) l = None.
Proof.
  induction l as [|y l IH]; intros Hx; [done|].
  apply not_elem_of_cons in Hx as [Hne Hl]. simpl.
  destruct (decide (Some y = Some x)) as [[= ->]|_]; [done|].
  by rewrite IH.
Qed.

Lemma list_remove_first (x : iref) (l1 l2 : list iref) :
  x ∉ l1 → list_remove (Some x) (l1 ++ x :: l2) = Some (l1 ++ l2).
Proof.
  induction l1 as [|y l1 IH]; intros Hx; simpl.
  - by rewrite decide_True.
  - apply not_elem_of_cons in Hx as [Hne Hl].
    rewrite decide_False by congruence. by rewrite IH.
Qed.

Lemma list_remove_none (l : list iref) : list_remove None l = None.
Proof. induction l as [|y l IH]; [done|]. simpl. by rewrite IH. Qed.

(** [remove_item] in terms of the list content. *)
Lemma remove_item_run (w : World) (self : cref) (c : Container) (l : list iref)
    (item : option iref) :
  containers w !! self = Some c →
  item_lists w !! c_items c = Some l →
  Container.remove_item self item w =
    match list_remove item l with
    | Some l' => Ok tt (set_item_lists (<[c_items c := l']>) w)
    | None => Ok tt w
    end.
Proof.
  intros Hc Hl.
  unfold Container.remove_item, try_except, bind, load, modify, raise, ret.
  rewrite Hc. simpl. rewrite Hl. by destruct (list_remove item l).
Qed.

Lemma items_of_run (w : World) (self : cref) (c : Container) (l : list iref) :
  containers w !! self = Some c →
  item_lists w !! c_items c = Some l →
  items_of self w = Ok l w.
Proof.
  intros Hc Hl. unfold items_of, Container.get_items, bind, load, ret.
  rewrite Hc. simpl. by rewrite Hl.
Qed.

Lemma items_of_stored (w : World) (self : cref) (c : Container) (l l' : list iref) :
  containers w !! self = Some c →
  item_lists w !! c_items c = Some l →
  items_of self (set_item_lists (<[c_items c := l']>) w)
  = Ok l' (set_item_lists (<[c_items c := l']>) w).
Proof.
  intros Hc Hl. apply items_of_run with c; [done|]. simpl.
  apply list_lookup_insert_eq. by eapply lookup_lt_Some.
Qed.

(** C7.  [remove_item] with an item that is not in the container's item
    sequence returns normally and leaves the whole state, so the item
    sequence too, as it was; with an item that is in the sequence it returns
    normally and the sequence has lost exactly the first entry that is this
    item: the entries before it and after it stay, in order. *)
Theorem remove_item_first_or_nothing (w : World) (self : cref) (c : Container)
    (l : list iref) (item : iref) :
  containers w !! self = Some c →
  item_lists w !! c_items c = Some l →
  (item ∉ l → Container.remove_item self (Some item) w = Ok tt w) ∧
  (∀ l1 l2, l = l1 ++ item :: l2 → item ∉ l1 →
     ∃ w', Container.remove_item self (Some item) w = Ok tt w' ∧
           items_of self w' = Ok (l1 ++ l2) w' ∧
           (∀ r, r ≠ c_items c → item_lists w' !! r = item_lists w !! r)).
Proof.
  intros Hc Hl. split.
  - intros Hx. rewrite (remove_item_run w self c l) by done.
    by rewrite list_remove_absent.
  - intros l1 l2 -> Hx.
    rewrite (remove_item_run w self c (l1 ++ item :: l2)) by done.
    rewrite list_remove_first by done.
    eexists. split; [done|]. split.
    + by eapply items_of_stored.
    + intros r Hr. simpl. by apply list_lookup_insert_ne.
Qed.

Lemma remove_item_first_or_nothing_witness :
  Container.remove_item 1 (Some 0) (start []) = Ok tt (start []) ∧
  ∃ w', Container.remove_item 1 (Some 2) (start []) = Ok tt w' ∧
        items_of 1 w' = Ok [1] w'.
Proof.
  destruct (remove_item_first_or_nothing (start []) 1
              (mkContainer "Kitchen" "kitchen" 2 (IsLocation true 1)) [1; 2] 0
              eq_refl eq_refl) as [Habsent _].
  destruct (remove_item_first_or_nothing (start []) 1
              (mkContainer "Kitchen" "kitchen" 2 (IsLocation true 1)) [1; 2] 2
              eq_refl eq_refl) as [_ Hpresent].
  split.
  - apply Habsent. compute_done.
  - destruct (Hpresent [1] [] eq_refl) as (w' & Hrun & Hitems & _).
    + compute_done.
    + exists w'. split; assumption.
Defined.

(** *** [ItemUse.destroy] *)

Lemma destroy_run (w : World) (u : uref) (U : ItemUse) :
  uses w !! u = Some U →
  ItemUse.destroy u w =
    match u_virtual_location U with
    | None => Raise AttributeError w
    | Some c => Container.remove_item c (u__item U) w
    end.
Proof.
  intros Hu.
  unfold ItemUse.destroy, ItemUse.get_virtual_location, bind, load, ret, raise.
  rewrite Hu. simpl. destruct (u_virtual_location U); [|done].
  by rewrite Hu.
Qed.

(** C2, as the code has it.  When the owner reference of a use is set and
    the bound item (if the use has one) is not in the owner's item sequence,
    [destroy] returns normally and leaves the whole state as it was: it is
    silently inert.  When the owner reference is unset, [destroy] raises
    [AttributeError]; the state (every item sequence, and what was written)
    is still as it was. *)
Theorem destroy_absent_or_unowned (w : World) (u : uref) (U : ItemUse) :
  uses w !! u = Some U →
  (∀ c C l,
      u_virtual_location U = Some c →
      containers w !! c = Some C →
      item_lists w !! c_items C = Some l →
      (∀ i, u__item U = Some i → i ∉ l) →
      ItemUse.destroy u w = Ok tt w ∧ silently_inert (ItemUse.destroy u) w) ∧
  (u_virtual_location U = None →
      ItemUse.destroy u w = Raise AttributeError w).
Proof.
  intros Hu. split.
  - intros c C l Hc HC Hl Habs.
    assert (ItemUse.destroy u w = Ok tt w) as Hrun.
    { rewrite (destroy_run w u U Hu), Hc.
      rewrite (remove_item_run w c C l) by done.
      assert (list_remove (u__item U) l = None) as ->; [|done].
      destruct (u__item U) as [i|]; [|apply list_remove_none].
      apply list_remove_absent. by apply Habs. }
    split; [done|]. by exists w.
  - intros Hc. by rewrite (destroy_run w u U Hu), Hc.
Qed.

Lemma destroy_absent_or_unowned_witness :
  ItemUse.destroy 0 worn = Ok tt worn ∧
  ItemUse.destroy 0 lone_apple = Raise AttributeError lone_apple.
Proof.
  split.
  - destruct (destroy_absent_or_unowned worn 0
                (mkItemUse "Wear" "Wear the crown." (Some 0) true (Some 4)
                   (LambdaPrint "You put the crown on your head."))
                eq_refl) as [Howned _].
    apply (Howned 4 (mkContainer "Ann" "You are you." 5 (IsPlayer (Some 0))) []
             eq_refl eq_refl eq_refl).
    intros i _. compute_done.
  - destruct (destroy_absent_or_unowned lone_apple 0
                (mkItemUse "Eat" "Eat the Apple." (Some 0) true None
                   (LambdaPrint "You eat the Apple."))
                eq_refl) as [_ Hunowned].
    apply Hunowned. reflexivity.
Defined.

(** C2 as stated fails: the use of a fruit that was only constructed has no
    owner, and [destroy] on it is not inert, it raises. *)
Lemma destroy_unowned_not_inert :
  owner_in lone_apple 0 = Some None ∧
  ¬ silently_inert (ItemUse.destroy 0) lone_apple.
Proof.
  split; [reflexivity|].
  intros (w' & Hrun & _). vm_compute in Hrun. discriminate Hrun.
Qed.

(** *** [ItemUse.execute] *)

Lemma without_first_cons (x y : iref) (l : list iref) :
  without_first x (y :: l) = if decide (y = x) then l else y :: without_first x l.
Proof.
  unfold without_first. simpl.
  destruct (decide (y = x)) as [->|Hne].
  - by rewrite decide_True.
  - rewrite decide_False by congruence.
    by destruct (list_remove (Some x) l).
Qed.

Lemma occurrences_cons (x y : iref) (l : list iref) :
  occurrences x (y :: l) = if decide (y = x) then S (occurrences x l) else occurrences x l.
Proof. unfold occurrences. rewrite filter_cons. by destruct (decide (y = x)). Qed.

Lemma occurrences_zero (x : iref) (l : list iref) :
  occurrences x l = 0 → x ∉ l.
Proof.
  induction l as [|y l IH]; intros H; [apply not_elem_of_nil|].
  rewrite occurrences_cons in H. destruct (decide (y = x)); [done|].
  apply not_elem_of_cons. split; [congruence|by apply IH].
Qed.

Lemma without_first_absent (x : iref) (l : list iref) :
  occurrences x l ≤ 1 → x ∉ without_first x l.
Proof.
  induction l as [|y l IH]; intros H; [apply not_elem_of_nil|].
  rewrite without_first_cons. rewrite occurrences_cons in H.
  destruct (decide (y = x)).
  - apply occurrences_zero. lia.
  - apply not_elem_of_cons. split; [congruence|by apply IH].
Qed.

Lemma remove_item_without_first (w : World) (c : cref) (C : Container)
    (l : list iref) (i : iref) :
  containers w !! c = Some C →
  item_lists w !! c_items C = Some l →
  ∃ w', Container.remove_item c (Some i) w = Ok tt w' ∧
        items_of c w' = Ok (without_first i l) w' ∧
        item_lists w' = <[c_items C := without_first i l]> (item_lists w) ∧
        exit_lists w' = exit_lists w ∧ containers w' = containers w ∧
        exits w' = exits w ∧ uses w' = uses w ∧ items w' = items w ∧
        stdin w' = stdin w ∧ stdout w' = stdout w.
Proof.
  intros HC Hl. rewrite (remove_item_run w c C l) by done.
  unfold without_first. destruct (list_remove (Some i) l) as [l'|]; simpl.
  - eexists. split; [done|]. split; [by eapply items_of_stored|done].
  - exists w. split; [done|]. split; [by eapply items_of_run|].
    by rewrite list_insert_id.
Qed.

Lemma execute_run (extern : nat → M unit) (w : World) (u : uref) (U : ItemUse) :
  uses w !! u = Some U →
  ItemUse.execute extern u w =
    if u__destroy_on_execute U then
      match ItemUse.destroy u w with
      | Ok _ w' => (U' <- load uses u;; ItemUse.call extern (u_execute U')) w'
      | Raise e w' => Raise e w'
      end
    else ItemUse.call extern (u_execute U) w.
Proof.
  intros Hu. unfold ItemUse.execute, bind at 1 2. unfold load at 1.
  rewrite Hu. destruct (u__destroy_on_execute U); [done|].
  unfold ret, bind, load. by rewrite Hu.
Qed.

(** C5, as the code has it.  For a use that destroys on execute and whose
    owner reference is set, [execute] first removes the first occurrence of
    the bound item from the owner's item sequence and then calls the effect,
    on the state the removal left; in that state the item is not in the
    owner's item sequence when it occurred there at most once.  For a use
    that destroys on execute and whose owner reference is unset, [execute]
    raises [AttributeError] and the effect is not called.  For a use that
    does not destroy on execute, [execute] is the call of the effect on the
    state as it is: no item sequence has changed when the effect starts. *)
Theorem execute_destroys_then_calls (extern : nat → M unit) (w : World)
    (u : uref) (U : ItemUse) :
  uses w !! u = Some U →
  (u__destroy_on_execute U = true →
   ∀ c C l i,
     u_virtual_location U = Some c →
     containers w !! c = Some C →
     item_lists w !! c_items C = Some l →
     u__item U = Some i →
     ∃ w', ItemUse.destroy u w = Ok tt w' ∧
           ItemUse.execute extern u w = ItemUse.call extern (u_execute U) w' ∧
           items_of c w' = Ok (without_first i l) w' ∧
           (occurrences i l ≤ 1 → absent_when_effect_runs extern u w)) ∧
  (u__destroy_on_execute U = true → u_virtual_location U = None →
   ItemUse.execute extern u w = Raise AttributeError w) ∧
  (u__destroy_on_execute U = false →
   ItemUse.execute extern u w = ItemUse.call extern (u_execute U) w).
Proof.
  intros Hu. rewrite (execute_run extern w u U Hu). split_and!.
  - intros Hd c C l i Hc HC Hl Hi. rewrite Hd.
    destruct (remove_item_without_first w c C l i HC Hl)
      as (w' & Hrm & Hits & _ & _ & _ & _ & Huses & _).
    assert (ItemUse.destroy u w = Ok tt w') as Hdes.
    { by rewrite (destroy_run w u U Hu), Hc, Hi. }
    assert (ItemUse.execute extern u w = ItemUse.call extern (u_execute U) w') as Hex.
    { rewrite (execute_run extern w u U Hu), Hd, Hdes.
      unfold bind, load. by rewrite Huses, Hu. }
    exists w'. rewrite Hdes. split; [done|]. split.
    { rewrite <- Hex. by rewrite (execute_run extern w u U Hu), Hd, Hdes. }
    split; [done|]. intros Hocc.
    exists U, c, i, w', (without_first i l).
    repeat split; try done. by apply without_first_absent.
  - intros Hd Hc. by rewrite Hd, (destroy_run w u U Hu), Hc.
  - by intros ->.
Qed.

Lemma execute_destroys_then_calls_witness :
  absent_when_effect_runs quiet 0 taken ∧
  ItemUse.execute quiet 0 lamp_use
  = ItemUse.call quiet (LambdaPrint "The lamp glows.") lamp_use.
Proof.
  split.
  - destruct (execute_destroys_then_calls quiet taken 0
                (mkItemUse "Wear" "Wear the crown." (Some 0) true (Some 4)
                   (LambdaPrint "You put the crown on your head."))
                eq_refl) as (Hdestroys & _ & _).
    destruct (Hdestroys eq_refl 4
                (mkContainer "Ann" "You are you." 5 (IsPlayer (Some 0))) [0] 0
                eq_refl eq_refl eq_refl eq_refl) as (w' & _ & _ & _ & Habsent).
    apply Habsent. vm_compute. lia.
  - destruct (execute_destroys_then_calls quiet lamp_use 0
                (mkItemUse "Light" "Light the lamp." None false None
                   (LambdaPrint "The lamp glows."))
                eq_refl) as (_ & _ & Hkeeps).
    apply Hkeeps. reflexivity.
Defined.

(** C5 as stated fails.  A player holding the same plum twice eats it, and
    when the effect runs the plum is still among the player's items; and on
    a fruit that was only constructed, whose use has no owner, [execute]
    raises before the effect is called: nothing is written. *)
Lemma execute_leaves_item_or_raises :
  ¬ absent_when_effect_runs quiet 1 (twice []) ∧
  (owner_in lone_apple 0 = Some None ∧
   ItemUse.execute quiet 0 lone_apple = Raise AttributeError lone_apple).
Proof.
  split.
  - intros (U & c & i & w' & l & HU & Hc & Hi & Hdes & _ & Hits & Habs).
    vm_compute in HU. simplify_eq. simpl in Hc, Hi. simplify_eq.
    vm_compute in Hdes. simplify_eq.
    vm_compute in Hits. simplify_eq.
    apply Habs. compute_done.
  - split; reflexivity.
Qed.

(** *** The shared default of [Room.__init__] *)

Lemma add_item_run (w : World) (self : cref) (c : Container) (l : list iref) (item : iref) :
  containers w !! self = Some c →
  item_lists w !! c_items c = Some l →
  Container.add_item self item w
  = Ok tt (set_item_lists (<[c_items c := l ++ [item]]>) w).
Proof.
  intros Hc Hl. unfold Container.add_item, bind, load, modify.
  rewrite Hc. by rewrite Hl.
Qed.

(** C10.  Two rooms constructed without the [items] argument are two
    objects with one and the same list object as their item sequence: an
    item added to the first is in the item sequence of the second as well,
    so it is in two containers at once, and [remove_item] through either of
    them changes the item sequence of both. *)
Theorem rooms_share_default_items (w : World) (name1 description1 : string)
    (exits1 : elref) (name2 description2 : string) (exits2 : elref)
    (l0 : list iref) (i : iref) :
  item_lists w !! Room_default_items = Some l0 →
  ∃ r1 w1 r2 w2 w3,
    Room.init name1 description1 exits1 None w = Ok r1 w1 ∧
    Room.init name2 description2 exits2 None w1 = Ok r2 w2 ∧
    r1 ≠ r2 ∧
    Container.get_items r1 w2 = Ok Room_default_items w2 ∧
    Container.get_items r2 w2 = Ok Room_default_items w2 ∧
    Container.add_item r1 i w2 = Ok tt w3 ∧
    items_of r1 w3 = Ok (l0 ++ [i]) w3 ∧
    items_of r2 w3 = Ok (l0 ++ [i]) w3 ∧
    i ∈ l0 ++ [i] ∧
    ∀ r, r = r1 ∨ r = r2 →
      ∃ w4, Container.remove_item r (Some i) w3 = Ok tt w4 ∧
            items_of r1 w4 = Ok (without_first i (l0 ++ [i])) w4 ∧
            items_of r2 w4 = Ok (without_first i (l0 ++ [i])) w4.
Proof.
  intros Hl0.
  set (R1 := mkContainer name1 description1 Room_default_items (IsLocation true exits1)).
  set (R2 := mkContainer name2 description2 Room_default_items (IsLocation true exits2)).
  set (w1 := set_containers (λ s, s ++ [R1]) w).
  set (w2 := set_containers (λ s, s ++ [R2]) w1).
  assert (containers w2 !! length (containers w) = Some R1) as H1.
  { simpl. rewrite lookup_app_l by (rewrite length_app; simpl; lia).
    by rewrite lookup_app_r, Nat.sub_diag. }
  assert (containers w2 !! length (containers w1) = Some R2) as H2.
  { simpl. by rewrite lookup_app_r, Nat.sub_diag. }
  assert (length (containers w) ≠ length (containers w1)) as Hne.
  { simpl. rewrite length_app. simpl. lia. }
  set (w3 := set_item_lists (<[Room_default_items := l0 ++ [i]]>) w2).
  exists (length (containers w)), w1, (length (containers w1)), w2, w3.
  split; [done|]. split; [done|]. split; [done|].
  split. { unfold Container.get_items, bind, load. by rewrite H1. }
  split. { unfold Container.get_items, bind, load. by rewrite H2. }
  split. { by rewrite (add_item_run w2 _ R1 l0). }
  assert (item_lists w3 !! Room_default_items = Some (l0 ++ [i])) as Hl3.
  { simpl. apply list_lookup_insert_eq. by eapply lookup_lt_Some. }
  split. { by apply items_of_run with R1. }
  split. { by apply items_of_run with R2. }
  split. { apply elem_of_app. right. by apply list_elem_of_singleton. }
  intros r Hr.
  assert (∃ R, containers w3 !! r = Some R ∧ c_items R = Room_default_items)
    as (R & HR & Hitems).
  { destruct Hr as [-> | ->]; [by exists R1|by exists R2]. }
  destruct (remove_item_without_first w3 r R (l0 ++ [i]) i HR)
    as (w4 & Hrm & _ & Hlists & _ & Hcont & _); [by rewrite Hitems|].
  exists w4. split; [done|].
  assert (item_lists w4 !! Room_default_items = Some (without_first i (l0 ++ [i]))) as Hl4.
  { rewrite Hlists, Hitems. apply list_lookup_insert_eq. by eapply lookup_lt_Some. }
  split.
  - apply items_of_run with R1; [by rewrite Hcont|done].
  - apply items_of_run with R2; [by rewrite Hcont|done].
Qed.

Lemma rooms_share_default_items_witness :
  ∃ r1 w1 r2 w2 w3,
    Room.init "Attic" "" 0 None (module_loaded []) = Ok r1 w1 ∧
    Room.init "Cellar" "" 0 None w1 = Ok r2 w2 ∧
    r1 ≠ r2 ∧
    Container.add_item r1 7 w2 = Ok tt w3 ∧
    items_of r2 w3 = Ok [7] w3.
Proof.
  destruct (rooms_share_default_items (module_loaded []) "Attic" "" 0 "Cellar" "" 0 [] 7
              eq_refl)
    as (r1 & w1 & r2 & w2 & w3 & H1 & H2 & Hne & _ & _ & Hadd & _ & Hits & _).
  exists r1, w1, r2, w2, w3. repeat split; assumption.
Defined.

(** *** Computations that only write *)

Lemma says_nil (w : World) : says [] w = w.
Proof. destruct w. unfold says, set_stdout. simpl. by rewrite app_nil_r. Qed.

Lemma says_says (o1 o2 : list Output) (w : World) :
  says o2 (says o1 w) = says (o1 ++ o2) w.
Proof. unfold says, set_stdout. simpl. by rewrite app_assoc. Qed.

Lemma writes_ret {A} (a : A) (w : World) : writes (ret a) w a.
Proof. exists []. by rewrite says_nil. Qed.

Lemma writes_print (s : string) (w : World) : writes (print s) w tt.
Proof. by exists [Line s]. Qed.

Lemma writes_bind {A B} (m : M A) (k : A → M B) (w : World) (a : A) (b : B) :
  writes m w a → (∀ out, writes (k a) (says out w) b) → writes (bind m k) w b.
Proof.
  intros [o1 H1] H2. destruct (H2 o1) as [o2 H2'].
  exists (o1 ++ o2). unfold bind. by rewrite H1, H2', says_says.
Qed.

Lemma writes_for_in {A S} (I : list A → S → Prop) (body : A → S → M S)
    (l : list A) (w : World) :
  (∀ done x s out, I done s → x ∈ l →
     ∃ s', writes (body x s) (says out w) s' ∧ I (done ++ [x]) s') →
  ∀ s, I [] s → ∃ s', writes (for_in l body s) w s' ∧ I l s'.
Proof.
  intros Hbody.
  assert (∀ rest done s out, I done s → (∀ x, x ∈ rest → x ∈ l) →
            ∃ s', writes (for_in rest body s) (says out w) s' ∧ I (done ++ rest) s') as Hgen.
  { induction rest as [|x rest IH]; intros done s out HI Hsub.
    - exists s. rewrite app_nil_r. split; [apply writes_ret|done].
    - destruct (Hbody done x s out HI) as (s1 & [o1 H1] & HI1).
      { apply Hsub, elem_of_cons. by left. }
      destruct (IH (done ++ [x]) s1 (out ++ o1) HI1) as (s2 & [o2 H2] & HI2).
      { intros y Hy. apply Hsub, elem_of_cons. by right. }
      exists s2. split.
      + exists (o1 ++ o2). simpl. unfold bind. rewrite H1, says_says, H2.
        by rewrite !says_says, app_assoc.
      + by rewrite <- app_assoc in HI2. }
  intros s HI. destruct (Hgen l [] s [] HI) as (s' & Hw & HI'); [done|].
  rewrite says_nil in Hw. by exists s'.
Qed.

Lemma writes_items_of (w : World) (c : cref) (C : Container) (l : list iref) :
  containers w !! c = Some C →
  item_lists w !! c_items C = Some l →
  writes (items_of c) w l.
Proof.
  intros HC Hl. exists []. rewrite says_nil. by apply items_of_run with C.
Qed.

Lemma writes_exits_of (w : World) (c : cref) (C : Container) (room : bool)
    (er : elref) (l : list eref) :
  containers w !! c = Some C →
  c_extra C = IsLocation room er →
  exit_lists w !! er = Some l →
  writes (exits_of c) w l.
Proof.
  intros HC Hx Hl. exists []. rewrite says_nil.
  unfold exits_of, Location.get_exits, bind, load. rewrite HC, Hx. simpl.
  by rewrite Hl.
Qed.

Lemma valid_lookup {A} (s : list A) (r : nat) : r < length s → is_Some (s !! r).
Proof. apply lookup_lt_is_Some_2. Qed.

Lemma closed_item (w : World) (r : lref) (l : list iref) (i : iref) :
  closed w → item_lists w !! r = Some l → i ∈ l →
  ∃ I U, items w !! i = Some I ∧ uses w !! i_use I = Some U.
Proof.
  intros (Hil & _ & _ & _ & Hit) Hl Hi.
  rewrite Forall_lookup in Hil. specialize (Hil r l Hl).
  rewrite Forall_forall in Hil. specialize (Hil i Hi).
  destruct (valid_lookup _ _ Hil) as [I HI].
  rewrite Forall_lookup in Hit. specialize (Hit i I HI). simpl in Hit.
  destruct (valid_lookup _ _ Hit) as [U HU]. by exists I, U.
Qed.

Lemma closed_exit (w : World) (r : elref) (l : list eref) (e : eref) :
  closed w → exit_lists w !! r = Some l → e ∈ l →
  ∃ E C, exits w !! e = Some E ∧ containers w !! e_to E = Some C.
Proof.
  intros (_ & Hel & _ & Hex & _) Hl He.
  rewrite Forall_lookup in Hel. specialize (Hel r l Hl).
  rewrite Forall_forall in Hel. specialize (Hel e He).
  destruct (valid_lookup _ _ Hel) as [E HE].
  rewrite Forall_lookup in Hex. specialize (Hex e E HE). simpl in Hex.
  destruct (valid_lookup _ _ Hex) as [C HC]. by exists E, C.
Qed.

(** *** The action list *)

Lemma writes_get {A B} (store : World → list A) (f : A → B) (r : nat) (a : A) (w : World) :
  store w !! r = Some a → writes (o <- load store r;; ret (f o)) w (f a).
Proof. intros H. exists []. unfold bind, load, ret. by rewrite H, says_nil. Qed.

Lemma writes_get_location (w : World) (self : cref) (P : Container) (l : option cref) :
  containers w !! self = Some P → c_extra P = IsPlayer l →
  writes (Player.get_location self) w l.
Proof.
  intros HP Hx. exists []. unfold Player.get_location, bind, load, ret.
  by rewrite HP, Hx, says_nil.
Qed.

Ltac wstep tac :=
  eapply writes_bind; [tac | intros ?].

Lemma print_and_get_actions_run (w : World) (self loc : cref)
    (its : list iref) (exs : list eref) :
  closed w → stands_in w self loc its exs →
  writes (Player.print_and_get_actions self) w (canonical its exs).
Proof.
  intros Hcl (P & L & room & er & HP & HPx & HL & HLx & Hits & Hexs).
  unfold Player.print_and_get_actions.
  wstep ltac:(by eapply writes_get_location).
  do 5 wstep ltac:(apply writes_print).
  wstep ltac:(apply writes_ret).
  wstep ltac:(by eapply writes_items_of).
  match goal with |- writes (bind (for_in _ ?body _) _) ?w0 _ =>
    destruct (writes_for_in
                (λ done (s : Z * list PlayerAction),
                   s.1 = (2 + len done)%Z ∧ s.2 = [Quit; Inventory] ++ map Take done)
                body its w0) with (s := (2%Z, [Quit; Inventory]))
      as ([i1 a1] & Hloop1 & Hi1 & Ha1)
  end.
  { intros done x [i a] o [Hi Ha] Hx. simpl in Hi, Ha. subst i a.
    destruct (closed_item w _ its x Hcl Hits Hx) as (I & U & HI & _).
    eexists. split.
    - wstep ltac:(by eapply (writes_get items i_name)).
      wstep ltac:(apply writes_print).
      wstep ltac:(by eapply (writes_get items i_description)).
      wstep ltac:(apply writes_print).
      apply writes_ret.
    - simpl. unfold len. rewrite length_app, map_app. simpl.
      split; [lia|done]. }
  { done. }
  simpl in Hi1, Ha1. subst i1 a1.
  wstep ltac:(exact Hloop1).
  wstep ltac:(simpl; destruct (_ =? _)%Z; [apply writes_print|apply writes_ret]).
  do 2 wstep ltac:(apply writes_print).
  wstep ltac:(by eapply writes_exits_of).
  match goal with |- writes (bind (for_in _ ?body ?s0) _) ?w0 _ =>
    destruct (writes_for_in
                (λ done (s : Z * list PlayerAction),
                   s.2 = [Quit; Inventory] ++ map Take its ++ map Go done)
                body exs w0) with (s := s0)
      as ([i2 a2] & Hloop2 & Ha2)
  end.
  { intros done x [i a] o Ha Hx. simpl in Ha. subst a.
    destruct (closed_exit w _ exs x Hcl Hexs Hx) as (E & C & HE & HC).
    eexists. split.
    - wstep ltac:(by eapply (writes_get exits e_to)).
      wstep ltac:(by eapply (writes_get containers c_name)).
      wstep ltac:(apply writes_print).
      wstep ltac:(by eapply (writes_get exits e_description)).
      wstep ltac:(apply writes_print).
      apply writes_ret.
    - simpl. rewrite map_app. simpl. by rewrite <- !app_assoc. }
  { simpl. by rewrite app_nil_r. }
  simpl in Ha2. subst a2.
  wstep ltac:(exact Hloop2).
  apply writes_ret.
Qed.

(** C4.  For a player standing in a location with item sequence [its] and
    exit sequence [exs], the action list [print_and_get_actions] returns is
    exactly [Quit], [Inventory], one [Take] per item in the order of [its],
    then one [Go] per exit in the order of [exs]; computing it only
    writes. *)
Theorem actions_in_canonical_order (w : World) (self loc : cref)
    (its : list iref) (exs : list eref) :
  closed w → stands_in w self loc its exs →
  ∃ out, Player.print_and_get_actions self w
         = Ok ([Quit; Inventory] ++ map Take its ++ map Go exs) (says out w).
Proof. apply print_and_get_actions_run. Qed.

Lemma actions_in_canonical_order_witness :
  ∃ out, Player.print_and_get_actions 4 in_kitchen
         = Ok [Quit; Inventory; Take 1; Take 2; Go 3; Go 6] (says out in_kitchen).
Proof.
  apply (actions_in_canonical_order in_kitchen 4 1 [1; 2] [3; 6]).
  - vm_compute. repeat constructor.
  - exists (mkContainer "Ann" "You are you." 5 (IsPlayer (Some 1))),
      (mkContainer "Kitchen" "kitchen" 2 (IsLocation true 1)), true, 1.
    vm_compute. repeat split.
Defined.

(** *** The selection loop of the main menu *)

#[local] Arguments str : simpl never.
#[local] Arguments py_int : simpl never.
#[local] Arguments len : simpl never.
#[local] Arguments String.append : simpl never.

Lemma choice_of_range (n : Z) (s : string) (k : Z) :
  choice_of n s = Some k ↔ py_int s = Some k ∧ (1 ≤ k ≤ n)%Z.
Proof.
  unfold choice_of. destruct (py_int s) as [k'|]; [|split; [done|by intros [? _]]].
  rewrite Z.gtb_ltb.
  destruct (Z.ltb_spec k' 1), (Z.ltb_spec n k'); simpl; split;
    try (intros [= <-]; split; [done|lia]);
    try (intros [[= <-] ?]; done || lia); try done.
Qed.

Lemma choose_run (actions : list PlayerAction) (w : World) (s : string)
    (rest : list string) :
  stdin w = s :: rest →
  Player.choose actions w =
    match choice_of (len actions) s with
    | Some k => Ok (Some k) (advance rest [Prompt "> "] w)
    | None => Ok None (advance rest [Prompt "> "; complaint (len actions)] w)
    end.
Proof.
  intros Hin.
  unfold Player.choose, try_except, bind, input, bind, modify, gets, int, choice_of,
    print, modify, ret, raise.
  cbn [stdin set_stdout]. rewrite Hin. cbv beta iota.
  assert (∀ a b : Output, (stdout w ++ [a]) ++ [b] = stdout w ++ [a; b]) as Hout.
  { intros a b. by rewrite <- app_assoc. }
  destruct (py_int s) as [k|].
  - destruct ((k <? 1)%Z || (k >? len actions)%Z); [|done].
    rewrite decide_True by done.
    unfold advance, says, set_stdin, set_stdout, complaint. simpl. by rewrite Hout.
  - rewrite decide_True by done.
    unfold advance, says, set_stdin, set_stdout, complaint. simpl. by rewrite Hout.
Qed.

Lemma choose_eof (actions : list PlayerAction) (w : World) :
  stdin w = [] →
  Player.choose actions w = Raise EOFError (says [Prompt "> "] w).
Proof.
  intros Hin.
  unfold Player.choose, try_except, bind, input, bind, modify, gets.
  cbn [stdin set_stdout]. by rewrite Hin.
Qed.

Lemma select_step (actions : list PlayerAction) (w : World) (s : string)
    (rest : list string) :
  stdin w = s :: rest →
  Player.select actions w =
    match choice_of (len actions) s with
    | Some k => Ok (Some k) (advance rest [Prompt "> "] w)
    | None => Player.select actions (advance rest [Prompt "> "; complaint (len actions)] w)
    end.
Proof.
  intros Hin. unfold Player.select, bind at 1, gets at 1.
  rewrite Hin. cbn [length while_not truthy]. unfold bind at 1.
  rewrite (choose_run actions w s rest Hin).
  destruct (choice_of (len actions) s) as [k|] eqn:Hk.
  - apply choice_of_range in Hk as [_ Hr].
    destruct (length rest); simpl; by destruct (Z.eqb_spec k 0); try lia.
  - unfold bind at 2, gets. by cbn [stdin advance set_stdin].
Qed.

Lemma select_eof (actions : list PlayerAction) (w : World) :
  stdin w = [] →
  Player.select actions w = Raise EOFError (says [Prompt "> "] w).
Proof.
  intros Hin. unfold Player.select, bind at 1, gets at 1.
  rewrite Hin. cbn [length while_not truthy]. unfold bind.
  by rewrite (choose_eof actions w Hin).
Qed.



Lemma advance_advance (r1 r2 : list string) (o1 o2 : list Output) (w : World) :
  advance r2 o2 (advance r1 o1 w) = advance r2 (o1 ++ o2) w.
Proof. unfold advance, says, set_stdin, set_stdout. simpl. by rewrite app_assoc. Qed.

Lemma says_advance_after (rest : list string) (o1 o2 : list Output) (w : World) :
  says o2 (advance rest o1 w) = advance rest (o1 ++ o2) w.
Proof. unfold advance, says, set_stdin, set_stdout. simpl. by rewrite app_assoc. Qed.

Lemma advance_says (rest : list string) (o1 o2 : list Output) (w : World) :
  advance rest o2 (says o1 w) = advance rest (o1 ++ o2) w.
Proof. unfold advance, says, set_stdin, set_stdout. simpl. by rewrite app_assoc. Qed.

(** The loop skips every line it cannot accept, complaining once for each,
    and stops at the first line it can accept. *)
Lemma select_after_rejections (actions : list PlayerAction) (bad : list string)
    (s : string) (rest : list string) (k : Z) (w : World) :
  stdin w = bad ++ s :: rest →
  Forall (λ b, choice_of (len actions) b = None) bad →
  choice_of (len actions) s = Some k →
  Player.select actions w
  = Ok (Some k) (advance rest (rejections (len actions) bad) w).
Proof.
  revert w. induction bad as [|b bad IH]; intros w Hin Hbad Hk.
  - rewrite (select_step actions w s rest Hin), Hk. done.
  - apply Forall_cons in Hbad as [Hb Hbad].
    rewrite (select_step actions w b (bad ++ s :: rest) Hin), Hb.
    rewrite IH; [|done..]. by rewrite advance_advance.
Qed.

(** Whatever the lines are, the loop ends, and in one of two ways: with a
    choice in range, or with [EOFError] once no line is left. *)
Lemma select_total (actions : list PlayerAction) (w : World) :
  (∃ bad s rest k,
      stdin w = bad ++ s :: rest ∧
      Forall (λ b, choice_of (len actions) b = None) bad ∧
      choice_of (len actions) s = Some k ∧
      Player.select actions w
      = Ok (Some k) (advance rest (rejections (len actions) bad) w)) ∨
  (Forall (λ b, choice_of (len actions) b = None) (stdin w) ∧
   Player.select actions w
   = Raise EOFError (advance [] (rejections (len actions) (stdin w)) w)).
Proof.
  remember (stdin w) as lines eqn:Hin. symmetry in Hin.
  revert w Hin. induction lines as [|b lines IH]; intros w Hin.
  - right. split; [done|]. rewrite (select_eof actions w Hin).
    unfold advance, says, set_stdin, set_stdout. simpl. f_equal.
    destruct w. simpl in *. by subst.
  - destruct (choice_of (len actions) b) as [k|] eqn:Hb.
    + left. exists [], b, lines, k. split_and!; [done..|].
      by apply (select_after_rejections actions [] b lines k w).
    + rewrite (select_step actions w b lines Hin), Hb.
      destruct (IH (advance lines [Prompt "> "; complaint (len actions)] w) eq_refl)
        as [(bad & s & rest & k & Hl & Hbad & Hk & Hrun)|[Hall Hrun]].
      * left. exists (b :: bad), s, rest, k. cbn [stdin advance set_stdin] in Hl.
        split_and!; [by rewrite Hl|by constructor|done|].
        by rewrite Hrun, advance_advance.
      * right. split; [by constructor|].
        rewrite Hrun, advance_advance. done.
Qed.

(** *** One turn of [prompt] *)

Lemma writes_print_location (w : World) (self loc : cref)
    (its : list iref) (exs : list eref) :
  stands_in w self loc its exs → writes (Player.print_location self) w tt.
Proof.
  intros (P & L & room & er & HP & HPx & HL & HLx & Hits & Hexs).
  unfold Player.print_location.
  wstep ltac:(by eapply writes_get_location).
  wstep ltac:(apply writes_ret).
  wstep ltac:(by eapply (writes_get containers c_name)).
  wstep ltac:(apply writes_print).
  wstep ltac:(by eapply (writes_get containers c_description)).
  apply writes_print.
Qed.

(** The part of a turn before the selection: it only writes, and yields the
    action list. *)
Lemma turn_presents {B} (w : World) (self loc : cref) (its : list iref)
    (exs : list eref) (k : list PlayerAction → M B) :
  closed w → stands_in w self loc its exs →
  ∃ out,
    (print (string_repeat "=" 30);;
     Player.print_location self;;
     print "";;
     actions <- Player.print_and_get_actions self;;
     print "";;
     print "What would you like to do?";;
     k actions) w
    = k (canonical its exs) (says out w).
Proof.
  intros Hcl Hst.
  assert (writes (print (string_repeat "=" 30);;
                  Player.print_location self;;
                  print "";;
                  actions <- Player.print_and_get_actions self;;
                  print "";;
                  print "What would you like to do?";;
                  ret actions) w (canonical its exs)) as [out Hw].
  { wstep ltac:(apply writes_print).
    wstep ltac:(by eapply writes_print_location).
    wstep ltac:(apply writes_print).
    wstep ltac:(by eapply print_and_get_actions_run).
    do 2 wstep ltac:(apply writes_print).
    apply writes_ret. }
  exists out. revert Hw. unfold bind, ret.
  repeat match goal with
         | |- context [match ?m w with _ => _ end] => destruct (m w); [|done]
         | |- context [match ?m ?w' with _ => _ end] => destruct (m w'); [|done]
         end.
  by intros [= -> ->].
Qed.

Lemma py_index_run {A} (l : list A) (k : Z) (a : A) (w : World) :
  (0 ≤ k)%Z → l !! Z.to_nat k = Some a → py_index l k w = Ok a w.
Proof.
  intros Hk Hl. unfold py_index.
  destruct (Z.ltb_spec k 0); [lia|]. 
  destruct (Z.ltb_spec k 0); [lia|]. by rewrite Hl.
Qed.

Lemma turn_run (extern : nat → M unit) (w : World) (self loc : cref)
    (its : list iref) (exs : list eref) (bad : list string) (s : string)
    (rest : list string) (k : Z) (a : PlayerAction) :
  closed w → stands_in w self loc its exs →
  stdin w = bad ++ s :: rest →
  Forall (λ b, choice_of (len (canonical its exs)) b = None) bad →
  choice_of (len (canonical its exs)) s = Some k →
  canonical its exs !! Z.to_nat (k - 1) = Some a →
  ∃ out, Player.turn extern self w = Player.perform extern self a (advance rest out w).
Proof.
  intros Hcl Hst Hin Hbad Hk Ha. unfold Player.turn.
  destruct (turn_presents w self loc its exs
              (λ actions, action <- Player.select actions;;
                          k <- Player.minus action 1;;
                          a <- py_index actions k;;
                          Player.perform extern self a) Hcl Hst) as [out ->].
  exists (out ++ rejections (len (canonical its exs)) bad).
  unfold bind at 1.
  rewrite (select_after_rejections _ bad s rest k) by done.
  unfold bind at 1, Player.minus, ret at 1. unfold bind at 1.
  apply choice_of_range in Hk as [_ Hr].
  rewrite (py_index_run _ _ a) by (done || lia).
  by rewrite advance_says.
Qed.

Lemma choice_in_list {A} (l : list A) (k : Z) :
  (1 ≤ k ≤ len l)%Z → ∃ a, l !! Z.to_nat (k - 1) = Some a.
Proof.
  intros Hk. apply lookup_lt_is_Some_2. unfold len in Hk. lia.
Qed.

(** *** The selection loop of the inventory *)

Lemma choose_item_run (w : World) (self : cref) (P : Container) (l : list iref)
    (s : string) (rest : list string) :
  containers w !! self = Some P →
  item_lists w !! c_items P = Some l →
  stdin w = s :: rest →
  Player.choose_item self w =
    match choice_of (len l + 1) s with
    | Some k => Ok (Some k) (advance rest [Prompt "> "] w)
    | None => Ok None (advance rest [Prompt "> "; inventory_complaint (len l)] w)
    end.
Proof.
  intros HP Hl Hin.
  unfold Player.choose_item, try_except, bind, input, bind, modify, gets, int, choice_of,
    print, modify, ret, raise.
  cbn [stdin set_stdout]. rewrite Hin. cbv beta iota.
  assert (∀ a b : Output, (stdout w ++ [a]) ++ [b] = stdout w ++ [a; b]) as Hout.
  { intros a b. by rewrite <- app_assoc. }
  assert (∀ w', containers w' = containers w → item_lists w' = item_lists w →
                items_of self w' = Ok l w') as Hits.
  { intros w' Hc Hi. apply items_of_run with P; congruence. }
  destruct (py_int s) as [k|].
  - destruct (k <? 1)%Z; simpl.
    + rewrite Hits by done.
      unfold advance, says, set_stdin, set_stdout, inventory_complaint. simpl.
      by rewrite Hout.
    + rewrite Hits by done. destruct (k >? len l + 1)%Z; [|done].
      rewrite decide_True by done. rewrite Hits by done.
      unfold advance, says, set_stdin, set_stdout, inventory_complaint. simpl.
      by rewrite Hout.
  - rewrite decide_True by done. rewrite Hits by done.
    unfold advance, says, set_stdin, set_stdout, inventory_complaint. simpl.
    by rewrite Hout.
Qed.

Lemma select_item_step (w : World) (self : cref) (P : Container) (l : list iref)
    (s : string) (rest : list string) :
  containers w !! self = Some P →
  item_lists w !! c_items P = Some l →
  stdin w = s :: rest →
  Player.select_item self w =
    match choice_of (len l + 1) s with
    | Some k => Ok (Some k) (advance rest [Prompt "> "] w)
    | None => Player.select_item self
                (advance rest [Prompt "> "; inventory_complaint (len l)] w)
    end.
Proof.
  intros HP Hl Hin. unfold Player.select_item, bind at 1, gets at 1.
  rewrite Hin. cbn [length while_not truthy]. unfold bind at 1.
  rewrite (choose_item_run w self P l s rest) by done.
  destruct (choice_of (len l + 1) s) as [k|] eqn:Hk.
  - apply choice_of_range in Hk as [_ Hr].
    destruct (length rest); simpl; by destruct (Z.eqb_spec k 0); try lia.
  - unfold bind at 2, gets. by cbn [stdin advance set_stdin].
Qed.

Lemma select_item_after_rejections (self : cref) (P : Container) (l : list iref)
    (bad : list string) (s : string) (rest : list string) (k : Z) (w : World) :
  containers w !! self = Some P →
  item_lists w !! c_items P = Some l →
  stdin w = bad ++ s :: rest →
  Forall (λ b, choice_of (len l + 1) b = None) bad →
  choice_of (len l + 1) s = Some k →
  ∃ out, Player.select_item self w = Ok (Some k) (advance rest out w).
Proof.
  revert w. induction bad as [|b bad IH]; intros w HP Hl Hin Hbad Hk.
  - rewrite (select_item_step w self P l s rest) by done. rewrite Hk. by eexists.
  - apply Forall_cons in Hbad as [Hb Hbad].
    rewrite (select_item_step w self P l b (bad ++ s :: rest)) by done. rewrite Hb.
    destruct (IH (advance (bad ++ s :: rest) [Prompt "> "; inventory_complaint (len l)] w))
      as [out Hrun]; [done..|].
    rewrite Hrun, advance_advance. by eexists.
Qed.

Lemma select_item_total (w : World) (self : cref) (P : Container) (l : list iref) :
  containers w !! self = Some P →
  item_lists w !! c_items P = Some l →
  (∃ bad s rest k out,
      stdin w = bad ++ s :: rest ∧
      Forall (λ b, choice_of (len l + 1) b = None) bad ∧
      choice_of (len l + 1) s = Some k ∧
      Player.select_item self w = Ok (Some k) (advance rest out w)) ∨
  (Forall (λ b, choice_of (len l + 1) b = None) (stdin w) ∧
   ∃ out, Player.select_item self w = Raise EOFError (advance [] out w)).
Proof.
  remember (stdin w) as lines eqn:Hin. symmetry in Hin.
  revert w Hin. induction lines as [|b lines IH]; intros w Hin HP Hl.
  - right. split; [done|]. exists [Prompt "> "].
    unfold Player.select_item, bind at 1, gets at 1.
    rewrite Hin. cbn [length while_not truthy].
    unfold bind, Player.choose_item, try_except, bind, input, bind, modify, gets.
    cbn [stdin set_stdout]. rewrite Hin. simpl.
    unfold advance, says, set_stdin, set_stdout. simpl. f_equal.
    destruct w. simpl in *. by subst.
  - destruct (choice_of (len l + 1) b) as [k|] eqn:Hb.
    + left. exists [], b, lines, k.
      destruct (select_item_after_rejections self P l [] b lines k w)
        as [out Hrun]; [done..|].
      by exists out.
    + rewrite (select_item_step w self P l b lines) by done. rewrite Hb.
      destruct (IH (advance lines [Prompt "> "; inventory_complaint (len l)] w))
        as [(bad & s & rest & k & out & Hlines & Hbad & Hk & Hrun)
           |[Hall [out Hrun]]]; [done..| |].
      * left. exists (b :: bad), s, rest, k. cbn [stdin advance set_stdin] in Hlines.
        eexists. split_and!; [by rewrite Hlines|by constructor|done|].
        by rewrite Hrun, advance_advance.
      * right. split; [by constructor|].
        eexists. by rewrite Hrun, advance_advance.
Qed.

(** *** Taking an item *)

Lemma occurrences_elem (x : iref) (l : list iref) :
  occurrences x l = 1 → x ∈ l.
Proof.
  intros H. destruct (decide (x ∈ l)) as [|Hn]; [done|].
  assert (occurrences x l = 0); [|lia].
  clear H. induction l as [|y l IH]; [done|].
  apply not_elem_of_cons in Hn as [Hne Hn].
  rewrite occurrences_cons, decide_False by congruence. by apply IH.
Qed.

Lemma bind_ok {A B} (m : M A) (k : A → M B) (w : World) (a : A) (w' : World) :
  m w = Ok a w' → bind m k w = k a w'.
Proof. intros H. unfold bind. by rewrite H. Qed.

Lemma get_run {A B} (store : World → list A) (f : A → B) (r : nat) (a : A) (w : World) :
  store w !! r = Some a → (o <- load store r;; ret (f o)) w = Ok (f a) w.
Proof. intros H. unfold bind, load, ret. by rewrite H. Qed.

Lemma take_run (extern : nat → M unit) (w : World) (self loc : cref)
    (P L : Container) (I : Item) (U : ItemUse) (ll lp : list iref) (item : iref) :
  containers w !! self = Some P → c_extra P = IsPlayer (Some loc) →
  containers w !! loc = Some L →
  item_lists w !! c_items L = Some ll →
  item_lists w !! c_items P = Some lp →
  c_items P ≠ c_items L →
  items w !! item = Some I → uses w !! i_use I = Some U →
  ∃ w', Player.perform extern self (Take item) w = Ok tt w' ∧
        holds w' loc (without_first item ll) ∧
        holds w' self (lp ++ [item]) ∧
        items w' = items w ∧ containers w' = containers w ∧
        exits w' = exits w ∧ exit_lists w' = exit_lists w ∧
        stdin w' = stdin w ∧
        owner_in w' (i_use I) = Some (Some self) ∧
        (∀ u, u ≠ i_use I → uses w' !! u = uses w !! u) ∧
        (∀ r, r ≠ c_items L → r ≠ c_items P → item_lists w' !! r = item_lists w !! r) ∧
        item_lists w'
        = <[c_items P := lp ++ [item]]>
            (<[c_items L := without_first item ll]> (item_lists w)) ∧
        ∃ U', uses w' = <[i_use I := U']> (uses w).
Proof.
  intros HP HPx HL Hll Hlp Hne HI HU.
  unfold Player.perform.
  set (w1 := says [Line ("You take the " +:+ i_name I +:+ ".")] w).
  destruct (remove_item_without_first w1 loc L ll item HL Hll)
    as (w2 & Hrm & _ & Hl2 & Hel2 & Hc2 & He2 & Hu2 & Hi2 & Hin2 & _).
  assert (item_lists w2 !! c_items P = Some lp) as Hlp2.
  { rewrite Hl2. by rewrite list_lookup_insert_ne. }
  assert (containers w2 !! self = Some P) as HP2 by by rewrite Hc2.
  set (w3 := set_item_lists (<[c_items P := lp ++ [item]]>) w2).
  set (U' := mkItemUse (u_name U) (u_description U) (u__item U)
               (u__destroy_on_execute U) (Some self) (u_execute U)).
  exists (set_uses (<[i_use I := U']>) w3).
  split.
  { rewrite (bind_ok _ _ w (i_name I) w) by by apply (get_run items i_name).
    rewrite (bind_ok _ _ w tt w1) by done.
    rewrite (bind_ok _ _ w1 (Some loc) w1).
    2:{ unfold Player.get_location, bind, load. cbn [containers w1 says set_stdout].
        by rewrite HP, HPx. }
    rewrite (bind_ok _ _ w1 loc w1) by done.
    rewrite (bind_ok _ _ w1 tt w2) by done.
    rewrite (bind_ok _ _ w2 tt w3) by by apply (add_item_run w2 self P lp).
    rewrite (bind_ok _ _ w3 (i_use I) w3).
    2:{ apply (get_run items i_use). cbn. by rewrite Hi2. }
    unfold ItemUse.set_virtual_location, bind, load.
    cbn [uses w3 set_item_lists]. rewrite Hu2. cbn [uses w1 says set_stdout].
    by rewrite HU. }
  assert (c_items L < length (item_lists w)) as HLlt by by eapply lookup_lt_Some.
  assert (c_items P < length (item_lists w)) as HPlt by by eapply lookup_lt_Some.
  split.
  { exists L. split; [by rewrite <- HL; cbn; rewrite Hc2|].
    cbn. rewrite Hl2. rewrite list_lookup_insert_ne by done.
    apply list_lookup_insert_eq. done. }
  split.
  { exists P. split; [by rewrite <- HP; cbn; rewrite Hc2|].
    cbn. apply list_lookup_insert_eq. rewrite Hl2, length_insert. done. }
  split; [by cbn; rewrite Hi2|]. split; [by cbn; rewrite Hc2|].
  split; [by cbn; rewrite He2|]. split; [by cbn; rewrite Hel2|].
  split; [by cbn; rewrite Hin2|].
  split.
  { unfold owner_in. cbn. rewrite Hu2. cbn.
    rewrite list_lookup_insert_eq by by eapply lookup_lt_Some. done. }
  split.
  { intros u Hu. cbn. rewrite Hu2. cbn. by rewrite list_lookup_insert_ne. }
  split.
  { intros r HrL HrP. cbn. rewrite Hl2. cbn.
    by rewrite !list_lookup_insert_ne. }
  split; [by cbn; rewrite Hl2|].
  exists U'. cbn. by rewrite Hu2.
Qed.

(** C1, as the code has it.  When the player's item sequence and the
    location's are different list objects and the item occurs exactly once
    in the location's item sequence, a turn in which the [Take] action of
    that item is selected returns normally and completes the move protocol:
    the item is no longer in the location's item sequence, it is in the
    player's, and the owner reference of its use is the player. *)
Theorem take_completes_move (extern : nat → M unit) (w : World) (self loc : cref)
    (its : list iref) (exs : list eref) (lp : list iref) (bad : list string)
    (s : string) (rest : list string) (k : Z) (item : iref) :
  closed w → stands_in w self loc its exs → holds w self lp →
  item_list_of w self ≠ item_list_of w loc →
  occurrences item its = 1 →
  stdin w = bad ++ s :: rest →
  Forall (λ b, choice_of (len (canonical its exs)) b = None) bad →
  choice_of (len (canonical its exs)) s = Some k →
  canonical its exs !! Z.to_nat (k - 1) = Some (Take item) →
  ∃ w', Player.turn extern self w = Ok tt w' ∧ move_completed w' item loc self.
Proof.
  intros Hcl Hst (P' & HP' & Hlp) Hdiff Hocc Hin Hbad Hk Ha.
  destruct (turn_run extern w self loc its exs bad s rest k (Take item))
    as [out Hturn]; [done..|].
  destruct Hst as (P & L & room & er & HP & HPx & HL & HLx & Hits & Hexs).
  assert (P' = P) as -> by congruence.
  assert (c_items P ≠ c_items L) as Hne.
  { intros Heq. apply Hdiff. unfold item_list_of. rewrite HP, HL. simpl. by rewrite Heq. }
  destruct (closed_item w _ its item Hcl Hits (occurrences_elem _ _ Hocc))
    as (I & U & HI & HU).
  destruct (take_run extern (advance rest out w) self loc P L I U its lp item)
    as (w' & Hrun & Hloc & Hself & Hitems & _ & _ & _ & _ & Hown & _); [done..|].
  exists w'. split; [by rewrite Hturn|].
  exists (without_first item its), (lp ++ [item]), I.
  split_and!; [done| |done| |by rewrite Hitems|done].
  - apply without_first_absent. lia.
  - apply elem_of_app. right. by apply list_elem_of_singleton.
Qed.

Lemma take_completes_move_witness :
  ∃ w', Player.turn quiet 4 (start ["3"]) = Ok tt w' ∧ move_completed w' 0 0 4.
Proof.
  apply (take_completes_move quiet (start ["3"]) 4 0 [0] [0; 2] [] [] "3" [] 3%Z 0).
  - vm_compute. repeat constructor.
  - exists (mkContainer "Ann" "You are you." 5 (IsPlayer (Some 0))),
      (mkContainer "Lounge" "lounge" 1 (IsLocation true 0)), true, 0.
    vm_compute. repeat split.
  - exists (mkContainer "Ann" "You are you." 5 (IsPlayer (Some 0))).
    vm_compute. repeat split.
  - vm_compute. discriminate.
  - reflexivity.
  - reflexivity.
  - constructor.
  - reflexivity.
  - reflexivity.
Defined.

(** C1 as stated fails.  In a room that lists the same cherry twice, taking
    the cherry leaves the cherry in the room's item sequence; and so does
    taking it in a room whose item sequence is the very list object the
    player has. *)
Lemma take_leaves_item_in_location :
  (stands_in (twice ["3"]) 1 0 [0; 0] [] ∧ 0 ∈ [0; 0] ∧
   ∃ w', Player.turn quiet 1 (twice ["3"]) = Ok tt w' ∧
         ¬ move_completed w' 0 0 1) ∧
  (stands_in (shared ["3"]) 1 0 [0] [] ∧ 0 ∈ [0] ∧
   ∃ w', Player.turn quiet 1 (shared ["3"]) = Ok tt w' ∧
         ¬ move_completed w' 0 0 1).
Proof.
  split; split_and!.
  - exists (mkContainer "Ann" "" 2 (IsPlayer (Some 0))),
      (mkContainer "Bowl" "" 1 (IsLocation true 0)), true, 0.
    vm_compute. repeat split.
  - compute_done.
  - eexists. split; [vm_compute; reflexivity|].
    intros (ll & lp & I & (C & HC & Hll) & Habs & _).
    vm_compute in HC. simplify_eq. vm_compute in Hll. simplify_eq.
    apply Habs. compute_done.
  - exists (mkContainer "Ann" "" 1 (IsPlayer (Some 0))),
      (mkContainer "Bowl" "" 1 (IsLocation true 0)), true, 0.
    vm_compute. repeat split.
  - compute_done.
  - eexists. split; [vm_compute; reflexivity|].
    intros (ll & lp & I & (C & HC & Hll) & Habs & _).
    vm_compute in HC. simplify_eq. vm_compute in Hll. simplify_eq.
    apply Habs. compute_done.
Qed.

(** *** What a computation leaves as it was *)

#[global] Instance same_at_preorder {X} (f : World → X) : PreOrder (same_at f).
Proof.
  split; [intros w; reflexivity|].
  intros w1 w2 w3 H1 H2. unfold same_at in *. congruence.
Qed.

#[global] Instance carries_preorder (J : World → Prop) : PreOrder (carries J).
Proof.
  split; [intros w H; exact H|].
  intros w1 w2 w3 H1 H2 H. by apply H2, H1.
Qed.

Lemma same_at_console_free {X} (f : World → X) :
  off_console f → console_free (same_at f).
Proof. intros [Ho Hi]. split; intros g w; [apply Ho|apply Hi]. Qed.

Lemma same_at_removal_free {X} (f : World → X) :
  (∀ g w, f (set_item_lists g w) = f w) → removal_free (same_at f).
Proof. intros Hf w r l x l' _ _. apply Hf. Qed.

Lemma same_at_append_free {X} (f : World → X) :
  (∀ g w, f (set_item_lists g w) = f w) → append_free (same_at f).
Proof. intros Hf w r l x _. apply Hf. Qed.

Section Keeps.
Context (R : relation World) `{!PreOrder R}.

Lemma keeps_ret {A} (a : A) : keeps R (ret a).
Proof. intros w. simpl. reflexivity. Qed.

Lemma keeps_raise {A} (e : Exn) : keeps R (raise (A := A) e).
Proof. intros w. simpl. reflexivity. Qed.

Lemma keeps_gets {A} (g : World → A) : keeps R (gets g).
Proof. intros w. simpl. reflexivity. Qed.

Lemma keeps_load {A} (store : World → list A) (r : nat) : keeps R (load store r).
Proof. intros w. unfold load. destruct (store w !! r); simpl; reflexivity. Qed.

Lemma keeps_modify (g : World → World) :
  (∀ w, R w (g w)) → keeps R (modify g).
Proof. intros H w. apply H. Qed.

Lemma keeps_bind {A B} (m : M A) (k : A → M B) :
  keeps R m → (∀ a, keeps R (k a)) → keeps R (bind m k).
Proof.
  intros Hm Hk w. unfold bind. specialize (Hm w).
  destruct (m w) as [a w'|e w']; simpl in *; [|done].
  etrans; [exact Hm|apply Hk].
Qed.

Lemma keeps_try_except {A} (body : M A) (exn : Exn) (handler : M A) :
  keeps R body → keeps R handler → keeps R (try_except body exn handler).
Proof.
  intros Hb Hh w. unfold try_except. specialize (Hb w).
  destruct (body w) as [a w'|e w']; simpl in *; [done|].
  destruct (decide (e = exn)); [|done]. etrans; [exact Hb|apply Hh].
Qed.

Lemma keeps_for_in {A S} (l : list A) (body : A → S → M S) (s : S) :
  (∀ x s, keeps R (body x s)) → keeps R (for_in l body s).
Proof.
  intros Hb. revert s. induction l as [|x l IH]; intros s; simpl.
  - apply keeps_ret.
  - apply keeps_bind; [apply Hb|]. intros s'. apply IH.
Qed.

Lemma keeps_while_not (fuel : nat) (v : option Z) (body : M (option Z)) :
  keeps R body → keeps R (while_not fuel v body).
Proof.
  intros Hb. revert v. induction fuel as [|fuel IH]; intros v; simpl.
  - destruct (truthy v); [apply keeps_ret|apply keeps_raise].
  - destruct (truthy v); [apply keeps_ret|].
    apply keeps_bind; [done|]. intros v'. apply IH.
Qed.

Lemma keeps_py_index {A} (l : list A) (k : Z) : keeps R (py_index l k).
Proof.
  unfold py_index. destruct (_ <? 0)%Z; [apply keeps_raise|].
  destruct (l !! _); [apply keeps_ret|apply keeps_raise].
Qed.

Lemma keeps_get {A B} (store : World → list A) (g : A → B) (r : nat) :
  keeps R (o <- load store r;; ret (g o)).
Proof.
  apply keeps_bind; [apply keeps_load|]. intros o. apply keeps_ret.
Qed.

Lemma keeps_items_of (c : cref) : keeps R (items_of c).
Proof.
  apply keeps_bind; [apply keeps_get|]. intros r. apply keeps_load.
Qed.

Lemma keeps_exits_of (c : cref) : keeps R (exits_of c).
Proof.
  apply keeps_bind; [|intros r; apply keeps_load].
  apply keeps_bind; [apply keeps_load|]. intros C.
  destruct (c_extra C); [apply keeps_raise|apply keeps_ret|apply keeps_raise].
Qed.

Lemma keeps_minus (v : option Z) (k : Z) : keeps R (Player.minus v k).
Proof. destruct v; [apply keeps_ret|apply keeps_raise]. Qed.

Lemma keeps_not_none {A} (v : option A) : keeps R (not_none v).
Proof. destruct v; [apply keeps_ret|apply keeps_raise]. Qed.

Lemma keeps_get_location (self : cref) : keeps R (Player.get_location self).
Proof.
  apply keeps_bind; [apply keeps_load|]. intros C.
  destruct (c_extra C); [apply keeps_raise..|apply keeps_ret].
Qed.

Lemma keeps_set_location (self location : cref) :
  (∀ g w, R w (set_containers g w)) →
  keeps R (Player.set_location self location).
Proof.
  intros Hf. apply keeps_bind; [apply keeps_load|]. intros C.
  destruct (c_extra C); [apply keeps_raise..|].
  apply keeps_modify. intros w. apply Hf.
Qed.

Lemma keeps_int (s : string) : keeps R (int s).
Proof. unfold int. destruct (py_int s); [apply keeps_ret|apply keeps_raise]. Qed.

Hypothesis R_console : console_free R.

Lemma keeps_print (s : string) : keeps R (print s).
Proof. apply keeps_modify. intros w. apply R_console. Qed.

Lemma keeps_input (s : string) : keeps R (input s).
Proof.
  apply keeps_bind; [apply keeps_modify; intros w; apply R_console|].
  intros _. apply keeps_bind; [apply keeps_gets|]. intros [|l rest].
  - apply keeps_raise.
  - apply keeps_bind; [|intros _; apply keeps_ret].
    apply keeps_modify. intros w. apply R_console.
Qed.

Lemma keeps_choose_item (self : cref) : keeps R (Player.choose_item self).
Proof.
  apply keeps_try_except.
  - apply keeps_bind; [apply keeps_input|]. intros s.
    apply keeps_bind; [apply keeps_int|]. intros k.
    destruct (k <? 1)%Z; [apply keeps_raise|].
    apply keeps_bind; [apply keeps_items_of|]. intros l.
    destruct (_ >? _)%Z; [apply keeps_raise|apply keeps_ret].
  - apply keeps_bind; [apply keeps_items_of|]. intros l.
    apply keeps_bind; [apply keeps_print|]. intros _. apply keeps_ret.
Qed.

Lemma keeps_select_item (self : cref) : keeps R (Player.select_item self).
Proof.
  apply keeps_bind; [apply keeps_gets|]. intros fuel.
  apply keeps_while_not, keeps_choose_item.
Qed.

Lemma keeps_select (actions : list PlayerAction) : keeps R (Player.select actions).
Proof.
  apply keeps_bind; [apply keeps_gets|]. intros fuel.
  apply keeps_while_not, keeps_try_except.
  - apply keeps_bind; [apply keeps_input|]. intros s.
    apply keeps_bind; [apply keeps_int|]. intros k.
    destruct (_ || _); [apply keeps_raise|apply keeps_ret].
  - apply keeps_bind; [apply keeps_print|]. intros _. apply keeps_ret.
Qed.

Lemma keeps_print_location (self : cref) : keeps R (Player.print_location self).
Proof.
  apply keeps_bind; [apply keeps_get_location|]. intros l.
  apply keeps_bind; [apply keeps_not_none|].
  intros c. apply keeps_bind; [apply keeps_get|]. intros n.
  apply keeps_bind; [apply keeps_print|]. intros _.
  apply keeps_bind; [apply keeps_get|]. intros d.
  apply keeps_print.
Qed.

Lemma keeps_print_and_get_actions (self : cref) :
  keeps R (Player.print_and_get_actions self).
Proof.
  unfold Player.print_and_get_actions.
  apply keeps_bind; [apply keeps_get_location|]. intros l.
  do 5 (apply keeps_bind; [apply keeps_print|]; intros _).
  apply keeps_bind; [apply keeps_not_none|].
  intros c. apply keeps_bind; [apply keeps_items_of|]. intros its.
  apply keeps_bind.
  { apply keeps_for_in. intros item [i a].
    apply keeps_bind; [apply keeps_get|]. intros n.
    apply keeps_bind; [apply keeps_print|]. intros _.
    apply keeps_bind; [apply keeps_get|]. intros d.
    apply keeps_bind; [apply keeps_print|]. intros _.
    apply keeps_ret. }
  intros ia. apply keeps_bind.
  { destruct (_ =? _)%Z; [apply keeps_print|apply keeps_ret]. }
  intros _. do 2 (apply keeps_bind; [apply keeps_print|]; intros _).
  apply keeps_bind; [apply keeps_exits_of|]. intros exs.
  apply keeps_bind; [|intros ?; apply keeps_ret].
  apply keeps_for_in. intros ex [i a].
  apply keeps_bind; [apply keeps_get|]. intros to.
  apply keeps_bind; [apply keeps_get|]. intros n.
  apply keeps_bind; [apply keeps_print|]. intros _.
  apply keeps_bind; [apply keeps_get|]. intros d.
  apply keeps_bind; [apply keeps_print|]. intros _.
  apply keeps_ret.
Qed.

Lemma keeps_add_item (c : cref) (item : iref) :
  append_free R → keeps R (Container.add_item c item).
Proof.
  intros Happ w. unfold Container.add_item, bind, load, modify.
  destruct (containers w !! c) as [C|]; simpl; [|reflexivity].
  destruct (item_lists w !! c_items C) as [l|] eqn:Hl; simpl; [|reflexivity].
  by apply Happ.
Qed.

Hypothesis R_removal : removal_free R.

Lemma keeps_remove_item (c : cref) (item : option iref) :
  keeps R (Container.remove_item c item).
Proof.
  intros w. unfold Container.remove_item, try_except, bind, load, modify, raise, ret.
  destruct (containers w !! c) as [C|]; simpl; [|reflexivity].
  destruct (item_lists w !! c_items C) as [l|] eqn:Hl; simpl; [|reflexivity].
  destruct (list_remove item l) as [l'|] eqn:Hrm; simpl; [|reflexivity].
  by eapply R_removal.
Qed.

Lemma keeps_destroy (u : uref) : keeps R (ItemUse.destroy u).
Proof.
  apply keeps_bind; [apply keeps_get|]. intros [c|]; [|apply keeps_raise].
  apply keeps_bind; [apply keeps_load|]. intros U.
  apply keeps_remove_item.
Qed.

Variable extern : nat → M unit.
Hypothesis R_extern : ∀ n, keeps R (extern n).

Lemma keeps_execute (u : uref) : keeps R (ItemUse.execute extern u).
Proof.
  apply keeps_bind; [apply keeps_load|]. intros U.
  apply keeps_bind.
  { destruct (u__destroy_on_execute U); [apply keeps_destroy|apply keeps_ret]. }
  intros _. apply keeps_bind; [apply keeps_load|]. intros U'.
  destruct (u_execute U'); [apply keeps_print|apply R_extern].
Qed.

Lemma keeps_enter_inventory (self : cref) :
  keeps R (Player.enter_inventory extern self).
Proof.
  unfold Player.enter_inventory.
  do 2 (apply keeps_bind; [apply keeps_print|]; intros _).
  apply keeps_bind; [apply keeps_items_of|]. intros l.
  apply keeps_bind.
  { apply keeps_for_in. intros [i item] _.
    apply keeps_bind; [apply keeps_get|]. intros n.
    apply keeps_bind; [apply keeps_print|]. intros _.
    apply keeps_bind; [apply keeps_get|]. intros d.
    apply keeps_bind; [apply keeps_print|]. intros _.
    apply keeps_bind; [apply keeps_get|]. intros u.
    apply keeps_bind; [apply keeps_get|]. intros ud.
    apply keeps_print. }
  intros _. apply keeps_bind; [apply keeps_print|]. intros _.
  apply keeps_bind; [apply keeps_select_item|]. intros choice.
  destruct (decide (choice = Some 1%Z)); [apply keeps_ret|].
  apply keeps_bind; [apply keeps_print|]. intros _.
  apply keeps_bind; [apply keeps_minus|]. intros k.
  apply keeps_bind; [apply keeps_items_of|]. intros l1.
  apply keeps_bind; [apply keeps_py_index|]. intros item.
  apply keeps_bind; [apply keeps_get|]. intros _.
  apply keeps_bind; [apply keeps_minus|]. intros k'.
  apply keeps_bind; [apply keeps_items_of|]. intros l2.
  apply keeps_bind; [apply keeps_py_index|]. intros item'.
  apply keeps_bind; [apply keeps_get|]. intros use.
  apply keeps_execute.
Qed.
End Keeps.

(** *** The inventory *)

Lemma step_writes {A B} (m : M A) (k : A → M B) (w : World) (a : A)
    (P : World → Prop) (b : B) :
  writes m w a →
  (∀ o, ∃ w', k a (says o w) = Ok b w' ∧ P w') →
  ∃ w', bind m k w = Ok b w' ∧ P w'.
Proof.
  intros [o Hm] Hk. destruct (Hk o) as (w' & Hrun & HP).
  exists w'. split; [|done]. unfold bind. by rewrite Hm.
Qed.

Lemma elem_of_enumerate {A} (l : list A) (i : Z) (a : A) :
  (i, a) ∈ enumerate l → a ∈ l.
Proof.
  unfold enumerate. intros H. apply elem_of_lookup_imap in H as (n & b & Heq & Hl).
  simplify_eq. by eapply list_elem_of_lookup_2.
Qed.

Lemma enter_inventory_close (extern : nat → M unit) (w : World) (self : cref)
    (l : list iref) (bad : list string) (s : string) (rest : list string) :
  closed w → holds w self l →
  stdin w = bad ++ s :: rest →
  Forall (λ b, choice_of (len l + 1) b = None) bad →
  choice_of (len l + 1) s = Some 1%Z →
  ∃ w', Player.enter_inventory extern self w = Ok tt w' ∧
        ∃ out, w' = advance rest out w.
Proof.
  intros Hcl (P & HP & Hl) Hin Hbad Hs. unfold Player.enter_inventory.
  do 2 (eapply step_writes; [apply writes_print|intros ?]).
  eapply step_writes; [by eapply writes_items_of|intros ?].
  match goal with |- ∃ w', bind (for_in _ ?body _) _ ?w0 = _ ∧ _ =>
    destruct (writes_for_in (λ _ (_ : unit), True) body (enumerate l) w0) with (s := tt)
      as ([] & Hloop & _)
  end.
  { intros done [i item] [] out _ Hx. exists tt. split; [|done].
    apply elem_of_enumerate in Hx.
    destruct (closed_item w _ l item Hcl Hl Hx) as (I & U & HI & HU).
    wstep ltac:(by eapply (writes_get items i_name)).
    wstep ltac:(apply writes_print).
    wstep ltac:(by eapply (writes_get items i_description)).
    wstep ltac:(apply writes_print).
    wstep ltac:(by eapply (writes_get items i_use)).
    wstep ltac:(by eapply (writes_get uses u_description)).
    apply writes_print. }
  { done. }
  eapply step_writes; [exact Hloop|intros ?].
  eapply step_writes; [apply writes_print|intros ?].
  match goal with |- ∃ w', bind _ _ ?w0 = _ ∧ _ =>
    destruct (select_item_after_rejections self P l bad s rest 1%Z w0)
      as [out Hsel]; [done..|]
  end.
  eexists. split.
  { erewrite bind_ok by exact Hsel. by rewrite decide_True. }
  rewrite !says_says, advance_says. by eexists.
Qed.

Lemma step_then {A B} (m : M A) (k : A → M B) (w : World) (a : A)
    (Q : Res B → Prop) :
  writes m w a → (∀ o, Q (k a (says o w))) → Q (bind m k w).
Proof. intros [o Hm] Hk. unfold bind. rewrite Hm. apply Hk. Qed.

(** When the line accepted in the inventory menu stands for an entry after
    the first, the menu executes the use of the item at that place of the
    player's item sequence. *)
Lemma enter_inventory_use (extern : nat → M unit) (w : World) (self : cref)
    (l : list iref) (bad : list string) (s : string) (rest : list string)
    (k : Z) (item : iref) (I : Item) :
  closed w → holds w self l →
  stdin w = bad ++ s :: rest →
  Forall (λ b, choice_of (len l + 1) b = None) bad →
  choice_of (len l + 1) s = Some k → k ≠ 1%Z →
  l !! Z.to_nat (k - 2) = Some item → items w !! item = Some I →
  ∃ out, Player.enter_inventory extern self w
         = ItemUse.execute extern (i_use I) (advance rest out w).
Proof.
  intros Hcl (P & HP & Hl) Hin Hbad Hs Hk1 Hitem HI.
  set (Q := λ r : Res unit,
         ∃ out, r = ItemUse.execute extern (i_use I) (advance rest out w)).
  change (Q (Player.enter_inventory extern self w)).
  unfold Player.enter_inventory.
  do 2 (eapply step_then; [apply writes_print|intros ?]).
  eapply step_then; [by eapply writes_items_of|intros ?].
  match goal with |- Q (bind (for_in _ ?body _) _ ?w0) =>
    destruct (writes_for_in (λ _ (_ : unit), True) body (enumerate l) w0) with (s := tt)
      as ([] & Hloop & _)
  end.
  { intros done [i x] [] out _ Hx. exists tt. split; [|done].
    apply elem_of_enumerate in Hx.
    destruct (closed_item w _ l x Hcl Hl Hx) as (X & U & HX & HU).
    wstep ltac:(by eapply (writes_get items i_name)).
    wstep ltac:(apply writes_print).
    wstep ltac:(by eapply (writes_get items i_description)).
    wstep ltac:(apply writes_print).
    wstep ltac:(by eapply (writes_get items i_use)).
    wstep ltac:(by eapply (writes_get uses u_description)).
    apply writes_print. }
  { done. }
  eapply step_then; [exact Hloop|intros ?].
  eapply step_then; [apply writes_print|intros ?].
  match goal with |- Q (bind _ _ ?w0) =>
    destruct (select_item_after_rejections self P l bad s rest k w0)
      as [out Hsel]; [done..|]
  end.
  erewrite bind_ok by exact Hsel.
  rewrite decide_False by congruence.
  apply choice_of_range in Hs as [_ Hr].
  eapply step_then; [apply writes_print|intros ?].
  eapply step_then; [apply writes_ret|intros ?].
  eapply step_then; [by eapply writes_items_of|intros ?].
  erewrite bind_ok by (apply py_index_run; [lia|exact Hitem]).
  eapply step_then; [by eapply (writes_get items i_use)|intros ?].
  eapply step_then; [apply writes_ret|intros ?].
  eapply step_then; [by eapply writes_items_of|intros ?].
  erewrite bind_ok by (apply py_index_run; [lia|exact Hitem]).
  erewrite bind_ok by (by eapply (get_run items i_use)).
  subst Q. cbv beta. rewrite !says_says, advance_says.
  rewrite says_advance_after. by eexists.
Qed.

(** C6, as the code has it.  In the inventory menu of a player holding [n]
    items:
    - a line stands for a choice exactly when it parses as an integer in
      [1, n + 1];
    - the loop, reading a line, returns its choice when it has one;
      otherwise it writes a complaint and goes on as the loop started afresh
      on the lines that are left: it asks again, and raises nothing;
    - whatever the lines are, the loop ends either with a choice in range or,
      when no line can be accepted, with the [EOFError] of [input] once no
      line is left;
    - the choice 1 closes the menu, and a choice [k] after it executes the
      use of the item at place [k - 2] of the player's item sequence;
    - the complaint, however, names the bounds 0 and [n]: 0, which it
      names, is rejected, and [n + 1], which it excludes, is accepted. *)
Theorem inventory_complaint_names_0_to_n (extern : nat → M unit) (w : World)
    (self : cref) (P : Container) (l : list iref) :
  containers w !! self = Some P →
  item_lists w !! c_items P = Some l →
  (∀ s k, choice_of (len l + 1) s = Some k
          ↔ py_int s = Some k ∧ (1 ≤ k ≤ len l + 1)%Z) ∧
  (∀ s rest, stdin w = s :: rest →
     match choice_of (len l + 1) s with
     | Some k => Player.select_item self w = Ok (Some k) (advance rest [Prompt "> "] w)
     | None =>
         Player.select_item self w
         = Player.select_item self
             (advance rest
                [Prompt "> ";
                 Line ("Invalid choice. Please enter a number between 0 and "
                       +:+ str (len l) +:+ ".")] w)
     end) ∧
  ((∃ bad s rest k out,
       stdin w = bad ++ s :: rest ∧
       Forall (λ b, choice_of (len l + 1) b = None) bad ∧
       choice_of (len l + 1) s = Some k ∧
       Player.select_item self w = Ok (Some k) (advance rest out w)) ∨
   (Forall (λ b, choice_of (len l + 1) b = None) (stdin w) ∧
    ∃ out, Player.select_item self w = Raise EOFError (advance [] out w))) ∧
  (∀ bad s rest k,
     closed w → stdin w = bad ++ s :: rest →
     Forall (λ b, choice_of (len l + 1) b = None) bad →
     choice_of (len l + 1) s = Some k →
     (k = 1%Z →
      ∃ out, Player.enter_inventory extern self w = Ok tt (advance rest out w)) ∧
     (k ≠ 1%Z →
      ∃ item I out,
        l !! Z.to_nat (k - 2) = Some item ∧ items w !! item = Some I ∧
        Player.enter_inventory extern self w
        = ItemUse.execute extern (i_use I) (advance rest out w))) ∧
  choice_of (len l + 1) "0" = None ∧
  (∀ s, py_int s = Some (len l + 1)%Z → choice_of (len l + 1) s = Some (len l + 1)%Z).
Proof.
  intros HP Hl. split_and!.
  - intros s k. apply choice_of_range.
  - intros s rest Hin. rewrite (select_item_step w self P l s rest) by done.
    by destruct (choice_of (len l + 1) s).
  - by apply (select_item_total w self P l).
  - intros bad s rest k Hcl Hin Hbad Hk. split.
    + intros ->.
      destruct (enter_inventory_close extern w self l bad s rest)
        as (w' & Hrun & out & ->); [done|by exists P|done..|].
      by exists out.
    + intros Hk1. pose proof Hk as [_ Hr]%choice_of_range.
      assert (is_Some (l !! Z.to_nat (k - 2))) as [item Hitem].
      { apply lookup_lt_is_Some_2. unfold len in Hr. lia. }
      destruct (closed_item w _ l item Hcl Hl) as (I & U & HI & HU).
      { by eapply list_elem_of_lookup_2. }
      destruct (enter_inventory_use extern w self l bad s rest k item I)
        as [out Hrun]; [done|by exists P|done..|].
      by exists item, I, out.
  - unfold choice_of. change (py_int "0") with (Some 0%Z). reflexivity.
  - intros s Hs. apply choice_of_range. split; [done|]. unfold len. lia.
Qed.

Lemma inventory_complaint_names_0_to_n_witness :
  Player.select_item 4 (taken_then ["0"; "2"])
  = Player.select_item 4
      (advance ["2"]
         [Prompt "> "; Line "Invalid choice. Please enter a number between 0 and 1."]
         (taken_then ["0"; "2"])) ∧
  Player.select_item 4 (taken_then ["2"])
  = Ok (Some 2%Z) (advance [] [Prompt "> "] (taken_then ["2"])).
Proof.
  split.
  - destruct (inventory_complaint_names_0_to_n quiet (taken_then ["0"; "2"]) 4
                (mkContainer "Ann" "You are you." 5 (IsPlayer (Some 0))) [0]
                eq_refl eq_refl) as (_ & Hstep & _).
    exact (Hstep "0" ["2"] eq_refl).
  - destruct (inventory_complaint_names_0_to_n quiet (taken_then ["2"]) 4
                (mkContainer "Ann" "You are you." 5 (IsPlayer (Some 0))) [0]
                eq_refl eq_refl) as (_ & Hstep & _).
    exact (Hstep "2" [] eq_refl).
Defined.



Lemma quiet_preserves {X} (f : World → X) (n : nat) : preserves f (quiet n).
Proof. done. Defined.


(** *** Who sets the owner reference *)

Lemma bindings_off_console : off_console bindings.
Proof. by split. Qed.

Lemma after_bind {A B X} (f : World → X) (m : M A) (k : A → M B) (w : World)
    (Q : World → Prop) :
  preserves f m →
  (∀ w', f w' = f w → Q w') →
  (∀ a w', f w' = f w → Q (world_of (k a w'))) →
  Q (world_of (bind m k w)).
Proof.
  intros Hm Hraise Hk. unfold bind. specialize (Hm w).
  destruct (m w) as [a w'|e w']; simpl in *; [by apply Hk|by apply Hraise].
Qed.

(** The owner reference of the use [u] after [perform]: what it was, or
    else the action was the [Take] of an item whose use is [u], and it is
    the player. *)
Lemma perform_owner (extern : nat → M unit) (self : cref) (action : PlayerAction)
    (w : World) (u : uref) :
  (∀ n, preserves bindings (extern n)) →
  items (world_of (Player.perform extern self action w)) = items w ∧
  (owner_in (world_of (Player.perform extern self action w)) u = owner_in w u ∨
   ∃ item I, action = Take item ∧ items w !! item = Some I ∧ i_use I = u ∧
             owner_in (world_of (Player.perform extern self action w)) u
             = Some (Some self)).
Proof.
  intros Hext.
  set (Q := λ w' : World,
         items w' = items w ∧
         (owner_in w' u = owner_in w u ∨
          ∃ item I, action = Take item ∧ items w !! item = Some I ∧ i_use I = u ∧
                    owner_in w' u = Some (Some self))).
  change (Q (world_of (Player.perform extern self action w))).
  assert (∀ w' : World, bindings w' = bindings w → Q w') as Hsame.
  { intros w' [= Hu Hi]. split; [done|]. left. unfold owner_in. by rewrite Hu. }
  assert (console_free (same_at bindings)) as Hcon
    by by apply same_at_console_free, bindings_off_console.
  assert (removal_free (same_at bindings)) as Hrem by by apply same_at_removal_free.
  assert (append_free (same_at bindings)) as Happ by by apply same_at_append_free.
  destruct action as [| |item|ex]; unfold Player.perform.
  - apply Hsame.
    apply (keeps_bind (same_at bindings)); [by apply (keeps_print (same_at bindings))|].
    intros _. apply (keeps_raise (same_at bindings)).
  - apply Hsame. by apply (keeps_enter_inventory (same_at bindings)).
  - apply (after_bind bindings _ _ _ Q); [apply (keeps_get (same_at bindings))|done|].
    intros n w1 H1.
    apply (after_bind bindings _ _ _ Q);
      [by apply (keeps_print (same_at bindings))|intros; apply Hsame; congruence|].
    intros _ w2 H2. rewrite H1 in H2.
    apply (after_bind bindings _ _ _ Q);
      [apply (keeps_get_location (same_at bindings))|intros; apply Hsame; congruence|].
    intros l w3 H3. rewrite H2 in H3.
    apply (after_bind bindings _ _ _ Q);
      [apply (keeps_not_none (same_at bindings))|intros; apply Hsame; congruence|].
    intros c w4 H4. rewrite H3 in H4.
    apply (after_bind bindings _ _ _ Q);
      [by apply (keeps_remove_item (same_at bindings))|intros; apply Hsame; congruence|].
    intros _ w5 H5. rewrite H4 in H5.
    apply (after_bind bindings _ _ _ Q);
      [by apply (keeps_add_item (same_at bindings))|intros; apply Hsame; congruence|].
    intros _ w6 H6. rewrite H5 in H6.
    injection H6 as Hu6 Hi6.
    unfold bind, Item.get_use, bind, load, ret. rewrite Hi6.
    destruct (items w !! item) as [I|] eqn:HI.
    2:{ apply Hsame. unfold bindings. simpl. congruence. }
    unfold ItemUse.set_virtual_location, bind, load, modify. rewrite Hu6.
    destruct (uses w !! i_use I) as [U|] eqn:HU.
    2:{ apply Hsame. unfold bindings. simpl. congruence. }
    simpl. split; [done|]. unfold owner_in. simpl. rewrite Hu6.
    destruct (decide (u = i_use I)) as [->|Hne].
    + right. exists item, I. split_and!; [done..|].
      rewrite list_lookup_insert_eq by by eapply lookup_lt_Some. done.
    + left. by rewrite list_lookup_insert_ne.
  - apply Hsame.
    apply (keeps_bind (same_at bindings)); [apply (keeps_get (same_at bindings))|]. intros to.
    apply (keeps_bind (same_at bindings)); [apply (keeps_get (same_at bindings))|]. intros n.
    apply (keeps_bind (same_at bindings)); [by apply (keeps_print (same_at bindings))|]. intros _.
    apply (keeps_bind (same_at bindings)); [apply (keeps_get (same_at bindings))|]. intros to'.
    by apply (keeps_set_location (same_at bindings)).
Qed.


(** The owner reference of the use [u] after a run of the game loop, however
    long and however it ends: what it was, or else the player, and then [u]
    is the use of an item. *)
Lemma prompt_owner (extern : nat → M unit) (self : cref) (u : uref) :
  (∀ n, preserves bindings (extern n)) →
  ∀ depth w,
    items (world_of (Player.prompt extern depth self w)) = items w ∧
    (owner_in (world_of (Player.prompt extern depth self w)) u = owner_in w u ∨
     (∃ item I, items w !! item = Some I ∧ i_use I = u) ∧
     owner_in (world_of (Player.prompt extern depth self w)) u = Some (Some self)).
Proof.
  intros Hext.
  assert (∀ w, items (world_of (Player.turn extern self w)) = items w ∧
               (owner_in (world_of (Player.turn extern self w)) u = owner_in w u ∨
                (∃ item I, items w !! item = Some I ∧ i_use I = u) ∧
                owner_in (world_of (Player.turn extern self w)) u = Some (Some self)))
    as Hturn.
  { intros w.
    set (Q := λ w' : World,
           items w' = items w ∧
           (owner_in w' u = owner_in w u ∨
            (∃ item I, items w !! item = Some I ∧ i_use I = u) ∧
            owner_in w' u = Some (Some self))).
    change (Q (world_of (Player.turn extern self w))).
    assert (∀ w' : World, bindings w' = bindings w → Q w') as Hsame.
    { intros w' [= Hu Hi]. split; [done|]. left. unfold owner_in. by rewrite Hu. }
    assert (console_free (same_at bindings)) as Hcon
      by by apply same_at_console_free, bindings_off_console.
    unfold Player.turn.
    apply (after_bind bindings _ _ _ Q); [by apply (keeps_print (same_at bindings))|done|].
    intros _ w1 H1.
    apply (after_bind bindings _ _ _ Q);
      [by apply (keeps_print_location (same_at bindings))|intros; apply Hsame; congruence|].
    intros _ w2 H2. rewrite H1 in H2.
    apply (after_bind bindings _ _ _ Q);
      [by apply (keeps_print (same_at bindings))|intros; apply Hsame; congruence|].
    intros _ w3 H3. rewrite H2 in H3.
    apply (after_bind bindings _ _ _ Q);
      [by apply (keeps_print_and_get_actions (same_at bindings))|intros; apply Hsame; congruence|].
    intros actions w4 H4. rewrite H3 in H4.
    apply (after_bind bindings _ _ _ Q);
      [by apply (keeps_print (same_at bindings))|intros; apply Hsame; congruence|].
    intros _ w5 H5. rewrite H4 in H5.
    apply (after_bind bindings _ _ _ Q);
      [by apply (keeps_print (same_at bindings))|intros; apply Hsame; congruence|].
    intros _ w6 H6. rewrite H5 in H6.
    apply (after_bind bindings _ _ _ Q);
      [by apply (keeps_select (same_at bindings))|intros; apply Hsame; congruence|].
    intros action w7 H7. rewrite H6 in H7.
    apply (after_bind bindings _ _ _ Q);
      [apply (keeps_minus (same_at bindings))|intros; apply Hsame; congruence|].
    intros k w8 H8. rewrite H7 in H8.
    apply (after_bind bindings _ _ _ Q);
      [apply (keeps_py_index (same_at bindings))|intros; apply Hsame; congruence|].
    intros a w9 H9. rewrite H8 in H9. injection H9 as Hu9 Hi9.
    destruct (perform_owner extern self a w9 u Hext) as [Hi [Ho|Ho]].
    - split; [congruence|]. left. rewrite Ho. unfold owner_in. by rewrite Hu9.
    - destruct Ho as (item & I & _ & HI & Hu & Ho).
      split; [congruence|]. right. split; [|done].
      exists item, I. by rewrite <- Hi9. }
  induction depth as [|depth IH]; intros w; simpl.
  - split; [done|by left].
  - unfold bind. destruct (Hturn w) as [Hi Ho].
    destruct (Player.turn extern self w) as [[] w1|e w1]; simpl in *; [|done].
    destruct (IH w1) as [Hi1 Ho1]. split; [congruence|].
    destruct Ho1 as [Ho1|[(item & I & HI & Hu) Ho1]].
    + rewrite Ho1. done.
    + right. split; [|done]. exists item, I. by rewrite <- Hi.
Qed.

Lemma ItemUse_init_unowned (name description : string) (execute : Callable)
    (destroy_on_execute : option bool) (w : World) :
  ∃ w', ItemUse.init name description execute destroy_on_execute w
        = Ok (length (uses w)) w' ∧
        owner_in w' (length (uses w)) = Some None ∧
        ∀ u, u ≠ length (uses w) → owner_in w' u = owner_in w u.
Proof.
  eexists. split; [done|]. unfold owner_in. simpl. split.
  - by rewrite lookup_app_r, Nat.sub_diag.
  - intros u Hu. destruct (decide (u < length (uses w))).
    + by rewrite lookup_app_l.
    + rewrite !lookup_ge_None_2; [done|lia|]. rewrite length_app. simpl. lia.
Qed.

Lemma Item_init_owner (name description : string) (use : uref) (w : World) (u : uref) :
  owner_in (world_of (Item.init name description use w)) u = owner_in w u.
Proof.
  unfold Item.init, bind, new_item, ItemUse.set_item, bind, load, modify, ret.
  cbn [uses set_items].
  destruct (uses w !! use) as [U|] eqn:HU; simpl; [|done].
  unfold owner_in. simpl.
  destruct (decide (u = use)) as [->|Hne].
  - rewrite list_lookup_insert_eq by by eapply lookup_lt_Some. by rewrite HU.
  - by rewrite list_lookup_insert_ne.
Qed.

Lemma Fruit_init_unowned (name : string) (w : World) :
  ∃ i w' I, Fruit.init name w = Ok i w' ∧ items w' !! i = Some I ∧
            owner_in w' (i_use I) = Some None.
Proof.
  unfold Fruit.init.
  destruct (ItemUse_init_unowned "Eat" ("Eat the " +:+ name +:+ ".")
              (LambdaPrint ("You eat the " +:+ name +:+ ".")) (Some true) w)
    as (w1 & Hrun1 & Hown & _).
  rewrite (bind_ok _ _ _ _ _ Hrun1).
  pose proof (Item_init_owner name ("A juicy " +:+ name +:+ ".") (length (uses w)) w1
                (length (uses w))) as Hkeep.
  assert (is_Some (uses w1 !! length (uses w))) as [U HU].
  { unfold owner_in in Hown. by destruct (uses w1 !! length (uses w)). }
  revert Hkeep. unfold Item.init, bind, new_item, ItemUse.set_item, bind, load, modify, ret.
  cbn [uses set_items]. rewrite HU. simpl. intros Hkeep.
  eexists _, _, _. split; [done|]. simpl. split.
  - by rewrite lookup_app_r, Nat.sub_diag.
  - simpl. by rewrite Hkeep.
Qed.

Lemma setup_unowned (r0 r1 r2 r3 name : string) (lines : list string) :
  Forall (λ U, u_virtual_location U = None)
    (uses (world_of (setup [r0; r1; r2; r3] (module_loaded (name :: lines))))).
Proof. vm_compute. repeat constructor. Qed.

(** *** The game stays in good order *)

Lemma tidy_same (self : cref) (pl : lref) (w w' : World) :
  objects w' = objects w → tidy self pl w → tidy self pl w'.
Proof.
  intros Heq H. destruct w, w'. unfold objects in Heq. simpl in Heq.
  simplify_eq. exact H.
Qed.

Lemma tidy_console_free (self : cref) (pl : lref) : console_free (carries (tidy self pl)).
Proof. split; intros g w H; by apply (tidy_same self pl w). Qed.

Lemma list_remove_sublist (x : option iref) (l l' : list iref) :
  list_remove x l = Some l' → l' `sublist_of` l.
Proof.
  revert l'. induction l as [|y l IH]; intros l' H; [done|]. simpl in H.
  destruct (decide (Some y = x)).
  - simplify_eq. by apply sublist_cons.
  - destruct (list_remove x l) as [l0|]; simplify_eq/=.
    by apply sublist_skip, IH.
Qed.

Lemma without_first_sublist (x : iref) (l : list iref) :
  without_first x l `sublist_of` l.
Proof.
  unfold without_first. destruct (list_remove (Some x) l) eqn:H; [|done].
  by eapply list_remove_sublist.
Qed.

Lemma without_first_NoDup_absent (x : iref) (l : list iref) :
  NoDup l → x ∉ without_first x l.
Proof.
  induction 1 as [|y l Hy Hl IH]; [apply not_elem_of_nil|].
  rewrite without_first_cons. destruct (decide (y = x)) as [->|Hne]; [done|].
  apply not_elem_of_cons. split; [congruence|done].
Qed.

(** A state whose list objects have shrunk, each to a sublist of what it
    was, and which is otherwise the same, is in good order when the state
    it comes from is. *)
Lemma tidy_shrunk (self : cref) (pl : lref) (w : World) (r : lref) (l l' : list iref) :
  item_lists w !! r = Some l → l' `sublist_of` l →
  tidy self pl w → tidy self pl (set_item_lists (<[r := l']>) w).
Proof.
  intros Hl Hsub (Hcl & Hpl & Hrooms & Hex & Hnd & Hone & Huse & Hun).
  assert (∀ r0 l0, <[r := l']> (item_lists w) !! r0 = Some l0 →
            ∃ l1, item_lists w !! r0 = Some l1 ∧ l0 `sublist_of` l1) as Hback.
  { intros r0 l0 H0. destruct (decide (r0 = r)) as [->|Hne].
    - rewrite list_lookup_insert_eq in H0 by by eapply lookup_lt_Some.
      simplify_eq. by exists l.
    - rewrite list_lookup_insert_ne in H0 by done. by exists l0. }
  split_and!.
  - destruct Hcl as (H1 & H2 & H3 & H4 & H5). split_and!; simpl; try done.
    + apply Forall_lookup. intros r0 l0 H0.
      destruct (Hback r0 l0 H0) as (l1 & Hl1 & Hs).
      rewrite Forall_lookup in H1. specialize (H1 r0 l1 Hl1).
      rewrite Forall_forall in H1. apply Forall_forall. intros i Hi.
      apply H1. by apply (elem_of_sublist l0).
    + rewrite length_insert. done.
  - done.
  - done.
  - done.
  - simpl. intros r0 l0 H0. destruct (Hback r0 l0 H0) as (l1 & Hl1 & Hs).
    eapply sublist_NoDup; [by eapply Hnd|done].
  - simpl. intros r1 r2 l1 l2 i H1 H2 Hi1 Hi2.
    destruct (Hback r1 l1 H1) as (l1' & Hl1 & Hs1).
    destruct (Hback r2 l2 H2) as (l2' & Hl2 & Hs2).
    apply (Hone r1 r2 l1' l2' i);
      [done|done|by apply (elem_of_sublist l1)|by apply (elem_of_sublist l2)].
  - done.
  - simpl. intros r0 l0 i I H0 Hr0 Hi HI.
    destruct (Hback r0 l0 H0) as (l1 & Hl1 & Hs).
    apply (Hun r0 l1 i I); [done|done|by apply (elem_of_sublist l0)|done].
Qed.

Lemma tidy_removal_free (self : cref) (pl : lref) : removal_free (carries (tidy self pl)).
Proof.
  intros w r l x l' Hl Hrm Ht. eapply tidy_shrunk; [done| |done].
  by eapply list_remove_sublist.
Qed.

Lemma closed_container (w : World) (c : cref) (C : Container) :
  closed w → containers w !! c = Some C →
  c_items C < length (item_lists w) ∧ extra_closed w (c_extra C).
Proof.
  intros (_ & _ & H & _) HC. rewrite Forall_lookup in H. by apply (H c).
Qed.

Lemma tidy_stands_in (self : cref) (pl : lref) (w : World) :
  tidy self pl w →
  ∃ P loc L its exs lp,
    stands_in w self loc its exs ∧ loc ≠ self ∧
    containers w !! self = Some P ∧ c_items P = pl ∧
    containers w !! loc = Some L ∧ c_items L ≠ pl ∧
    item_lists w !! c_items L = Some its ∧ item_lists w !! pl = Some lp.
Proof.
  intros (Hcl & (P & loc & HP & HPl & HPx & Hne) & Hrooms & _).
  destruct (closed_container w self P Hcl HP) as [HPi HPe].
  rewrite HPx in HPe. simpl in HPe.
  destruct (valid_lookup _ _ HPe) as [L HL].
  destruct (Hrooms loc L HL Hne) as (HLi & room & er & HLx).
  destruct (closed_container w loc L Hcl HL) as [HLl HLe].
  rewrite HLx in HLe. simpl in HLe.
  destruct (valid_lookup _ _ HLl) as [its Hits].
  destruct (valid_lookup _ _ HLe) as [exs Hexs].
  destruct (valid_lookup _ _ HPi) as [lp Hlp]. rewrite HPl in Hlp.
  exists P, loc, L, its, exs, lp. split_and!; try done.
  by exists P, L, room, er.
Qed.

(** The state after an item was moved from a room's list object to the
    player's and its use was given an owner is in good order when the state
    before was. *)
Lemma tidy_moved (self : cref) (pl : lref) (w w' : World) (P L : Container)
    (loc : cref) (its lp : list iref) (item : iref) (I : Item) (U' : ItemUse) :
  tidy self pl w →
  containers w !! self = Some P → c_items P = pl →
  containers w !! loc = Some L → loc ≠ self →
  item_lists w !! c_items L = Some its → item_lists w !! pl = Some lp →
  item ∈ its → items w !! item = Some I →
  item_lists w' = <[pl := lp ++ [item]]>
                    (<[c_items L := without_first item its]> (item_lists w)) →
  uses w' = <[i_use I := U']> (uses w) →
  containers w' = containers w → exits w' = exits w →
  exit_lists w' = exit_lists w → items w' = items w →
  tidy self pl w'.
Proof.
  intros (Hcl & Hpl & Hrooms & Hex & Hnd & Hone & Huse & Hun)
    HP HPl HL Hne Hits Hlp Hitem HI Hlists Huses Hconts Hexits Hexl Hitems.
  destruct (Hrooms loc L HL Hne) as [HLpl _].
  assert (item ∉ lp) as Hnlp.
  { intros Hin. apply HLpl. by apply (Hone (c_items L) pl its lp item). }
  assert (pl < length (item_lists w)) as Hpllt by by eapply lookup_lt_Some.
  assert (c_items L < length (item_lists w)) as HLlt by by eapply lookup_lt_Some.
  assert (∀ r0 l0, item_lists w' !! r0 = Some l0 →
            (r0 = pl ∧ l0 = lp ++ [item]) ∨
            (r0 ≠ pl ∧ (item ∉ l0) ∧
             ∃ l1, item_lists w !! r0 = Some l1 ∧ l0 `sublist_of` l1)) as Hback.
  { intros r0 l0 H0. rewrite Hlists in H0.
    destruct (decide (r0 = pl)) as [->|Hr0].
    { left. rewrite list_lookup_insert_eq in H0 by by rewrite length_insert.
      by simplify_eq. }
    right. split; [done|]. rewrite list_lookup_insert_ne in H0 by done.
    destruct (decide (r0 = c_items L)) as [->|HrL].
    - rewrite list_lookup_insert_eq in H0 by done. simplify_eq. split.
      + apply without_first_NoDup_absent. by eapply Hnd.
      + exists its. split; [done|apply without_first_sublist].
    - rewrite list_lookup_insert_ne in H0 by done. split.
      + intros Hin. apply HrL. by apply (Hone r0 (c_items L) l0 its item).
      + by exists l0. }
  destruct Hcl as (C1 & C2 & C3 & C4 & C5).
  split_and!.
  - unfold closed. rewrite Hexits, Hexl, Hconts, Hitems. split_and!; try done.
    + apply Forall_lookup. intros r0 l0 H0. apply Forall_forall. intros i Hi.
      rewrite Forall_lookup in C1.
      destruct (Hback r0 l0 H0) as [[-> ->]|(_ & _ & l1 & Hl1 & Hs)].
      * apply elem_of_app in Hi as [Hi|Hi].
        -- specialize (C1 pl lp Hlp). rewrite Forall_forall in C1. by apply C1.
        -- apply list_elem_of_singleton in Hi as ->. by eapply lookup_lt_Some.
      * specialize (C1 r0 l1 Hl1). rewrite Forall_forall in C1.
        apply C1. by apply (elem_of_sublist l0).
    + eapply Forall_impl; [exact C3|]. intros C [Hc1 Hc2]. split.
      * by rewrite Hlists, !length_insert.
      * destruct (c_extra C) as [| |[l|]]; simpl in *; by rewrite ?Hexl, ?Hconts.
    + eapply Forall_impl; [exact C5|]. intros J HJ. simpl in *.
      by rewrite Huses, length_insert.
  - by rewrite Hconts.
  - by rewrite Hconts.
  - by rewrite Hexits.
  - intros r0 l0 H0.
    destruct (Hback r0 l0 H0) as [[-> ->]|(_ & _ & l1 & Hl1 & Hs)].
    + apply NoDup_app. split_and!; [by eapply Hnd| |apply NoDup_singleton].
      intros x Hx Hx'. apply list_elem_of_singleton in Hx' as ->. done.
    + eapply sublist_NoDup; [by eapply Hnd|done].
  - intros r1 r2 l1 l2 i H1 H2 Hi1 Hi2.
    destruct (Hback r1 l1 H1) as [[-> ->]|(Hr1 & Hn1 & l1' & Hl1 & Hs1)],
             (Hback r2 l2 H2) as [[-> ->]|(Hr2 & Hn2 & l2' & Hl2 & Hs2)].
    + done.
    + apply elem_of_app in Hi1 as [Hi1|Hi1].
      * apply (Hone pl r2 lp l2' i); [done|done|done|by apply (elem_of_sublist l2)].
      * apply list_elem_of_singleton in Hi1 as ->. done.
    + apply elem_of_app in Hi2 as [Hi2|Hi2].
      * apply (Hone r1 pl l1' lp i); [done|done|by apply (elem_of_sublist l1)|done].
      * apply list_elem_of_singleton in Hi2 as ->. done.
    + apply (Hone r1 r2 l1' l2' i);
        [done|done|by apply (elem_of_sublist l1)|by apply (elem_of_sublist l2)].
  - by rewrite Hitems.
  - intros r0 l0 i J H0 Hr0 Hi HJ. rewrite Hitems in HJ.
    destruct (Hback r0 l0 H0) as [[-> ->]|(_ & Hn & l1 & Hl1 & Hs)]; [done|].
    assert (i ≠ item) as Hi' by (by intros ->).
    assert (i_use J ≠ i_use I) as Hu.
    { intros Heq. apply Hi'. by apply (Huse i item J I). }
    unfold owner_in. rewrite Huses, list_lookup_insert_ne by done.
    apply (Hun r0 l1 i J); [done|done|by apply (elem_of_sublist l0)|done].
Qed.

Lemma go_run (extern : nat → M unit) (w : World) (self : cref) (P : Container)
    (l0 : option cref) (ex : eref) (E : Exit) (C : Container) :
  containers w !! self = Some P → c_extra P = IsPlayer l0 →
  exits w !! ex = Some E → containers w !! e_to E = Some C →
  Player.perform extern self (Go ex) w
  = Ok tt (set_containers
             (<[self := mkContainer (c_name P) (c_description P) (c_items P)
                          (IsPlayer (Some (e_to E)))]>)
             (says [Line ("You go to the " +:+ c_name C +:+ ".")] w)).
Proof.
  intros HP HPx HE HC. unfold Player.perform.
  rewrite (bind_ok _ _ w (e_to E) w) by by apply (get_run exits e_to).
  rewrite (bind_ok _ _ w (c_name C) w) by by apply (get_run containers c_name).
  rewrite (bind_ok _ _ w tt (says [Line ("You go to the " +:+ c_name C +:+ ".")] w)) by done.
  rewrite (bind_ok _ _ _ (e_to E) _) by by apply (get_run exits e_to).
  unfold Player.set_location, bind, load. cbn [containers says set_stdout].
  by rewrite HP, HPx.
Qed.

(** The state after the player went through an exit is in good order when
    the state before was. *)
Lemma tidy_gone (self : cref) (pl : lref) (w w' : World) (P : Container)
    (ex : eref) (E : Exit) :
  tidy self pl w →
  containers w !! self = Some P → exits w !! ex = Some E →
  containers w' = <[self := mkContainer (c_name P) (c_description P) (c_items P)
                              (IsPlayer (Some (e_to E)))]> (containers w) →
  item_lists w' = item_lists w → exit_lists w' = exit_lists w →
  exits w' = exits w → uses w' = uses w → items w' = items w →
  tidy self pl w'.
Proof.
  intros (Hcl & (P0 & loc & HP0 & HPl & HPx & Hne) & Hrooms & Hex & Hnd & Hone & Huse & Hun)
    HP HE Hconts Hlists Hexl Hexits Huses Hitems.
  assert (P0 = P) as -> by congruence.
  assert (self < length (containers w)) as Hlt by by eapply lookup_lt_Some.
  destruct Hcl as (C1 & C2 & C3 & C4 & C5).
  assert (e_to E < length (containers w)) as HE'.
  { rewrite Forall_lookup in C4. by apply (C4 ex E). }
  split_and!.
  - unfold closed. rewrite Hlists, Hexl, Hexits, Huses, Hitems, Hconts.
    rewrite length_insert. split_and!; try done.
    apply Forall_insert.
    + eapply Forall_impl; [exact C3|]. intros C [Hc1 Hc2]. split; [done|].
      destruct (c_extra C) as [| |[l|]]; simpl in *;
        by rewrite ?Hexl, ?Hconts, ?length_insert.
    + split; simpl.
      * rewrite Forall_lookup in C3. by apply (C3 self P).
      * by rewrite Hconts, length_insert.
  - rewrite Hconts. eexists _, (e_to E).
    rewrite list_lookup_insert_eq by done. split_and!; try done.
    by apply (Hex ex E).
  - intros c C HC Hc. rewrite Hconts, list_lookup_insert_ne in HC by done.
    by apply (Hrooms c C).
  - by rewrite Hexits.
  - by rewrite Hlists.
  - by rewrite Hlists.
  - by rewrite Hitems.
  - intros r l i I Hl Hr Hi HI. rewrite Hlists in Hl. rewrite Hitems in HI.
    unfold owner_in. rewrite Huses. by apply (Hun r l i I).
Qed.

(** A turn either goes on with an action of the list, on a state that
    differs in the console only, or ends with [EOFError] because no line
    that is left can be accepted. *)
Lemma turn_cases (extern : nat → M unit) (w : World) (self loc : cref)
    (its : list iref) (exs : list eref) :
  closed w → stands_in w self loc its exs →
  (∃ a rest out, a ∈ canonical its exs ∧
     Player.turn extern self w = Player.perform extern self a (advance rest out w)) ∨
  (∃ out, Player.turn extern self w = Raise EOFError (advance [] out w)).
Proof.
  intros Hcl Hst.
  destruct (select_total (canonical its exs) w)
    as [(bad & s & rest & k & Hin & Hbad & Hk & _)|[Hall _]].
  - left. destruct (choice_in_list (canonical its exs) k) as [a Ha].
    { by apply choice_of_range in Hk as [_ ?]. }
    destruct (turn_run extern w self loc its exs bad s rest k a) as [out Hrun]; [done..|].
    exists a, rest, out. split; [|done]. by eapply list_elem_of_lookup_2.
  - right. unfold Player.turn.
    destruct (turn_presents w self loc its exs
                (λ actions, action <- Player.select actions;;
                            k <- Player.minus action 1;;
                            a <- py_index actions k;;
                            Player.perform extern self a) Hcl Hst) as [out ->].
    destruct (select_total (canonical its exs) (says out w))
      as [(bad & s & rest & k & Hin & Hbad & Hk & _)|[_ Hrun]].
    + exfalso. cbn [stdin says set_stdout] in Hin. rewrite Hin in Hall.
      apply Forall_app in Hall as [_ Hall]. apply Forall_cons in Hall as [Hs _].
      congruence.
    + unfold bind at 1. rewrite Hrun, advance_says. by eexists.
Qed.

Lemma elem_of_canonical (a : PlayerAction) (its : list iref) (exs : list eref) :
  a ∈ canonical its exs →
  a = Quit ∨ a = Inventory ∨ (∃ item, a = Take item ∧ item ∈ its) ∨
  (∃ ex, a = Go ex ∧ ex ∈ exs).
Proof.
  unfold canonical. intros H.
  apply elem_of_app in H as [H|H].
  { apply elem_of_cons in H as [->|H]; [by left|].
    apply list_elem_of_singleton in H as ->. by right; left. }
  apply elem_of_app in H as [H|H].
  - apply list_elem_of_fmap in H as (item & -> & H). right; right; left. by exists item.
  - apply list_elem_of_fmap in H as (ex & -> & H). right; right; right. by exists ex.
Qed.

(** A turn leaves a game in good order in good order, however it ends. *)
Lemma tidy_turn (extern : nat → M unit) (self : cref) (pl : lref) (w : World) :
  (∀ n, preserves objects (extern n)) →
  tidy self pl w → tidy self pl (world_of (Player.turn extern self w)).
Proof.
  intros Hext Ht.
  destruct (tidy_stands_in self pl w Ht)
    as (P & loc & L & its & exs & lp & Hst & Hne & HP & HPl & HL & HLpl & Hits & Hlp).
  pose proof Ht as (Hcl & _).
  destruct (turn_cases extern w self loc its exs Hcl Hst)
    as [(a & rest & out & Ha & ->)|(out & ->)].
  2:{ by apply (tidy_same self pl w). }
  set (w1 := advance rest out w).
  assert (tidy self pl w1) as Ht1 by by apply (tidy_same self pl w).
  apply elem_of_canonical in Ha
    as [->|[->|[(item & -> & Hitem)|(ex & -> & Hex)]]].
  - by apply (tidy_same self pl w).
  - apply (keeps_enter_inventory (carries (tidy self pl)));
      [apply tidy_console_free|apply tidy_removal_free| |done].
    intros n w0 H0. apply (tidy_same self pl w0); [|done]. apply Hext.
  - destruct Hst as (P' & L' & room & er & HP' & HPx & HL' & HLx & _).
    assert (P' = P) as -> by congruence. assert (L' = L) as -> by congruence.
    destruct (closed_item w _ its item Hcl Hits Hitem) as (I & U & HI & HU).
    destruct (take_run extern w1 self loc P L I U its lp item)
      as (w' & -> & _ & _ & Hi' & Hc' & He' & Hel' & _ & _ & _ & _ & Hl' & U' & Hu');
      [done|done|done|done|by rewrite HPl|by rewrite HPl|done|done|].
    simpl. rewrite HPl in Hl'.
    by apply (tidy_moved self pl w1 w' P L loc its lp item I U').
  - destruct Hst as (P' & L' & room & er & HP' & HPx & _ & _ & _ & Hexs).
    assert (P' = P) as -> by congruence.
    destruct (closed_exit w er exs ex Hcl Hexs Hex) as (E & C & HE & HC).
    rewrite (go_run extern w1 self P (Some loc) ex E C) by done.
    by apply (tidy_gone self pl w1 _ P ex E).
Qed.

(** So does a run of the game loop. *)
Lemma tidy_prompt (extern : nat → M unit) (self : cref) (pl : lref) :
  (∀ n, preserves objects (extern n)) →
  ∀ depth w, tidy self pl w →
             tidy self pl (world_of (Player.prompt extern depth self w)).
Proof.
  intros Hext. induction depth as [|depth IH]; intros w Ht; [done|].
  simpl. unfold bind. pose proof (tidy_turn extern self pl w Hext Ht) as Ht1.
  destruct (Player.turn extern self w) as [[] w1|e w1]; simpl in *; [|done].
  by apply IH.
Qed.

Lemma concat_one_list (ls : list (list iref)) :
  NoDup (concat ls) →
  (∀ r l, ls !! r = Some l → NoDup l) ∧
  (∀ r1 r2 l1 l2 i, ls !! r1 = Some l1 → ls !! r2 = Some l2 →
                    i ∈ l1 → i ∈ l2 → r1 = r2).
Proof.
  assert (∀ (ks : list (list iref)) r l i, ks !! r = Some l → i ∈ l → i ∈ concat ks)
    as Hin.
  { induction ks as [|k ks IH]; intros [|r] l i Hl Hi; simplify_eq/=.
    - apply elem_of_app. by left.
    - apply elem_of_app. right. by eapply IH. }
  induction ls as [|l0 ls IH]; simpl; intros Hnd.
  { split; intros; simplify_eq/=. }
  apply NoDup_app in Hnd as (Hl0 & Hdis & Hrest).
  destruct (IH Hrest) as [IHnd IHone]. split.
  - intros [|r] l Hl; simplify_eq/=; [done|by eapply IHnd].
  - intros [|r1] [|r2] l1 l2 i H1 H2 Hi1 Hi2; simplify_eq/=.
    + done.
    + exfalso. eapply Hdis; [done|]. by eapply Hin.
    + exfalso. eapply Hdis; [done|]. by eapply Hin.
    + f_equal. by eapply IHone.
Qed.

(** The game [__main__] sets up is in good order. *)
Lemma setup_tidy (r0 r1 r2 r3 name : string) (lines : list string) :
  tidy 4 5 (world_of (setup [r0; r1; r2; r3] (module_loaded (name :: lines)))).
Proof.
  pose proof (setup_unowned r0 r1 r2 r3 name lines) as Hun.
  remember (world_of (setup [r0; r1; r2; r3] (module_loaded (name :: lines))))
    as w eqn:Hw.
  assert (closed w) as Hcl by (rewrite Hw; vm_compute; repeat constructor).
  assert (item_lists w = [[]; [0]; [1; 2]; []; [3]; []]) as Hl
    by (rewrite Hw; vm_compute; reflexivity).
  assert (containers w
          = [mkContainer "Lounge" r0 1 (IsLocation true 0);
             mkContainer "Kitchen" r1 2 (IsLocation true 1);
             mkContainer "Hall" r2 3 (IsLocation false 2);
             mkContainer "Dining Room" r3 4 (IsLocation true 3);
             mkContainer name "You are you." 5 (IsPlayer (Some 0))]) as Hc
    by (rewrite Hw; vm_compute; reflexivity).
  assert (Forall (λ E, e_to E ≠ 4) (exits w)) as Hex
    by (rewrite Hw; vm_compute; repeat constructor; discriminate).
  assert (NoDup (i_use <$> items w)) as Hinj
    by (rewrite Hw; vm_compute; compute_done).
  clear Hw.
  destruct (concat_one_list (item_lists w)) as [Hnd Hone].
  { rewrite Hl. simpl. compute_done. }
  split_and!.
  - exact Hcl.
  - rewrite Hc. eexists _, 0. split_and!; [reflexivity|reflexivity|reflexivity|discriminate].
  - rewrite Hc. intros c C HC Hc'.
    do 5 (destruct c as [|c];
          [simpl in HC; injection HC as <-; (by destruct Hc') || (split; [discriminate|by eexists _, _])|]).
    discriminate HC.
  - intros e E HE. rewrite Forall_lookup in Hex. by apply (Hex e E).
  - exact Hnd.
  - exact Hone.
  - intros i j I J HI HJ Heq.
    apply (NoDup_lookup _ i j (i_use I) Hinj).
    + by rewrite list_lookup_fmap, HI.
    + by rewrite list_lookup_fmap, HJ, Heq.
  - intros r l i I Hr _ Hi HI.
    destruct (closed_item w r l i Hcl Hr Hi) as (I' & U & HI' & HU).
    assert (I' = I) as -> by congruence.
    unfold owner_in. rewrite HU. simpl. f_equal.
    rewrite Forall_lookup in Hun. by apply (Hun (i_use I) U).
Qed.

Lemma objects_bindings {A} (m : M A) : preserves objects m → preserves bindings m.
Proof. intros H w. specialize (H w). unfold same_at, objects, bindings in *. congruence. Qed.

Lemma setup_run (r0 r1 r2 r3 name : string) (lines : list string) :
  ∃ w0, setup [r0; r1; r2; r3] (module_loaded (name :: lines))
        = Ok (mkCast 4 0 1 2 3 0 1 2 3) w0.
Proof. vm_compute. by eexists. Qed.

(** At every point of the game [__main__] starts, the use of every item
    that lies in a container other than the player has an unset owner
    reference. *)
Lemma rooms_hold_unowned (extern : nat → M unit) (depth : nat)
    (r0 r1 r2 r3 name : string) (lines : list string) (c : cref) (C : Container)
    (l : list iref) (i : iref) (I : Item) :
  (∀ n, preserves objects (extern n)) →
  let w := world_of (main extern [r0; r1; r2; r3] depth (module_loaded (name :: lines))) in
  containers w !! c = Some C → c ≠ 4 →
  item_lists w !! c_items C = Some l → i ∈ l → items w !! i = Some I →
  owner_in w (i_use I) = Some None.
Proof.
  intros Hext w. subst w. unfold main, bind.
  pose proof (setup_tidy r0 r1 r2 r3 name lines) as Ht.
  destruct (setup_run r0 r1 r2 r3 name lines) as [w0 Hrun].
  rewrite Hrun in Ht |- *. simpl in Ht. cbn [player].
  pose proof (tidy_prompt extern 4 5 Hext depth w0 Ht)
    as (_ & _ & Hrooms & _ & _ & _ & _ & Hun).
  intros HC Hc Hl Hi HI.
  destruct (Hrooms c C HC Hc) as [Hpl _].
  by apply (Hun (c_items C) l i I).
Qed.

(** C9.  Provided the callables that are not the program's own change
    nothing but the console:
    - a use is constructed with an unset owner reference, and constructing
      it changes no other use's;
    - constructing an item (which binds the use to it) changes no owner
      reference, so a fruit comes out of its constructor with its use
      unowned;
    - making a list of items, constructing a container, location, room or
      player around it, and [add_item], leave every use object as it was;
    - carrying out an action changes the owner reference of a use only when
      the action is the [Take] of an item with that use, and then it becomes
      the player;
    - so after any run of the game loop the owner reference of a use is what
      it was before, or it is the player;
    - when the game starts, after the program has built its rooms and items,
      every owner reference is unset;
    - and at every point of that game, however long it has run and however
      it ended, the use of every item lying in a container other than the
      player (object 4 of the containers [__main__] makes) has an unset
      owner reference. *)
Theorem owner_unset_until_taken (extern : nat → M unit) (self : cref) :
  (∀ n, preserves objects (extern n)) →
  (∀ name description execute destroy_on_execute w,
     ∃ w', ItemUse.init name description execute destroy_on_execute w
           = Ok (length (uses w)) w' ∧
           owner_in w' (length (uses w)) = Some None ∧
           ∀ u, u ≠ length (uses w) → owner_in w' u = owner_in w u) ∧
  (∀ name description use w u,
     owner_in (world_of (Item.init name description use w)) u = owner_in w u) ∧
  (∀ name w, ∃ i w' I, Fruit.init name w = Ok i w' ∧ items w' !! i = Some I ∧
                       owner_in w' (i_use I) = Some None) ∧
  (∀ name description exs its l c item,
     preserves uses (new_item_list l) ∧
     preserves uses (Container.init name description its) ∧
     preserves uses (Location.init name description exs its) ∧
     preserves uses (Room.init name description exs (Some its)) ∧
     preserves uses (Room.init name description exs None) ∧
     preserves uses (Player.init name description its) ∧
     preserves uses (Container.add_item c item)) ∧
  (∀ action w u,
     owner_in (world_of (Player.perform extern self action w)) u = owner_in w u ∨
     ∃ item I, action = Take item ∧ items w !! item = Some I ∧ i_use I = u ∧
               owner_in (world_of (Player.perform extern self action w)) u
               = Some (Some self)) ∧
  (∀ depth w u,
     owner_in (world_of (Player.prompt extern depth self w)) u = owner_in w u ∨
     (∃ item I, items w !! item = Some I ∧ i_use I = u) ∧
     owner_in (world_of (Player.prompt extern depth self w)) u = Some (Some self)) ∧
  (∀ r0 r1 r2 r3 name lines,
     Forall (λ U, u_virtual_location U = None)
       (uses (world_of (setup [r0; r1; r2; r3] (module_loaded (name :: lines)))))) ∧
  (∀ depth r0 r1 r2 r3 name lines c C l i I,
     let w := world_of (main extern [r0; r1; r2; r3] depth
                          (module_loaded (name :: lines))) in
     containers w !! c = Some C → c ≠ 4 →
     item_lists w !! c_items C = Some l → i ∈ l → items w !! i = Some I →
     owner_in w (i_use I) = Some None).
Proof.
  intros Hext.
  assert (∀ n, preserves bindings (extern n)) as Hext'
    by (intros n; apply objects_bindings, Hext).
  split_and!.
  - apply ItemUse_init_unowned.
  - apply Item_init_owner.
  - apply Fruit_init_unowned.
  - intros name description exs its l c item. split_and!; try done.
    apply (keeps_add_item (same_at uses)). by apply same_at_append_free.
  - intros action w u. by apply perform_owner.
  - intros depth w u. by apply prompt_owner.
  - apply setup_unowned.
  - intros depth r0 r1 r2 r3 name lines c C l i I.
    by apply rooms_hold_unowned.
Qed.

Lemma owner_unset_until_taken_witness :
  (owner_in (world_of (Player.prompt quiet 3 4 (start ["5"; "4"; "1"]))) 1 = Some None ∨
   owner_in (world_of (Player.prompt quiet 3 4 (start ["5"; "4"; "1"]))) 1 = Some (Some 4)) ∧
  owner_in (world_of (main quiet ["a"; "b"; "c"; "d"] 3 (module_loaded ["Ann"; "3"; "5"; "1"]))) 2
  = Some None.
Proof.
  destruct (owner_unset_until_taken quiet 4 (quiet_preserves _))
    as (_ & _ & _ & _ & _ & Hrun & _ & Hrooms).
  split.
  - destruct (Hrun 3 (start ["5"; "4"; "1"]) 1) as [H|[_ H]].
    + left. exact H.
    + right. exact H.
  - apply (Hrooms 3 "a" "b" "c" "d" "Ann" ["3"; "5"; "1"] 1
             (mkContainer "Kitchen" "b" 2 (IsLocation true 1)) [1; 2] 2
             (mkItem "Apple" "A juicy Apple." 2)).
    + vm_compute. reflexivity.
    + discriminate.
    + vm_compute. reflexivity.
    + compute_done.
    + vm_compute. reflexivity.
Defined.

(** ** Further properties *)

(** *** Adding to a container and removing from it *)

Lemma set_item_lists_same (w : World) (r : lref) (l l' : list iref) :
  item_lists w !! r = Some l →
  set_item_lists (<[r := l]>) (set_item_lists (<[r := l']>) w) = w.
Proof.
  intros H. destruct w. unfold set_item_lists. simpl in *. f_equal.
  rewrite list_insert_insert_eq. by apply list_insert_id.
Qed.

Lemma without_first_snoc (x : iref) (l : list iref) :
  without_first x (l ++ [x]) = if decide (x ∈ l) then without_first x l ++ [x] else l.
Proof.
  induction l as [|y l IH]; cbn [app].
  - rewrite without_first_cons, decide_True by done.
    rewrite decide_False; [done|apply not_elem_of_nil].
  - rewrite !without_first_cons. destruct (decide (y = x)) as [->|Hne].
    + rewrite decide_True; [done|apply elem_of_cons; by left].
    + rewrite IH. destruct (decide (x ∈ l)) as [Hin|Hout].
      * rewrite decide_True; [done|apply elem_of_cons; by right].
      * rewrite decide_False; [done|]. apply not_elem_of_cons. split; [congruence|done].
Qed.

(** X1.  Adding an item to a container and then removing it gives the state
    back exactly when the item was not in the container before.  When it
    was, the entry that goes is the earlier one, not the one just added:
    the item has moved to the end of the sequence, which is also what
    removing it first and adding it afterwards does. *)
Theorem add_then_remove_item (w : World) (self : cref) (c : Container)
    (l : list iref) (item : iref) :
  containers w !! self = Some c →
  item_lists w !! c_items c = Some l →
  (item ∉ l →
   (Container.add_item self item;; Container.remove_item self (Some item)) w = Ok tt w) ∧
  (item ∈ l →
   ∃ w', (Container.add_item self item;; Container.remove_item self (Some item)) w
         = Ok tt w' ∧
         items_of self w' = Ok (without_first item l ++ [item]) w') ∧
  (∃ w', (Container.remove_item self (Some item);; Container.add_item self item) w
         = Ok tt w' ∧
         items_of self w' = Ok (without_first item l ++ [item]) w').
Proof.
  intros Hc Hl.
  assert (c_items c < length (item_lists w)) as Hlt by by eapply lookup_lt_Some.
  set (w1 := set_item_lists (<[c_items c := l ++ [item]]>) w).
  assert (item_lists w1 !! c_items c = Some (l ++ [item])) as Hl1
    by by apply list_lookup_insert_eq.
  split_and!.
  - intros Hout.
    rewrite (bind_ok _ _ w tt w1) by by apply add_item_run.
    rewrite (remove_item_run w1 self c (l ++ [item])) by done.
    rewrite list_remove_first by done. rewrite app_nil_r.
    f_equal. by apply set_item_lists_same.
  - intros Hin.
    rewrite (bind_ok _ _ w tt w1) by by apply add_item_run.
    destruct (remove_item_without_first w1 self c (l ++ [item]) item)
      as (w2 & Hrun & Hits & _); [done..|].
    exists w2. split; [done|].
    by rewrite without_first_snoc, decide_True in Hits.
  - destruct (remove_item_without_first w self c l item Hc Hl)
      as (w2 & Hrun & _ & Hl2 & _ & Hc2 & _).
    assert (item_lists w2 !! c_items c = Some (without_first item l)) as Hl2'.
    { rewrite Hl2. by apply list_lookup_insert_eq. }
    eexists. split.
    + rewrite (bind_ok _ _ w tt w2) by done.
      apply add_item_run; [by rewrite Hc2|done].
    + apply items_of_run with c; [by cbn; rewrite Hc2|].
      cbn. apply list_lookup_insert_eq. by eapply lookup_lt_Some.
Qed.

Lemma add_then_remove_item_witness :
  (Container.add_item 0 3;; Container.remove_item 0 (Some 3)) (start []) = Ok tt (start []) ∧
  ∃ w', (Container.add_item 1 1;; Container.remove_item 1 (Some 1)) (start [])
        = Ok tt w' ∧
        items_of 1 w' = Ok [2; 1] w'.
Proof.
  split.
  - destruct (add_then_remove_item (start []) 0
                (mkContainer "Lounge" "lounge" 1 (IsLocation true 0)) [0] 3
                eq_refl eq_refl) as (Hback & _ & _).
    apply Hback. compute_done.
  - destruct (add_then_remove_item (start []) 1
                (mkContainer "Kitchen" "kitchen" 2 (IsLocation true 1)) [1; 2] 1
                eq_refl eq_refl) as (_ & Hmoved & _).
    apply Hmoved. compute_done.
Defined.

(** *** Exits and links *)

Lemma add_exit_run (w : World) (self : cref) (C : Container) (room : bool)
    (er : elref) (l : list eref) (e : eref) :
  containers w !! self = Some C → c_extra C = IsLocation room er →
  exit_lists w !! er = Some l →
  Location.add_exit self e w = Ok tt (set_exit_lists (<[er := l ++ [e]]>) w).
Proof.
  intros HC Hx Hl.
  unfold Location.add_exit, Location.get_exits, bind, load, modify.
  rewrite HC, Hx. simpl. by rewrite Hl.
Qed.

Lemma add_exit_refused (w : World) (self : cref) (C : Container) (e : eref) :
  containers w !! self = Some C → (∀ room er, c_extra C ≠ IsLocation room er) →
  Location.add_exit self e w = Raise AttributeError w.
Proof.
  intros HC Hx.
  unfold Location.add_exit, Location.get_exits, bind, load.
  rewrite HC. destruct (c_extra C) as [|room er|l]; try done. by destruct (Hx room er).
Qed.

Lemma lookup_add_exit_run (w : World) (self : cref) (C : Container) (room : bool)
    (er : elref) :
  containers w !! self = Some C → c_extra C = IsLocation room er →
  Location.lookup_add_exit self w = Ok tt w.
Proof.
  intros HC Hx. unfold Location.lookup_add_exit, bind, load. by rewrite HC, Hx.
Qed.

Lemma lookup_add_exit_refused (w : World) (self : cref) (C : Container) :
  containers w !! self = Some C → (∀ room er, c_extra C ≠ IsLocation room er) →
  Location.lookup_add_exit self w = Raise AttributeError w.
Proof.
  intros HC Hx. unfold Location.lookup_add_exit, bind, load.
  rewrite HC. destruct (c_extra C) as [|room er|l]; try done. by destruct (Hx room er).
Qed.

Lemma exits_of_run (w : World) (self : cref) (C : Container) (room : bool)
    (er : elref) (l : list eref) :
  containers w !! self = Some C → c_extra C = IsLocation room er →
  exit_lists w !! er = Some l →
  exits_of self w = Ok l w.
Proof.
  intros HC Hx Hl. unfold exits_of, Location.get_exits, bind, load.
  rewrite HC, Hx. simpl. by rewrite Hl.
Qed.

(** What [create_twoway_link] does on two locations, whether or not their
    exit sequences are one list object. *)
Lemma create_twoway_link_run (w : World) (a b : cref) (A B : Container)
    (ra rb : bool) (ea eb : elref) (la lb : list eref) :
  containers w !! a = Some A → c_extra A = IsLocation ra ea →
  exit_lists w !! ea = Some la →
  containers w !! b = Some B → c_extra B = IsLocation rb eb →
  exit_lists w !! eb = Some lb →
  create_twoway_link a b w
  = Ok tt
      (set_exit_lists
         (λ s, <[eb := (if decide (eb = ea) then la ++ [length (exits w)] else lb)
                       ++ [S (length (exits w))]]>
                 (<[ea := la ++ [length (exits w)]]> s))
         (set_exits
            (λ s, s ++ [mkExit b ("Go to the " +:+ c_name B +:+ ".");
                        mkExit a ("Go to the " +:+ c_name A +:+ ".")]) w)).
Proof.
  intros HA HAx Hla HB HBx Hlb. unfold create_twoway_link.
  rewrite (bind_ok _ _ w tt w) by by apply (lookup_add_exit_run w a A ra ea).
  rewrite (bind_ok _ _ w (c_name B) w) by by apply (get_run containers c_name).
  set (w1 := set_exits (λ s, s ++ [mkExit b ("Go to the " +:+ c_name B +:+ ".")]) w).
  rewrite (bind_ok _ _ w (length (exits w)) w1) by done.
  set (w2 := set_exit_lists (<[ea := la ++ [length (exits w)]]>) w1).
  rewrite (bind_ok _ _ w1 tt w2) by by apply (add_exit_run w1 a A ra ea la).
  rewrite (bind_ok _ _ w2 tt w2) by by apply (lookup_add_exit_run w2 b B rb eb).
  rewrite (bind_ok _ _ w2 (c_name A) w2) by by apply (get_run containers c_name).
  set (w3 := set_exits (λ s, s ++ [mkExit a ("Go to the " +:+ c_name A +:+ ".")]) w2).
  rewrite (bind_ok _ _ w2 (S (length (exits w))) w3).
  2:{ unfold Exit.init, new_exit. f_equal. cbn. rewrite length_app. simpl. lia. }
  assert (ea < length (exit_lists w)) as Hlt by by eapply lookup_lt_Some.
  rewrite (add_exit_run w3 b B rb eb
             (if decide (eb = ea) then la ++ [length (exits w)] else lb)); [| done..|].
  - f_equal. unfold w3, w2, w1, set_exit_lists, set_exits. cbn.
    by rewrite <- app_assoc.
  - cbn. destruct (decide (eb = ea)) as [->|Hne].
    + by apply list_lookup_insert_eq.
    + by rewrite list_lookup_insert_ne.
Qed.

(** X2.  [create_twoway_link] on two locations returns normally and makes
    two new exits, one from the first location to the second and one back,
    each described as Go to the (name of the location it leads to); the
    first is appended to the exit sequence of the first location and the
    second to that of the second, after the exits that were there.  When the
    two exit sequences are one list object (a location linked to itself, or
    two locations built on the same list), both exits are appended to it, so
    each location then offers both.  Nothing but the exit objects and these
    exit sequences changes. *)
Theorem create_twoway_link_links_both_ways (w : World) (a b : cref) (A B : Container)
    (ra rb : bool) (ea eb : elref) (la lb : list eref) :
  containers w !! a = Some A → c_extra A = IsLocation ra ea →
  exit_lists w !! ea = Some la →
  containers w !! b = Some B → c_extra B = IsLocation rb eb →
  exit_lists w !! eb = Some lb →
  ∃ w' e1 e2,
    create_twoway_link a b w = Ok tt w' ∧
    e1 = length (exits w) ∧ e2 = S e1 ∧
    exits w' = exits w ++ [mkExit b ("Go to the " +:+ c_name B +:+ ".");
                           mkExit a ("Go to the " +:+ c_name A +:+ ".")] ∧
    Exit.get_to e1 w' = Ok b w' ∧ Exit.get_to e2 w' = Ok a w' ∧
    (ea ≠ eb → exits_of a w' = Ok (la ++ [e1]) w' ∧ exits_of b w' = Ok (lb ++ [e2]) w') ∧
    (ea = eb → exits_of a w' = Ok (la ++ [e1; e2]) w' ∧
               exits_of b w' = Ok (la ++ [e1; e2]) w') ∧
    (∀ r, r ≠ ea → r ≠ eb → exit_lists w' !! r = exit_lists w !! r) ∧
    item_lists w' = item_lists w ∧ containers w' = containers w ∧
    uses w' = uses w ∧ items w' = items w ∧
    stdin w' = stdin w ∧ stdout w' = stdout w.
Proof.
  intros HA HAx Hla HB HBx Hlb.
  rewrite (create_twoway_link_run w a b A B ra rb ea eb la lb) by done.
  assert (ea < length (exit_lists w)) as Hlta by by eapply lookup_lt_Some.
  assert (eb < length (exit_lists w)) as Hltb by by eapply lookup_lt_Some.
  eexists _, _, _. split; [reflexivity|]. split; [reflexivity|]. split; [reflexivity|].
  split; [done|].
  split.
  { apply (get_run exits e_to _ (mkExit b ("Go to the " +:+ c_name B +:+ "."))).
    cbn. by rewrite lookup_app_r, Nat.sub_diag. }
  split.
  { apply (get_run exits e_to _ (mkExit a ("Go to the " +:+ c_name A +:+ "."))).
    cbn. rewrite lookup_app_r by lia. by replace (S _ - _) with 1 by lia. }
  split.
  { intros Hne. rewrite decide_False by done. split.
    - apply (exits_of_run _ a A ra ea); [done..|]. cbn.
      rewrite list_lookup_insert_ne by done. by apply list_lookup_insert_eq.
    - apply (exits_of_run _ b B rb eb); [done..|]. cbn.
      apply list_lookup_insert_eq. by rewrite length_insert. }
  split.
  { intros <-. rewrite decide_True by done. rewrite <- app_assoc. cbn [app].
    assert (Hl : ∀ l : list (list eref),
               ea < length l → <[ea := la ++ [length (exits w); S (length (exits w))]]>
                                 (<[ea := la ++ [length (exits w)]]> l) !! ea
                               = Some (la ++ [length (exits w); S (length (exits w))])).
    { intros l Hl. apply list_lookup_insert_eq. by rewrite length_insert. }
    split.
    - apply (exits_of_run _ a A ra ea); [done..|]. cbn. by apply Hl.
    - apply (exits_of_run _ b B rb ea); [done..|]. cbn. by apply Hl. }
  split.
  { intros r Hra Hrb. cbn. by rewrite !list_lookup_insert_ne. }
  done.
Qed.

Lemma create_twoway_link_links_both_ways_witness :
  ∃ w', create_twoway_link 1 2 (start []) = Ok tt w' ∧
        exits_of 1 w' = Ok [3; 6; 8] w' ∧ exits_of 2 w' = Ok [1; 4; 9] w' ∧
        Exit.get_to 8 w' = Ok 2 w' ∧ Exit.get_to 9 w' = Ok 1 w'.
Proof.
  destruct (create_twoway_link_links_both_ways (start []) 1 2
              (mkContainer "Kitchen" "kitchen" 2 (IsLocation true 1))
              (mkContainer "Hall" "hall" 3 (IsLocation false 2))
              true false 1 2 [3; 6] [1; 4] eq_refl eq_refl eq_refl eq_refl eq_refl eq_refl)
    as (w' & e1 & e2 & Hrun & -> & -> & _ & Hto1 & Hto2 & Hdiff & _).
  destruct Hdiff as [Ha Hb]; [discriminate|].
  exists w'. split_and!; assumption.
Defined.

(** X3.  [create_twoway_link] is not all or nothing.  When the second
    argument is a container that is not a location (a [Player], or a plain
    [Container]) the call raises [AttributeError], but the exit from the
    first location to that container has been made and appended by then: a
    one-way exit stays behind, and it is the only exit made.  When the
    first argument is not a location the call raises [AttributeError] and
    no exit sequence has changed: nothing has. *)
Theorem create_twoway_link_half_done (w : World) (a b : cref) (A B : Container) :
  containers w !! a = Some A → containers w !! b = Some B →
  (∀ ra ea la,
     c_extra A = IsLocation ra ea → exit_lists w !! ea = Some la →
     (∀ rb eb, c_extra B ≠ IsLocation rb eb) →
     ∃ w', create_twoway_link a b w = Raise AttributeError w' ∧
           exits_of a w' = Ok (la ++ [length (exits w)]) w' ∧
           Exit.get_to (length (exits w)) w' = Ok b w' ∧
           exits w' = exits w ++ [mkExit b ("Go to the " +:+ c_name B +:+ ".")]) ∧
  ((∀ ra ea, c_extra A ≠ IsLocation ra ea) →
   ∃ w', create_twoway_link a b w = Raise AttributeError w' ∧
         exit_lists w' = exit_lists w ∧ w' = w).
Proof.
  intros HA HB. split.
  - intros ra ea la HAx Hla HBx. unfold create_twoway_link.
    rewrite (bind_ok _ _ w tt w) by by apply (lookup_add_exit_run w a A ra ea).
    rewrite (bind_ok _ _ w (c_name B) w) by by apply (get_run containers c_name).
    set (w1 := set_exits (λ s, s ++ [mkExit b ("Go to the " +:+ c_name B +:+ ".")]) w).
    rewrite (bind_ok _ _ w (length (exits w)) w1) by done.
    set (w2 := set_exit_lists (<[ea := la ++ [length (exits w)]]>) w1).
    rewrite (bind_ok _ _ w1 tt w2) by by apply (add_exit_run w1 a A ra ea la).
    unfold bind at 1. rewrite (lookup_add_exit_refused w2 b B) by done.
    exists w2. split; [done|]. split_and!.
    + apply (exits_of_run _ a A ra ea); [done..|]. cbn.
      apply list_lookup_insert_eq. by eapply lookup_lt_Some.
    + apply (get_run exits e_to _ (mkExit b ("Go to the " +:+ c_name B +:+ "."))).
      cbn. by rewrite lookup_app_r, Nat.sub_diag.
    + done.
  - intros HAx. unfold create_twoway_link.
    unfold bind at 1. rewrite (lookup_add_exit_refused w a A) by done.
    by exists w.
Qed.

Lemma create_twoway_link_half_done_witness :
  (∃ w', create_twoway_link 0 4 (start []) = Raise AttributeError w' ∧
         exits_of 0 w' = Ok [0; 2; 8] w' ∧ Exit.get_to 8 w' = Ok 4 w' ∧
         length (exits w') = 9) ∧
  (∃ w', create_twoway_link 4 0 (start []) = Raise AttributeError w' ∧
         exit_lists w' = exit_lists (start []) ∧ w' = start []).
Proof.
  destruct (create_twoway_link_half_done (start []) 0 4
              (mkContainer "Lounge" "lounge" 1 (IsLocation true 0))
              (mkContainer "Ann" "You are you." 5 (IsPlayer (Some 0)))
              eq_refl eq_refl) as [Hhalf _].
  destruct (create_twoway_link_half_done (start []) 4 0
              (mkContainer "Ann" "You are you." 5 (IsPlayer (Some 0)))
              (mkContainer "Lounge" "lounge" 1 (IsLocation true 0))
              eq_refl eq_refl) as [_ Hnone].
  split.
  - destruct (Hhalf true 0 [0; 2]) as (w' & Hrun & Hex & Hto & Hall);
      [reflexivity|reflexivity|discriminate|].
    exists w'. split_and!; [done..|]. by rewrite Hall.
  - apply Hnone. discriminate.
Defined.

Lemma get_location_run (w : World) (self : cref) (P : Container) (l : option cref) :
  containers w !! self = Some P → c_extra P = IsPlayer l →
  Player.get_location self w = Ok l w.
Proof.
  intros HP Hx. unfold Player.get_location, bind, load, ret. by rewrite HP, Hx.
Qed.

Lemma canonical_go (its : list iref) (exs : list eref) (n : nat) (ex : eref) :
  canonical its exs !! n = Some (Go ex) → ex ∈ exs.
Proof.
  intros H. apply list_elem_of_lookup_2, elem_of_canonical in H
    as [?|[?|[(item & ? & _)|(ex' & [= ->] & Hex)]]]; done.
Qed.

(** X4.  A turn in which the [Go] action of an exit is selected returns
    normally; afterwards the player's location is the container the exit
    leads to, and the last line written is You go to the (its name).  The
    move changes the player object only: every item sequence (so the
    player's inventory, which travels with the player, and the items of
    every room), every exit, every use and every other container is as it
    was, and the lines after the accepted one are still to be read. *)
Theorem go_moves_the_player_only (extern : nat → M unit) (w : World) (self loc : cref)
    (its : list iref) (exs : list eref) (bad : list string) (s : string)
    (rest : list string) (k : Z) (ex : eref) :
  closed w → stands_in w self loc its exs →
  stdin w = bad ++ s :: rest →
  Forall (λ b, choice_of (len (canonical its exs)) b = None) bad →
  choice_of (len (canonical its exs)) s = Some k →
  canonical its exs !! Z.to_nat (k - 1) = Some (Go ex) →
  ∃ w' E C,
    exits w !! ex = Some E ∧ containers w !! e_to E = Some C ∧
    Player.turn extern self w = Ok tt w' ∧
    Player.get_location self w' = Ok (Some (e_to E)) w' ∧
    last (stdout w') = Some (Line ("You go to the " +:+ c_name C +:+ ".")) ∧
    stdin w' = rest ∧
    item_lists w' = item_lists w ∧ exit_lists w' = exit_lists w ∧
    exits w' = exits w ∧ uses w' = uses w ∧ items w' = items w ∧
    item_list_of w' self = item_list_of w self ∧
    (∀ c, c ≠ self → containers w' !! c = containers w !! c).
Proof.
  intros Hcl Hst Hin Hbad Hk Ha.
  destruct (turn_run extern w self loc its exs bad s rest k (Go ex))
    as [out Hturn]; [done..|].
  pose proof (canonical_go _ _ _ _ Ha) as Hex.
  destruct Hst as (P & L & room & er & HP & HPx & HL & HLx & Hits & Hexs).
  destruct (closed_exit w er exs ex Hcl Hexs Hex) as (E & C & HE & HC).
  rewrite (go_run extern (advance rest out w) self P (Some loc) ex E C) in Hturn by done.
  assert (self < length (containers w)) as Hlt by by eapply lookup_lt_Some.
  eexists _, E, C. split; [done|]. split; [done|]. split; [exact Hturn|].
  split_and!; try done.
  - eapply get_location_run; [cbn; by apply list_lookup_insert_eq|done].
  - cbn. apply last_snoc.
  - unfold item_list_of. cbn. rewrite list_lookup_insert_eq by done. by rewrite HP.
  - intros c Hc. cbn. by rewrite list_lookup_insert_ne.
Qed.

Lemma go_moves_the_player_only_witness :
  ∃ w', Player.turn quiet 4 (start ["5"]) = Ok tt w' ∧
        Player.get_location 4 w' = Ok (Some 1) w' ∧
        last (stdout w') = Some (Line "You go to the Kitchen.") ∧
        item_lists w' = item_lists (start ["5"]).
Proof.
  destruct (go_moves_the_player_only quiet (start ["5"]) 4 0 [0] [0; 2] [] "5" [] 5%Z 2)
    as (w' & E & C & HE & HC & Hrun & Hloc & Hlast & _ & Hlists & _).
  - vm_compute. repeat constructor.
  - exists (mkContainer "Ann" "You are you." 5 (IsPlayer (Some 0))),
      (mkContainer "Lounge" "lounge" 1 (IsLocation true 0)), true, 0.
    vm_compute. repeat split.
  - reflexivity.
  - constructor.
  - reflexivity.
  - reflexivity.
  - vm_compute in HE. injection HE as <-.
    vm_compute in HC. injection HC as <-.
    exists w'. split_and!; assumption.
Defined.

(** X5.  Two locations linked by [create_twoway_link] are linked both ways
    for the player too: a player standing in the first finds the new exit
    among its exits, going through it puts the player in the second, where
    the exit back is among the exits, and going through that one puts the
    player in the first again, with every object as it was after the
    linking. *)
Theorem linked_locations_round_trip (extern : nat → M unit) (w : World)
    (self a b : cref) (P A B : Container)
    (ra rb : bool) (ea eb : elref) (la lb : list eref) :
  containers w !! self = Some P → c_extra P = IsPlayer (Some a) →
  containers w !! a = Some A → c_extra A = IsLocation ra ea →
  exit_lists w !! ea = Some la →
  containers w !! b = Some B → c_extra B = IsLocation rb eb →
  exit_lists w !! eb = Some lb →
  ∃ w1 w2 w3 l1 l2,
    create_twoway_link a b w = Ok tt w1 ∧
    exits_of a w1 = Ok l1 w1 ∧ length (exits w) ∈ l1 ∧
    Player.perform extern self (Go (length (exits w))) w1 = Ok tt w2 ∧
    Player.get_location self w2 = Ok (Some b) w2 ∧
    exits_of b w2 = Ok l2 w2 ∧ S (length (exits w)) ∈ l2 ∧
    Player.perform extern self (Go (S (length (exits w)))) w2 = Ok tt w3 ∧
    Player.get_location self w3 = Ok (Some a) w3 ∧
    same_objects w1 w3.
Proof.
  intros HP HPx HA HAx Hla HB HBx Hlb.
  rewrite (create_twoway_link_run w a b A B ra rb ea eb la lb) by done.
  set (E1 := mkExit b ("Go to the " +:+ c_name B +:+ ".")).
  set (E2 := mkExit a ("Go to the " +:+ c_name A +:+ ".")).
  set (l2 := (if decide (eb = ea) then la ++ [length (exits w)] else lb)
             ++ [S (length (exits w))]).
  set (l1 := if decide (eb = ea) then l2 else la ++ [length (exits w)]).
  set (w1 := set_exit_lists _ _).
  assert (ea < length (exit_lists w)) as Hlta by by eapply lookup_lt_Some.
  assert (eb < length (exit_lists w)) as Hltb by by eapply lookup_lt_Some.
  assert (self < length (containers w)) as Hlts by by eapply lookup_lt_Some.
  assert (exits w1 !! length (exits w) = Some E1) as HE1.
  { cbn. by rewrite lookup_app_r, Nat.sub_diag. }
  assert (exits w1 !! S (length (exits w)) = Some E2) as HE2.
  { cbn. rewrite lookup_app_r by lia. by replace (S _ - _) with 1 by lia. }
  assert (exit_lists w1 !! ea = Some l1) as Hl1.
  { cbn. unfold l1. destruct (decide (eb = ea)) as [->|Hne].
    - apply list_lookup_insert_eq. by rewrite length_insert.
    - rewrite list_lookup_insert_ne by done. by apply list_lookup_insert_eq. }
  assert (exit_lists w1 !! eb = Some l2) as Hl2.
  { cbn. apply list_lookup_insert_eq. by rewrite length_insert. }
  set (Pb := mkContainer (c_name P) (c_description P) (c_items P) (IsPlayer (Some b))).
  set (w2 := set_containers (<[self := Pb]>)
               (says [Line ("You go to the " +:+ c_name B +:+ ".")] w1)).
  assert (self ≠ a) as Hsa by (intros ->; congruence).
  assert (self ≠ b) as Hsb by (intros ->; congruence).
  assert (containers w2 !! self = Some Pb) as HP2.
  { cbn. by apply list_lookup_insert_eq. }
  set (w3 := set_containers
               (<[self := mkContainer (c_name Pb) (c_description Pb) (c_items Pb)
                            (IsPlayer (Some a))]>)
               (says [Line ("You go to the " +:+ c_name A +:+ ".")] w2)).
  exists w1, w2, w3, l1, l2.
  split_and!.
  - done.
  - by apply (exits_of_run w1 a A ra ea).
  - unfold l1, l2. destruct (decide (eb = ea));
      rewrite !elem_of_app, !list_elem_of_singleton; naive_solver.
  - by apply (go_run extern w1 self P (Some a) _ E1 B).
  - by apply (get_location_run w2 self Pb).
  - apply (exits_of_run w2 b B rb eb); [|done..].
    cbn. by rewrite list_lookup_insert_ne.
  - unfold l2. rewrite elem_of_app, list_elem_of_singleton. by right.
  - apply (go_run extern w2 self Pb (Some b) _ E2 A); [done..|].
    cbn. by rewrite list_lookup_insert_ne.
  - eapply get_location_run; [cbn; apply list_lookup_insert_eq; by rewrite length_insert|done].
  - unfold same_objects, objects. cbn. repeat f_equal.
    rewrite list_insert_insert_eq. apply list_insert_id.
    rewrite HP. f_equal. destruct P. simpl in *. by subst.
Qed.

Lemma linked_locations_round_trip_witness :
  ∃ w1 w2 w3,
    create_twoway_link 0 3 (start []) = Ok tt w1 ∧
    Player.perform quiet 4 (Go 8) w1 = Ok tt w2 ∧
    Player.get_location 4 w2 = Ok (Some 3) w2 ∧
    Player.perform quiet 4 (Go 9) w2 = Ok tt w3 ∧
    Player.get_location 4 w3 = Ok (Some 0) w3.
Proof.
  destruct (linked_locations_round_trip quiet (start []) 4 0 3
              (mkContainer "Ann" "You are you." 5 (IsPlayer (Some 0)))
              (mkContainer "Lounge" "lounge" 1 (IsLocation true 0))
              (mkContainer "Dining Room" "dining room" 4 (IsLocation true 3))
              true true 0 3 [0; 2] [5; 7]
              eq_refl eq_refl eq_refl eq_refl eq_refl eq_refl eq_refl eq_refl)
    as (w1 & w2 & w3 & l1 & l2 & Hlink & _ & _ & Hgo & Hloc & _ & _ & Hback & Hloc' & _).
  exists w1, w2, w3. split_and!; assumption.
Defined.

(** *** What the game loop leaves as it was *)

Section KeepsLoop.
Context (R : relation World) `{!PreOrder R}.
Variable self : cref.
Hypothesis R_console : console_free R.
Hypothesis R_removal : removal_free R.
Hypothesis R_gain : gain_free self R.
Hypothesis R_owner : owner_free self R.
Hypothesis R_move : move_free self R.
Variable extern : nat → M unit.
Hypothesis R_extern : ∀ n, keeps R (extern n).

Lemma keeps_take (item : iref) : keeps R (Player.perform extern self (Take item)).
Proof.
  unfold Player.perform.
  apply (keeps_bind R); [apply (keeps_get R)|]. intros n.
  apply (keeps_bind R); [by apply (keeps_print R)|]. intros _.
  apply (keeps_bind R); [apply (keeps_get_location R)|]. intros location.
  apply (keeps_bind R); [apply (keeps_not_none R)|]. intros l.
  apply (keeps_bind R); [by apply (keeps_remove_item R)|]. intros _.
  apply (keeps_bind R).
  { intros w. unfold Container.add_item, bind, load, modify.
    destruct (containers w !! self) as [P|] eqn:HP; simpl; [|reflexivity].
    destruct (item_lists w !! c_items P) as [lp|] eqn:Hlp; simpl; [|reflexivity].
    by apply R_gain. }
  intros _. apply (keeps_bind R); [apply (keeps_get R)|]. intros use.
  intros w. unfold ItemUse.set_virtual_location, bind, load, modify.
  destruct (uses w !! use) as [U|] eqn:HU; simpl; [|reflexivity].
  by apply R_owner.
Qed.

Lemma keeps_go (ex : eref) : keeps R (Player.perform extern self (Go ex)).
Proof.
  unfold Player.perform.
  apply (keeps_bind R); [apply (keeps_get R)|]. intros to.
  apply (keeps_bind R); [apply (keeps_get R)|]. intros n.
  apply (keeps_bind R); [by apply (keeps_print R)|]. intros _.
  apply (keeps_bind R); [apply (keeps_get R)|]. intros to'.
  intros w. unfold Player.set_location, bind, load, modify.
  destruct (containers w !! self) as [P|] eqn:HP; simpl; [|reflexivity].
  destruct (c_extra P) as [| |l] eqn:HPx; simpl; [reflexivity..|].
  by eapply R_move.
Qed.

Lemma keeps_perform (a : PlayerAction) : keeps R (Player.perform extern self a).
Proof.
  destruct a as [| |item|ex].
  - apply (keeps_bind R); [by apply (keeps_print R)|]. intros _. apply (keeps_raise R).
  - by apply (keeps_enter_inventory R).
  - apply keeps_take.
  - apply keeps_go.
Qed.

Lemma keeps_turn : keeps R (Player.turn extern self).
Proof.
  unfold Player.turn.
  apply (keeps_bind R); [by apply (keeps_print R)|]. intros _.
  apply (keeps_bind R); [by apply (keeps_print_location R)|]. intros _.
  apply (keeps_bind R); [by apply (keeps_print R)|]. intros _.
  apply (keeps_bind R); [by apply (keeps_print_and_get_actions R)|]. intros actions.
  apply (keeps_bind R); [by apply (keeps_print R)|]. intros _.
  apply (keeps_bind R); [by apply (keeps_print R)|]. intros _.
  apply (keeps_bind R); [by apply (keeps_select R)|]. intros action.
  apply (keeps_bind R); [apply (keeps_minus R)|]. intros k.
  apply (keeps_bind R); [apply (keeps_py_index R)|]. intros a.
  apply keeps_perform.
Qed.

Lemma keeps_prompt (depth : nat) : keeps R (Player.prompt extern depth self).
Proof.
  induction depth as [|depth IH]; simpl.
  - apply (keeps_raise R).
  - apply (keeps_bind R); [apply keeps_turn|]. intros _. apply IH.
Qed.
End KeepsLoop.

Lemma fixtures_off_console : off_console fixtures.
Proof. by split. Qed.

Lemma fixtures_owner_free (self : cref) : owner_free self (same_at fixtures).
Proof.
  intros w u U HU. unfold same_at, fixtures. cbn. f_equal.
  rewrite list_fmap_insert. apply list_insert_id.
  by rewrite list_lookup_fmap, HU.
Qed.

Lemma fixtures_move_free (self : cref) : move_free self (same_at fixtures).
Proof.
  intros w P l loc HP HPx. unfold same_at, fixtures. cbn. do 2 f_equal.
  rewrite list_fmap_insert. apply list_insert_id.
  rewrite list_lookup_fmap, HP. cbn. by rewrite HPx.
Qed.

(** X6.  Provided the callables that are not the program's own leave the
    fixtures alone, so does any run of the game loop, however long and
    however it ends: no exit and no exit sequence changes, no item object
    changes, no container changes its name, its description, its list
    object or what it is (a player stays a player, a location keeps its
    exit sequence), and no use changes its name, its description, its item,
    its destroy flag or its callable.  All a game changes is where the
    player stands, what the item sequences hold, and who owns. *)
Theorem game_loop_keeps_fixtures (extern : nat → M unit) (self : cref) :
  (∀ n, preserves fixtures (extern n)) →
  ∀ depth w, fixtures (world_of (Player.prompt extern depth self w)) = fixtures w.
Proof.
  intros Hext depth w.
  apply (keeps_prompt (same_at fixtures) self).
  - apply same_at_console_free, fixtures_off_console.
  - by apply same_at_removal_free.
  - by intros w0 P l x _ _.
  - apply fixtures_owner_free.
  - apply fixtures_move_free.
  - exact Hext.
Qed.

Lemma game_loop_keeps_fixtures_witness :
  fixtures (world_of (Player.prompt quiet 5 4 (start ["3"; "5"; "2"; "2"; "1"])))
  = fixtures (start ["3"; "5"; "2"; "2"; "1"]).
Proof.
  apply (game_loop_keeps_fixtures quiet 4 (quiet_preserves fixtures)).
Defined.

#[global] Instance only_shrinks_preorder (self : cref) : PreOrder (only_shrinks self).
Proof.
  split.
  - intros w. split_and!; [done..|]. intros r l' _ Hl'. by exists l'.
  - intros w1 w2 w3 (Ha1 & Hb1 & Hc1) (Ha2 & Hb2 & Hc2).
    split_and!; [congruence..|]. intros r l3 Hr Hl3.
    destruct (Hc2 r l3) as (l2 & Hl2 & Hs2); [by rewrite Ha1|done|].
    destruct (Hc1 r l2 Hr Hl2) as (l1 & Hl1 & Hs1).
    exists l1. split; [done|by etrans].
Qed.

Lemma only_shrinks_same (self : cref) (w w' : World) :
  objects w' = objects w → only_shrinks self w w'.
Proof.
  intros [= Hl _ Hc _ _ _]. unfold only_shrinks, item_list_of. rewrite Hl, Hc.
  split_and!; [done..|]. intros r l' _ Hl'. by exists l'.
Qed.

Lemma only_shrinks_console_free (self : cref) : console_free (only_shrinks self).
Proof. split; intros g w; by apply only_shrinks_same. Qed.

Lemma only_shrinks_removal_free (self : cref) : removal_free (only_shrinks self).
Proof.
  intros w r l x l' Hl Hrm. split_and!; [done|by cbn; rewrite length_insert|].
  cbn. intros r0 l0 _ H0. destruct (decide (r0 = r)) as [->|Hne].
  - rewrite list_lookup_insert_eq in H0 by by eapply lookup_lt_Some.
    injection H0 as <-. exists l. split; [done|by eapply list_remove_sublist].
  - rewrite list_lookup_insert_ne in H0 by done. by exists l0.
Qed.

Lemma only_shrinks_gain_free (self : cref) : gain_free self (only_shrinks self).
Proof.
  intros w P l x HP Hl. split_and!; [done|by cbn; rewrite length_insert|].
  cbn. intros r0 l0 Hr0 H0. unfold item_list_of in Hr0. rewrite HP in Hr0. cbn in Hr0.
  rewrite list_lookup_insert_ne in H0 by congruence. by exists l0.
Qed.

Lemma only_shrinks_owner_free (self : cref) : owner_free self (only_shrinks self).
Proof.
  intros w u U HU. split_and!; [done..|]. cbn. intros r0 l0 _ H0. by exists l0.
Qed.

Lemma only_shrinks_move_free (self : cref) : move_free self (only_shrinks self).
Proof.
  intros w P l loc HP HPx. split_and!; [|done|].
  - unfold item_list_of. cbn.
    rewrite list_lookup_insert_eq by by eapply lookup_lt_Some. by rewrite HP.
  - cbn. intros r0 l0 _ H0. by exists l0.
Qed.

Lemma objects_fixtures {A} (m : M A) : preserves objects m → preserves fixtures m.
Proof.
  intros H w. specialize (H w). unfold same_at, objects, fixtures in *.
  injection H as H1 H2 H3 H4 H5 H6. by rewrite H2, H3, H4, H5, H6.
Qed.

Lemma fixtures_item_list (w w' : World) (c : cref) :
  fixtures w' = fixtures w → item_list_of w' c = item_list_of w c.
Proof.
  intros [= _ _ _ Hc _]. unfold item_list_of.
  apply (f_equal (λ s, (λ x : string * string * lref * Extra, x.1.2) <$> s !! c)) in Hc.
  rewrite !list_lookup_fmap in Hc.
  destruct (containers w' !! c), (containers w !! c); simpl in *; congruence.
Qed.

(** X7.  The game has no way of putting an item down.  Provided the
    callables that are not the program's own change nothing but the
    console, in any run of the game loop, however long and however it ends,
    the item sequence of every container that does not share its list object
    with the player only ever loses items: what it holds afterwards is a
    sublist (the same order, some entries gone) of what it held before. *)
Theorem rooms_only_lose_items (extern : nat → M unit) (self : cref) :
  (∀ n, preserves objects (extern n)) →
  ∀ depth w c l',
    item_list_of w c ≠ item_list_of w self →
    holds (world_of (Player.prompt extern depth self w)) c l' →
    ∃ l, holds w c l ∧ l' `sublist_of` l.
Proof.
  intros Hext depth w c l' Hne (C' & HC' & Hl').
  assert (fixtures (world_of (Player.prompt extern depth self w)) = fixtures w) as Hfix.
  { apply (keeps_prompt (same_at fixtures) self).
    - apply same_at_console_free, fixtures_off_console.
    - by apply same_at_removal_free.
    - by intros w0 P l x _ _.
    - apply fixtures_owner_free.
    - apply fixtures_move_free.
    - intros n. apply objects_fixtures, Hext. }
  assert (only_shrinks self w (world_of (Player.prompt extern depth self w)))
    as (_ & _ & Hshrink).
  { apply (keeps_prompt (only_shrinks self) self).
    - apply only_shrinks_console_free.
    - apply only_shrinks_removal_free.
    - apply only_shrinks_gain_free.
    - apply only_shrinks_owner_free.
    - apply only_shrinks_move_free.
    - intros n w0. apply only_shrinks_same, Hext. }
  pose proof (fixtures_item_list _ _ c Hfix) as Hc.
  unfold item_list_of in Hc, Hne. rewrite HC' in Hc. cbn in Hc.
  destruct (containers w !! c) as [C|] eqn:HC; [|done]. injection Hc as Hc.
  destruct (Hshrink (c_items C') l') as (l & Hl & Hs); [|done|].
  { rewrite Hc. intros Heq. apply Hne. exact Heq. }
  exists l. split; [|done]. exists C. split; [done|by rewrite <- Hc].
Qed.

Lemma rooms_only_lose_items_witness :
  ∃ l, holds (start ["3"; "4"; "4"; "1"]) 1 l ∧ [1] `sublist_of` l.
Proof.
  apply (rooms_only_lose_items quiet 4 (quiet_preserves objects) 4
           (start ["3"; "4"; "4"; "1"]) 1 [1]).
  - vm_compute. discriminate.
  - exists (mkContainer "Kitchen" "kitchen" 2 (IsLocation true 1)).
    vm_compute. split; reflexivity.
Defined.

(** *** The take action as a whole *)

(** The state the [Take] branch leaves. *)
Lemma take_exact (extern : nat → M unit) (w : World) (self loc : cref)
    (P L : Container) (I : Item) (U : ItemUse) (ll lp : list iref) (item : iref) :
  containers w !! self = Some P → c_extra P = IsPlayer (Some loc) →
  containers w !! loc = Some L →
  item_lists w !! c_items L = Some ll →
  item_lists w !! c_items P = Some lp →
  c_items P ≠ c_items L →
  items w !! item = Some I → uses w !! i_use I = Some U →
  Player.perform extern self (Take item) w
  = Ok tt (mkWorld
             (<[c_items P := lp ++ [item]]>
                (<[c_items L := without_first item ll]> (item_lists w)))
             (exit_lists w) (containers w) (exits w)
             (<[i_use I := mkItemUse (u_name U) (u_description U) (u__item U)
                             (u__destroy_on_execute U) (Some self) (u_execute U)]>
                (uses w))
             (items w) (stdin w)
             (stdout w ++ [Line ("You take the " +:+ i_name I +:+ ".")])).
Proof.
  intros HP HPx HL Hll Hlp Hne HI HU.
  unfold Player.perform.
  set (w1 := says [Line ("You take the " +:+ i_name I +:+ ".")] w).
  destruct (remove_item_without_first w1 loc L ll item HL Hll)
    as (w2 & Hrm & _ & Hl2 & Hel2 & Hc2 & He2 & Hu2 & Hi2 & Hin2 & Hout2).
  assert (item_lists w2 !! c_items P = Some lp) as Hlp2.
  { rewrite Hl2. by rewrite list_lookup_insert_ne. }
  assert (containers w2 !! self = Some P) as HP2 by by rewrite Hc2.
  set (w3 := set_item_lists (<[c_items P := lp ++ [item]]>) w2).
  rewrite (bind_ok _ _ w (i_name I) w) by by apply (get_run items i_name).
  rewrite (bind_ok _ _ w tt w1) by done.
  rewrite (bind_ok _ _ w1 (Some loc) w1) by by apply (get_location_run w1 self P).
  rewrite (bind_ok _ _ w1 loc w1) by done.
  rewrite (bind_ok _ _ w1 tt w2) by done.
  rewrite (bind_ok _ _ w2 tt w3) by by apply (add_item_run w2 self P lp).
  rewrite (bind_ok _ _ w3 (i_use I) w3).
  2:{ apply (get_run items i_use). cbn. by rewrite Hi2. }
  unfold ItemUse.set_virtual_location, bind, load, modify.
  cbn [uses w3 set_item_lists]. rewrite Hu2. cbn [uses w1 says set_stdout].
  rewrite HU. f_equal. unfold w3, set_uses, set_item_lists. cbn.
  by rewrite Hl2, Hel2, Hc2, He2, Hu2, Hi2, Hin2, Hout2.
Qed.

Lemma canonical_take (its : list iref) (exs : list eref) (n : nat) (item : iref) :
  canonical its exs !! n = Some (Take item) → item ∈ its.
Proof.
  intros H. apply list_elem_of_lookup_2, elem_of_canonical in H
    as [?|[?|[(item' & [= ->] & Hitem)|(ex & ? & _)]]]; done.
Qed.

(** X8.  A turn in which the [Take] action of an item is selected, by a
    player whose item sequence is another list object than the location's,
    returns normally and moves one entry: the location's item sequence
    loses the first entry that is this item, the other entries staying in
    their order; the item is appended at the end of the player's item
    sequence; the owner reference of the item's use becomes the player; and
    the last line written says You take the (name of the item).  Nothing
    else changes: every other container holds what it held, every other
    use, every container (so where the player stands), every exit and every
    item object is as it was, and the lines after the accepted one are
    still to be read. *)
Theorem take_moves_one_entry (extern : nat → M unit) (w : World) (self loc : cref)
    (its : list iref) (exs : list eref) (lp : list iref) (bad : list string)
    (s : string) (rest : list string) (k : Z) (item : iref) :
  closed w → stands_in w self loc its exs → holds w self lp →
  item_list_of w self ≠ item_list_of w loc →
  stdin w = bad ++ s :: rest →
  Forall (λ b, choice_of (len (canonical its exs)) b = None) bad →
  choice_of (len (canonical its exs)) s = Some k →
  canonical its exs !! Z.to_nat (k - 1) = Some (Take item) →
  ∃ w' I,
    Player.turn extern self w = Ok tt w' ∧ items w !! item = Some I ∧
    holds w' loc (without_first item its) ∧
    holds w' self (lp ++ [item]) ∧
    owner_in w' (i_use I) = Some (Some self) ∧
    last (stdout w') = Some (Line ("You take the " +:+ i_name I +:+ ".")) ∧
    (∀ c l, holds w c l → item_list_of w c ≠ item_list_of w loc →
            item_list_of w c ≠ item_list_of w self → holds w' c l) ∧
    (∀ u, u ≠ i_use I → uses w' !! u = uses w !! u) ∧
    containers w' = containers w ∧ exits w' = exits w ∧
    exit_lists w' = exit_lists w ∧ items w' = items w ∧
    stdin w' = rest.
Proof.
  intros Hcl Hst (P' & HP' & Hlp) Hdiff Hin Hbad Hk Ha.
  destruct (turn_run extern w self loc its exs bad s rest k (Take item))
    as [out Hturn]; [done..|].
  pose proof (canonical_take _ _ _ _ Ha) as Hitem.
  destruct Hst as (P & L & room & er & HP & HPx & HL & HLx & Hits & Hexs).
  assert (P' = P) as -> by congruence.
  assert (c_items P ≠ c_items L) as Hne.
  { intros Heq. apply Hdiff. unfold item_list_of. rewrite HP, HL. simpl. by rewrite Heq. }
  destruct (closed_item w _ its item Hcl Hits Hitem) as (I & U & HI & HU).
  rewrite (take_exact extern (advance rest out w) self loc P L I U its lp item) in Hturn
    by done.
  assert (c_items L < length (item_lists w)) as HLlt by by eapply lookup_lt_Some.
  assert (c_items P < length (item_lists w)) as HPlt by by eapply lookup_lt_Some.
  eexists _, I. split; [exact Hturn|]. split; [done|]. split_and!; try done.
  - exists L. split; [done|]. cbn.
    rewrite list_lookup_insert_ne by done. by apply list_lookup_insert_eq.
  - exists P. split; [done|]. cbn.
    apply list_lookup_insert_eq. by rewrite length_insert.
  - unfold owner_in. cbn.
    rewrite list_lookup_insert_eq by by eapply lookup_lt_Some. done.
  - cbn. apply last_snoc.
  - intros c l (C & HC & Hl) HcL HcP. exists C. split; [done|]. cbn.
    unfold item_list_of in HcL, HcP. rewrite HC in HcL, HcP. rewrite HL in HcL.
    rewrite HP in HcP. cbn in HcL, HcP.
    rewrite !list_lookup_insert_ne by congruence. done.
  - intros u Hu. cbn. by rewrite list_lookup_insert_ne.
Qed.

Lemma take_moves_one_entry_witness :
  ∃ w', Player.turn quiet 1 (twice ["3"]) = Ok tt w' ∧
        holds w' 0 [0] ∧ holds w' 1 [1; 1; 0] ∧ owner_in w' 0 = Some (Some 1) ∧
        last (stdout w') = Some (Line "You take the Cherry.").
Proof.
  destruct (take_moves_one_entry quiet (twice ["3"]) 1 0 [0; 0] [] [1; 1] [] "3" [] 3%Z 0)
    as (w' & I & Hrun & HI & Hloc & Hself & Hown & Hlast & _).
  - vm_compute. repeat constructor.
  - exists (mkContainer "Ann" "" 2 (IsPlayer (Some 0))),
      (mkContainer "Bowl" "" 1 (IsLocation true 0)), true, 0.
    vm_compute. repeat split.
  - exists (mkContainer "Ann" "" 2 (IsPlayer (Some 0))).
    vm_compute. repeat split.
  - vm_compute. discriminate.
  - reflexivity.
  - constructor.
  - reflexivity.
  - reflexivity.
  - vm_compute in HI. injection HI as <-.
    exists w'. split_and!; assumption.
Defined.

(** *** How the game loop ends *)

(** X9.  A turn in which the first entry, [Quit], is selected writes
    Goodbye! and raises [SystemExit], and so does the game loop at any depth
    that allows a turn: no further turn is taken.  Every object is as it
    was, and the lines after the accepted one are left unread. *)
Theorem quit_ends_the_game (extern : nat → M unit) (w : World) (self loc : cref)
    (its : list iref) (exs : list eref) (bad : list string) (s : string)
    (rest : list string) (depth : nat) :
  closed w → stands_in w self loc its exs →
  stdin w = bad ++ s :: rest →
  Forall (λ b, choice_of (len (canonical its exs)) b = None) bad →
  choice_of (len (canonical its exs)) s = Some 1%Z →
  ∃ out,
    Player.prompt extern (S depth) self w
    = Raise SystemExit (advance rest (out ++ [Line "Goodbye!"]) w) ∧
    same_objects w (advance rest (out ++ [Line "Goodbye!"]) w).
Proof.
  intros Hcl Hst Hin Hbad Hk.
  destruct (turn_run extern w self loc its exs bad s rest 1%Z Quit)
    as [out Hturn]; [done..|].
  exists out. split; [|done].
  cbn [Player.prompt]. unfold bind. rewrite Hturn.
  unfold Player.perform, bind, print, modify, raise.
  by rewrite <- says_advance_after.
Qed.

Lemma quit_ends_the_game_witness :
  ∃ out,
    Player.prompt quiet 7 4 (start ["9"; "1"; "3"])
    = Raise SystemExit (advance ["3"] (out ++ [Line "Goodbye!"]) (start ["9"; "1"; "3"])).
Proof.
  destruct (quit_ends_the_game quiet (start ["9"; "1"; "3"]) 4 0 [0] [0; 2]
              ["9"] "1" ["3"] 6) as (out & Hrun & _).
  - vm_compute. repeat constructor.
  - exists (mkContainer "Ann" "You are you." 5 (IsPlayer (Some 0))),
      (mkContainer "Lounge" "lounge" 1 (IsLocation true 0)), true, 0.
    vm_compute. repeat split.
  - reflexivity.
  - repeat constructor.
  - reflexivity.
  - exists out. exact Hrun.
Defined.

(** X10.  The game loop never returns normally: whatever the state, the
    callables and the depth, [prompt] ends by raising, and what it raises is
    either what one of its turns raised or the [RecursionError] of the
    nested calls.  A statement placed after the call of [prompt] is never
    reached. *)
Theorem game_loop_never_returns (extern : nat → M unit) (depth : nat) (self : cref)
    (w : World) :
  ∃ e w', Player.prompt extern depth self w = Raise e w' ∧
          (e = RecursionError ∨ ∃ w0, Player.turn extern self w0 = Raise e w').
Proof.
  revert w. induction depth as [|depth IH]; intros w.
  - exists RecursionError, w. split; [done|by left].
  - cbn [Player.prompt]. unfold bind.
    destruct (Player.turn extern self w) as [[] w1|e w1] eqn:Hturn.
    + apply IH.
    + exists e, w1. split; [done|]. right. by exists w.
Qed.

Lemma bind_raise {A B} (m : M A) (k : A → M B) (w : World) (e : Exn) (w' : World) :
  m w = Raise e w' → bind m k w = Raise e w'.
Proof. intros H. unfold bind. by rewrite H. Qed.

(** X11.  A player comes out of its constructor standing nowhere, and until
    [set_location] is called it cannot play: [print_location] raises
    [AttributeError] having written nothing, [print_and_get_actions] raises
    it after the five lines that come before the items, the game loop
    raises it after the line of equals signs, and the [Take] branch raises
    it after announcing a take that has not happened. *)
Theorem unplaced_player_cannot_play (extern : nat → M unit) (name description : string)
    (its : lref) (depth : nat) (w : World) :
  ∃ self w1,
    Player.init name description its w = Ok self w1 ∧
    Player.get_location self w1 = Ok None w1 ∧
    Player.print_location self w1 = Raise AttributeError w1 ∧
    Player.print_and_get_actions self w1
    = Raise AttributeError
        (says [Line "Actions:"; Line "  (1) Quit"; Line "  (2) Inventory"; Line "";
               Line "Items:"] w1) ∧
    Player.prompt extern (S depth) self w1
    = Raise AttributeError (says [Line (string_repeat "=" 30)] w1) ∧
    (∀ item I, items w !! item = Some I →
       Player.perform extern self (Take item) w1
       = Raise AttributeError (says [Line ("You take the " +:+ i_name I +:+ ".")] w1) ∧
       item_lists (says [Line ("You take the " +:+ i_name I +:+ ".")] w1) = item_lists w).
Proof.
  set (P := mkContainer name description its (IsPlayer None)).
  set (w1 := set_containers (λ s, s ++ [P]) w).
  assert (∀ out, Player.get_location (length (containers w)) (says out w1)
                 = Ok None (says out w1)) as Hloc.
  { intros out. apply (get_location_run _ _ P); [|done].
    cbn. by rewrite lookup_app_r, Nat.sub_diag. }
  assert (∀ out, Player.print_location (length (containers w)) (says out w1)
                 = Raise AttributeError (says out w1)) as Hpl.
  { intros out. unfold Player.print_location. by rewrite (bind_ok _ _ _ _ _ (Hloc out)). }
  pose proof (Hloc []) as Hloc0. rewrite says_nil in Hloc0.
  exists (length (containers w)), w1. split_and!.
  - done.
  - done.
  - specialize (Hpl []). by rewrite says_nil in Hpl.
  - unfold Player.print_and_get_actions. rewrite (bind_ok _ _ _ _ _ Hloc0).
    unfold bind, print, modify, not_none, raise. f_equal.
    unfold says, set_stdout. cbn. by rewrite <- !app_assoc.
  - cbn [Player.prompt]. apply bind_raise. unfold Player.turn.
    rewrite (bind_ok _ _ w1 tt (says [Line (string_repeat "=" 30)] w1)) by done.
    apply bind_raise, Hpl.
  - intros item I HI. split; [|done]. unfold Player.perform.
    rewrite (bind_ok _ _ w1 (i_name I) w1) by by apply (get_run items i_name).
    rewrite (bind_ok _ _ w1 tt (says [Line ("You take the " +:+ i_name I +:+ ".")] w1))
      by done.
    by rewrite (bind_ok _ _ _ _ _ (Hloc _)).
Qed.

(** *** Items and their uses *)

Lemma item_init_run (name description : string) (use : uref) (U : ItemUse) (w : World) :
  uses w !! use = Some U →
  Item.init name description use w
  = Ok (length (items w))
      (set_uses (<[use := mkItemUse (u_name U) (u_description U)
                            (Some (length (items w))) (u__destroy_on_execute U)
                            (u_virtual_location U) (u_execute U)]>)
         (set_items (λ s, s ++ [mkItem name description use]) w)).
Proof.
  intros HU. unfold Item.init, bind, new_item, ItemUse.set_item, bind, load, modify, ret.
  cbn [uses set_items]. by rewrite HU.
Qed.

(** X12.  A use belongs to the item constructed with it last.  When two
    items are constructed with one and the same use, both items have that
    use, but the use is bound to the second item only.  So once both items
    are in a container and the use is given that container as its owner,
    [destroy] on the use, which is what using either item comes to, takes
    the second item out of the container and leaves the first in. *)
Theorem use_belongs_to_last_item (w : World) (u : uref) (U : ItemUse)
    (n1 d1 n2 d2 : string) :
  uses w !! u = Some U →
  ∃ a b w',
    (a <- Item.init n1 d1 u;; b <- Item.init n2 d2 u;; ret (a, b)) w = Ok (a, b) w' ∧
    a ≠ b ∧
    Item.get_use a w' = Ok u w' ∧ Item.get_use b w' = Ok u w' ∧
    (∃ U', uses w' !! u = Some U' ∧ u__item U' = Some b) ∧
    ∀ c C l,
      containers w !! c = Some C → item_lists w !! c_items C = Some l →
      a ∉ l → b ∉ l →
      ∃ w'',
        (Container.add_item c a;; Container.add_item c b;;
         ItemUse.set_virtual_location u c;; ItemUse.destroy u) w' = Ok tt w'' ∧
        items_of c w'' = Ok (l ++ [a]) w''.
Proof.
  intros HU.
  set (a := length (items w)).
  set (U1 := mkItemUse (u_name U) (u_description U) (Some a) (u__destroy_on_execute U)
               (u_virtual_location U) (u_execute U)).
  set (w1 := set_uses (<[u := U1]>) (set_items (λ s, s ++ [mkItem n1 d1 u]) w)).
  assert (u < length (uses w)) as Hlt by by eapply lookup_lt_Some.
  assert (uses w1 !! u = Some U1) as HU1 by by apply list_lookup_insert_eq.
  set (b := length (items w1)).
  set (U2 := mkItemUse (u_name U) (u_description U) (Some b) (u__destroy_on_execute U)
               (u_virtual_location U) (u_execute U)).
  set (w2 := set_uses (<[u := U2]>) (set_items (λ s, s ++ [mkItem n2 d2 u]) w1)).
  assert (b = S a) as Hb by (unfold b; cbn; rewrite length_app; simpl; lia).
  assert (items w2 !! a = Some (mkItem n1 d1 u)) as Ha2.
  { cbn. rewrite lookup_app_l by (rewrite length_app; simpl; lia).
    by rewrite lookup_app_r, Nat.sub_diag. }
  assert (items w2 !! b = Some (mkItem n2 d2 u)) as Hb2.
  { cbn. unfold b. cbn. by rewrite lookup_app_r, Nat.sub_diag. }
  assert (uses w2 !! u = Some U2) as HU2.
  { cbn. apply list_lookup_insert_eq. by rewrite length_insert. }
  exists a, b, w2. split_and!.
  - rewrite (bind_ok _ _ w a w1) by by apply item_init_run.
    by rewrite (bind_ok _ _ w1 b w2) by by apply (item_init_run _ _ _ U1).
  - lia.
  - by apply (get_run items i_use _ (mkItem n1 d1 u)).
  - by apply (get_run items i_use _ (mkItem n2 d2 u)).
  - by exists U2.
  - intros c C l HC Hl Hal Hbl.
    assert (c_items C < length (item_lists w)) as Hclt by by eapply lookup_lt_Some.
    set (w3 := set_item_lists (<[c_items C := l ++ [a]]>) w2).
    set (w4 := set_item_lists (<[c_items C := (l ++ [a]) ++ [b]]>) w3).
    set (U3 := mkItemUse (u_name U2) (u_description U2) (u__item U2)
                 (u__destroy_on_execute U2) (Some c) (u_execute U2)).
    set (w5 := set_uses (<[u := U3]>) w4).
    assert (item_lists w5 !! c_items C = Some ((l ++ [a]) ++ [b])) as Hl5.
    { cbn. apply list_lookup_insert_eq. by rewrite length_insert. }
    assert (uses w5 !! u = Some U3) as HU5.
    { cbn. apply list_lookup_insert_eq. by rewrite !length_insert. }
    destruct (remove_item_without_first w5 c C ((l ++ [a]) ++ [b]) b)
      as (w6 & Hrm & Hits & _); [done..|].
    exists w6. split.
    + rewrite (bind_ok _ _ w2 tt w3) by by apply (add_item_run w2 c C l).
      rewrite (bind_ok _ _ w3 tt w4).
      2:{ apply (add_item_run w3 c C (l ++ [a])); [done|].
          cbn. by apply list_lookup_insert_eq. }
      rewrite (bind_ok _ _ w4 tt w5).
      2:{ unfold ItemUse.set_virtual_location, bind, load, modify.
          cbn [uses w4 w3 set_item_lists]. by rewrite HU2. }
      by rewrite (destroy_run w5 u U3 HU5).
    + rewrite without_first_snoc, decide_False in Hits; [done|].
      rewrite elem_of_app, list_elem_of_singleton. intros [?|?]; [done|lia].
Qed.

Lemma use_belongs_to_last_item_witness :
  ∃ a b w' w'',
    (a <- Item.init "Pear" "" 1;; b <- Item.init "Plum" "" 1;; ret (a, b)) (start [])
    = Ok (a, b) w' ∧ a ≠ b ∧
    (Container.add_item 2 a;; Container.add_item 2 b;;
     ItemUse.set_virtual_location 1 2;; ItemUse.destroy 1) w' = Ok tt w'' ∧
    items_of 2 w'' = Ok [a] w''.
Proof.
  destruct (use_belongs_to_last_item (start []) 1
              (mkItemUse "Eat" "Eat the Mango." (Some 1) true None
                 (LambdaPrint "You eat the Mango."))
              "Pear" "" "Plum" "" eq_refl)
    as (a & b & w' & Hrun & Hne & _ & _ & _ & Hdestroy).
  assert (a = 4 ∧ b = 5) as [-> ->].
  { vm_compute in Hrun. by injection Hrun as <- <- _. }
  destruct (Hdestroy 2 (mkContainer "Hall" "hall" 3 (IsLocation false 2)) []
              eq_refl eq_refl) as (w'' & Hrun' & Hits).
  - compute_done.
  - compute_done.
  - exists 4, 5, w', w''. split_and!; assumption.
Defined.

(** X13.  A fruit is eaten whole.  Constructing a fruit of any name, adding
    it to a container, giving its use that container as owner and executing
    the use returns normally, writes You eat the (name). and nothing else,
    and leaves the container's item sequence, and every other item
    sequence, exactly as it was before the fruit was made. *)
Theorem fruit_is_eaten_whole (extern : nat → M unit) (name : string) (w : World)
    (c : cref) (C : Container) (l : list iref) :
  containers w !! c = Some C → item_lists w !! c_items C = Some l →
  length (items w) ∉ l →
  ∃ w',
    (i <- Fruit.init name;; Container.add_item c i;; u <- Item.get_use i;;
     ItemUse.set_virtual_location u c;; ItemUse.execute extern u) w = Ok tt w' ∧
    items_of c w' = Ok l w' ∧
    item_lists w' = item_lists w ∧ containers w' = containers w ∧
    stdout w' = stdout w ++ [Line ("You eat the " +:+ name +:+ ".")].
Proof.
  intros HC Hl Hfresh.
  set (i := length (items w)). set (u := length (uses w)).
  set (U0 := mkItemUse "Eat" ("Eat the " +:+ name +:+ ".") None true None
               (LambdaPrint ("You eat the " +:+ name +:+ "."))).
  set (w0 := set_uses (λ s, s ++ [U0]) w).
  assert (uses w0 !! u = Some U0) as HU0.
  { cbn. by rewrite lookup_app_r, Nat.sub_diag. }
  set (U1 := mkItemUse "Eat" ("Eat the " +:+ name +:+ ".") (Some i) true None
               (LambdaPrint ("You eat the " +:+ name +:+ "."))).
  set (I := mkItem name ("A juicy " +:+ name +:+ ".") u).
  set (w1 := set_uses (<[u := U1]>) (set_items (λ s, s ++ [I]) w0)).
  assert (u < length (uses w0)) as Hult by (cbn; rewrite length_app; simpl; lia).
  set (w2 := set_item_lists (<[c_items C := l ++ [i]]>) w1).
  set (U2 := mkItemUse "Eat" ("Eat the " +:+ name +:+ ".") (Some i) true (Some c)
               (LambdaPrint ("You eat the " +:+ name +:+ "."))).
  set (w3 := set_uses (<[u := U2]>) w2).
  assert (c_items C < length (item_lists w)) as Hclt by by eapply lookup_lt_Some.
  assert (uses w3 !! u = Some U2) as HU3.
  { cbn. apply list_lookup_insert_eq. by rewrite length_insert. }
  assert (item_lists w3 !! c_items C = Some (l ++ [i])) as Hl3.
  { cbn. by apply list_lookup_insert_eq. }
  set (w4 := set_item_lists (<[c_items C := l]>) w3).
  assert (ItemUse.destroy u w3 = Ok tt w4) as Hdes.
  { rewrite (destroy_run w3 u U2 HU3). cbn [u_virtual_location U2 u__item].
    rewrite (remove_item_run w3 c C (l ++ [i])) by done.
    by rewrite list_remove_first, app_nil_r. }
  exists (says [Line ("You eat the " +:+ name +:+ ".")] w4). split_and!.
  - unfold Fruit.init.
    rewrite (bind_ok _ _ w i w1).
    2:{ rewrite (bind_ok _ _ w u w0) by done. by rewrite (item_init_run _ _ _ U0). }
    rewrite (bind_ok _ _ w1 tt w2) by by apply (add_item_run w1 c C l).
    rewrite (bind_ok _ _ w2 u w2).
    2:{ apply (get_run items i_use _ I). cbn. by rewrite lookup_app_r, Nat.sub_diag. }
    rewrite (bind_ok _ _ w2 tt w3).
    2:{ unfold ItemUse.set_virtual_location, bind, load, modify.
        cbn [uses w2 set_item_lists].
        assert (uses w1 !! u = Some U1) as -> by by apply list_lookup_insert_eq.
        done. }
    rewrite (execute_run extern w3 u U2 HU3). cbn [u__destroy_on_execute U2].
    rewrite Hdes. unfold bind, load. cbn [uses w4 set_item_lists]. by rewrite HU3.
  - apply items_of_run with C; [done|]. cbn.
    apply list_lookup_insert_eq. by rewrite length_insert.
  - cbn. rewrite list_insert_insert_eq. by apply list_insert_id.
  - done.
  - done.
Qed.

Lemma fruit_is_eaten_whole_witness :
  ∃ w',
    (i <- Fruit.init "Fig";; Container.add_item 4 i;; u <- Item.get_use i;;
     ItemUse.set_virtual_location u 4;; ItemUse.execute quiet u) taken = Ok tt w' ∧
    items_of 4 w' = Ok [0] w' ∧
    stdout w' = stdout taken ++ [Line "You eat the Fig."].
Proof.
  destruct (fruit_is_eaten_whole quiet "Fig" taken 4
              (mkContainer "Ann" "You are you." 5 (IsPlayer (Some 0))) [0]
              eq_refl eq_refl) as (w' & Hrun & Hits & _ & _ & Hout).
  - compute_done.
  - exists w'. split_and!; assumption.
Defined.

(** *** The game [__main__] builds, in play *)

Lemma agree_refl {A} (R : relation World) (w : World) (m : M A) : agree R w m m.
Proof. by intros w' _. Qed.

Lemma agree_bind {A B} (R : relation World) `{!PreOrder R} (w : World) (m : M A)
    (k1 k2 : A → M B) :
  keeps R m → (∀ a, agree R w (k1 a) (k2 a)) → agree R w (bind m k1) (bind m k2).
Proof.
  intros Hm Hk w' HR. unfold bind. specialize (Hm w').
  destruct (m w') as [a w''|e w'']; simpl in *; [|done].
  apply Hk. by etrans.
Qed.

Lemma fixtures_use (w w' : World) (u : uref) (U' : ItemUse) :
  fixtures w' = fixtures w → uses w' !! u = Some U' →
  ∃ U, uses w !! u = Some U ∧ u__item U = u__item U' ∧ u_execute U = u_execute U'.
Proof.
  intros [= _ _ _ _ Hu] HU'.
  apply (f_equal (λ s, s !! u)) in Hu. rewrite !list_lookup_fmap, HU' in Hu.
  destruct (uses w !! u) as [U|]; [|done]. injection Hu as _ _ Hi _ He.
  by exists U.
Qed.

Lemma own_lambdas_fixtures (w w' : World) :
  fixtures w' = fixtures w → own_lambdas w → own_lambdas w'.
Proof.
  intros Hfix Hl. apply Forall_lookup. intros u U' HU'.
  destruct (fixtures_use w w' u U' Hfix HU') as (U & HU & _ & He).
  unfold own_lambdas in Hl. rewrite Forall_lookup in Hl.
  rewrite <- He. by apply (Hl u U).
Qed.

Lemma bound_fixtures (w w' : World) :
  fixtures w' = fixtures w → bound w → bound w'.
Proof.
  intros Hfix Hb i I U' HI HU'.
  destruct (fixtures_use w w' _ U' Hfix HU') as (U & HU & Hi & _).
  injection Hfix as _ _ Hitems _ _. rewrite Hitems in HI.
  rewrite <- Hi. by apply (Hb i I U).
Qed.

Lemma execute_agree (e1 e2 : nat → M unit) (u : uref) (w : World) :
  own_lambdas w →
  agree (same_at fixtures) w (ItemUse.execute e1 u) (ItemUse.execute e2 u).
Proof.
  intros Hl w' Hfix.
  assert (∀ w'' U, fixtures w'' = fixtures w' → uses w'' !! u = Some U →
                   ItemUse.call e1 (u_execute U) w'' = ItemUse.call e2 (u_execute U) w'')
    as Hcall.
  { intros w'' U Hfix' HU.
    assert (own_lambdas w'') as Hl''.
    { apply (own_lambdas_fixtures w); [|done]. by rewrite Hfix'. }
    unfold own_lambdas in Hl''. rewrite Forall_lookup in Hl''.
    by destruct (Hl'' u U HU) as [text ->]. }
  destruct (uses w' !! u) as [U|] eqn:HU.
  2:{ unfold ItemUse.execute, bind, load. by rewrite HU. }
  rewrite !(execute_run _ w' u U HU).
  destruct (u__destroy_on_execute U); [|by apply Hcall].
  pose proof (keeps_destroy (same_at fixtures)
                (same_at_removal_free fixtures (λ _ _, eq_refl)) u w') as Hdes.
  destruct (ItemUse.destroy u w') as [[] w''|e w'']; [|done]. simpl in Hdes.
  unfold bind, load. destruct (uses w'' !! u) as [U'|] eqn:HU'; [|done].
  by apply Hcall.
Qed.

Lemma enter_inventory_agree (e1 e2 : nat → M unit) (self : cref) (w : World) :
  own_lambdas w →
  agree (same_at fixtures) w
    (Player.enter_inventory e1 self) (Player.enter_inventory e2 self).
Proof.
  intros Hl.
  pose proof (same_at_console_free fixtures fixtures_off_console) as Hcon.
  unfold Player.enter_inventory.
  do 2 (apply agree_bind; [apply _|by apply (keeps_print (same_at fixtures))|]; intros _).
  apply agree_bind; [apply _|apply (keeps_items_of (same_at fixtures))|]. intros l.
  apply agree_bind; [apply _| |intros _].
  { apply (keeps_for_in (same_at fixtures)). intros [i item] _.
    apply (keeps_bind (same_at fixtures)); [apply (keeps_get (same_at fixtures))|].
    intros n.
    apply (keeps_bind (same_at fixtures)); [by apply (keeps_print (same_at fixtures))|].
    intros _.
    apply (keeps_bind (same_at fixtures)); [apply (keeps_get (same_at fixtures))|].
    intros d.
    apply (keeps_bind (same_at fixtures)); [by apply (keeps_print (same_at fixtures))|].
    intros _.
    apply (keeps_bind (same_at fixtures)); [apply (keeps_get (same_at fixtures))|].
    intros u.
    apply (keeps_bind (same_at fixtures)); [apply (keeps_get (same_at fixtures))|].
    intros ud. by apply (keeps_print (same_at fixtures)). }
  apply agree_bind; [apply _|by apply (keeps_print (same_at fixtures))|]. intros _.
  apply agree_bind; [apply _|by apply (keeps_select_item (same_at fixtures))|].
  intros choice.
  destruct (decide (choice = Some 1%Z)); [apply agree_refl|].
  apply agree_bind; [apply _|by apply (keeps_print (same_at fixtures))|]. intros _.
  apply agree_bind; [apply _|apply (keeps_minus (same_at fixtures))|]. intros k.
  apply agree_bind; [apply _|apply (keeps_items_of (same_at fixtures))|]. intros l1.
  apply agree_bind; [apply _|apply (keeps_py_index (same_at fixtures))|]. intros item.
  apply agree_bind; [apply _|apply (keeps_get (same_at fixtures))|]. intros _.
  apply agree_bind; [apply _|apply (keeps_minus (same_at fixtures))|]. intros k'.
  apply agree_bind; [apply _|apply (keeps_items_of (same_at fixtures))|]. intros l2.
  apply agree_bind; [apply _|apply (keeps_py_index (same_at fixtures))|]. intros item'.
  apply agree_bind; [apply _|apply (keeps_get (same_at fixtures))|]. intros use.
  by apply execute_agree.
Qed.

Lemma turn_agree (e1 e2 : nat → M unit) (self : cref) (w : World) :
  own_lambdas w →
  agree (same_at fixtures) w (Player.turn e1 self) (Player.turn e2 self).
Proof.
  intros Hl.
  pose proof (same_at_console_free fixtures fixtures_off_console) as Hcon.
  unfold Player.turn.
  apply agree_bind; [apply _|by apply (keeps_print (same_at fixtures))|]. intros _.
  apply agree_bind; [apply _|by apply (keeps_print_location (same_at fixtures))|].
  intros _.
  apply agree_bind; [apply _|by apply (keeps_print (same_at fixtures))|]. intros _.
  apply agree_bind; [apply _|by apply (keeps_print_and_get_actions (same_at fixtures))|].
  intros actions.
  apply agree_bind; [apply _|by apply (keeps_print (same_at fixtures))|]. intros _.
  apply agree_bind; [apply _|by apply (keeps_print (same_at fixtures))|]. intros _.
  apply agree_bind; [apply _|by apply (keeps_select (same_at fixtures))|]. intros action.
  apply agree_bind; [apply _|apply (keeps_minus (same_at fixtures))|]. intros k.
  apply agree_bind; [apply _|apply (keeps_py_index (same_at fixtures))|]. intros a.
  destruct a as [| |item|ex]; try apply agree_refl.
  by apply enter_inventory_agree.
Qed.

Lemma quiet_keeps (R : relation World) `{!PreOrder R} (n : nat) : keeps R (quiet n).
Proof. intros w. simpl. reflexivity. Qed.

Lemma turn_quiet_fixtures (self : cref) (w : World) :
  fixtures (world_of (Player.turn quiet self w)) = fixtures w.
Proof.
  apply (keeps_turn (same_at fixtures) self).
  - apply same_at_console_free, fixtures_off_console.
  - by apply same_at_removal_free.
  - by intros w0 P l x _ _.
  - apply fixtures_owner_free.
  - apply fixtures_move_free.
  - intros n. apply (quiet_keeps (same_at fixtures)).
Qed.

(** In a state whose callables are the program's own, the game loop does
    not depend on what other callables would do. *)
Lemma prompt_own_lambdas (extern : nat → M unit) (self : cref) (depth : nat) (w : World) :
  own_lambdas w →
  Player.prompt extern depth self w = Player.prompt quiet depth self w.
Proof.
  revert w. induction depth as [|depth IH]; intros w Hl; [done|].
  cbn [Player.prompt]. unfold bind.
  rewrite (turn_agree extern quiet self w Hl w) by reflexivity.
  pose proof (turn_quiet_fixtures self w) as Hfix.
  destruct (Player.turn quiet self w) as [[] w1|e w1]; [|done].
  apply IH. by apply (own_lambdas_fixtures w).
Qed.

Lemma owned_same (self : cref) (pl : lref) (w w' : World) :
  objects w' = objects w → owned self pl w → owned self pl w'.
Proof.
  intros [= Hl _ _ _ Hu Hi] H l i I. unfold owner_in. rewrite Hl, Hu, Hi. apply H.
Qed.

Lemma in_play_same (self : cref) (pl : lref) (w w' : World) :
  objects w' = objects w → in_play self pl w → in_play self pl w'.
Proof.
  intros Heq H. destruct w, w'. unfold objects in Heq. simpl in Heq.
  simplify_eq. exact H.
Qed.

Lemma owned_console_free (self : cref) (pl : lref) :
  console_free (carries (owned self pl)).
Proof. split; intros g w H; by apply (owned_same self pl w). Qed.

Lemma owned_removal_free (self : cref) (pl : lref) :
  removal_free (carries (owned self pl)).
Proof.
  intros w r l x l' Hl Hrm Ho l0 i I H0 Hi HI. cbn in H0, HI.
  change (owner_in w (i_use I) = Some (Some self)).
  destruct (decide (pl = r)) as [->|Hne].
  - rewrite list_lookup_insert_eq in H0 by by eapply lookup_lt_Some.
    injection H0 as <-. apply (Ho l i I); [done| |done].
    apply (elem_of_sublist l'); [done|by eapply list_remove_sublist].
  - rewrite list_lookup_insert_ne in H0 by done. by apply (Ho l0 i I).
Qed.

(** The three ways the inventory menu goes on: the input ends, the menu is
    closed, or the use of one of the player's items is executed. *)
Lemma enter_inventory_cases (extern : nat → M unit) (w : World) (self : cref)
    (l : list iref) :
  closed w → holds w self l →
  (∃ out, Player.enter_inventory extern self w = Raise EOFError (advance [] out w)) ∨
  (∃ rest out, Player.enter_inventory extern self w = Ok tt (advance rest out w)) ∨
  (∃ rest out item I,
      item ∈ l ∧ items w !! item = Some I ∧
      Player.enter_inventory extern self w
      = ItemUse.execute extern (i_use I) (advance rest out w)).
Proof.
  intros Hcl Hh. pose proof Hh as (P & HP & Hl).
  destruct (select_item_total w self P l HP Hl)
    as [(bad & s & rest & k & _ & Hin & Hbad & Hk & _)|[Hall _]].
  - right. destruct (decide (k = 1%Z)) as [->|Hk1].
    + left. destruct (enter_inventory_close extern w self l bad s rest)
        as (w' & Hrun & out & ->); [done..|].
      by exists rest, out.
    + right. pose proof Hk as [_ Hr]%choice_of_range.
      assert (is_Some (l !! Z.to_nat (k - 2))) as [item Hitem].
      { apply lookup_lt_is_Some_2. unfold len in Hr. lia. }
      assert (item ∈ l) as Hitem' by by eapply list_elem_of_lookup_2.
      destruct (closed_item w _ l item Hcl Hl Hitem') as (I & U & HI & HU).
      destruct (enter_inventory_use extern w self l bad s rest k item I)
        as [out Hrun]; [done..|].
      by exists rest, out, item, I.
  - left.
    set (Q := λ r : Res unit, ∃ out, r = Raise EOFError (advance [] out w)).
    change (Q (Player.enter_inventory extern self w)).
    unfold Player.enter_inventory.
    do 2 (eapply step_then; [apply writes_print|intros ?]).
    eapply step_then; [by eapply writes_items_of|intros ?].
    match goal with |- Q (bind (for_in _ ?body _) _ ?w0) =>
      destruct (writes_for_in (λ _ (_ : unit), True) body (enumerate l) w0) with (s := tt)
        as ([] & Hloop & _)
    end.
    { intros done [i x] [] out _ Hx. exists tt. split; [|done].
      apply elem_of_enumerate in Hx.
      destruct (closed_item w _ l x Hcl Hl Hx) as (X & U & HX & HU).
      wstep ltac:(by eapply (writes_get items i_name)).
      wstep ltac:(apply writes_print).
      wstep ltac:(by eapply (writes_get items i_description)).
      wstep ltac:(apply writes_print).
      wstep ltac:(by eapply (writes_get items i_use)).
      wstep ltac:(by eapply (writes_get uses u_description)).
      apply writes_print. }
    { done. }
    eapply step_then; [exact Hloop|intros ?].
    eapply step_then; [apply writes_print|intros ?].
    rewrite !says_says.
    match goal with |- Q (bind _ _ (says ?o w)) =>
      destruct (select_item_total (says o w) self P l)
        as [(bad & s & rest & k & _ & Hin & Hbad & Hk & _)|[_ [out Hrun]]]; [done..| |]
    end.
    + exfalso. cbn [stdin says set_stdout] in Hin. rewrite Hin in Hall.
      apply Forall_app in Hall as [_ Hall]. apply Forall_cons in Hall as [Hs _].
      congruence.
    + unfold Q. rewrite (bind_raise _ _ _ _ _ Hrun), advance_says. by eexists.
Qed.

(** In a game in play, executing the use of an item the player holds
    returns normally. *)
Lemma execute_in_play (self : cref) (pl : lref) (w : World) (l : list iref)
    (item : iref) (I : Item) :
  in_play self pl w → item_lists w !! pl = Some l → item ∈ l →
  items w !! item = Some I →
  ∃ w', ItemUse.execute quiet (i_use I) w = Ok tt w'.
Proof.
  intros (Ht & Hlam & Hb & Ho) Hl Hitem HI.
  pose proof Ht as (Hcl & (P & loc & HP & HPl & _) & _).
  destruct (closed_item w pl l item Hcl Hl Hitem) as (I' & U & HI' & HU).
  assert (I' = I) as -> by congruence.
  pose proof (Ho l item I Hl Hitem HI) as Hown.
  unfold owner_in in Hown. rewrite HU in Hown. injection Hown as Hown.
  unfold own_lambdas in Hlam. rewrite Forall_lookup in Hlam.
  destruct (Hlam _ U HU) as [text He].
  rewrite (execute_run quiet w _ U HU).
  destruct (u__destroy_on_execute U).
  - rewrite (destroy_run w _ U HU), Hown.
    rewrite (remove_item_run w self P l) by by rewrite ?HPl.
    destruct (list_remove (u__item U) l) as [l'|].
    + unfold bind, load. cbn [uses set_item_lists]. rewrite HU, He. by eexists.
    + unfold bind, load. rewrite HU, He. by eexists.
  - rewrite He. by eexists.
Qed.

(** A turn leaves a game in play in play, and ends in one of three ways: it
    returns, the player quits, or the input ends. *)
Lemma in_play_turn (self : cref) (pl : lref) (w : World) :
  in_play self pl w →
  in_play self pl (world_of (Player.turn quiet self w)) ∧
  match Player.turn quiet self w with
  | Ok _ _ => True
  | Raise e w' => quit_or_eof e w'
  end.
Proof.
  intros Hplay. pose proof Hplay as (Ht & Hlam & Hb & Ho).
  pose proof (turn_quiet_fixtures self w) as Hfix.
  assert (tidy self pl (world_of (Player.turn quiet self w))) as Ht'.
  { apply tidy_turn; [|done]. intros n. apply quiet_preserves. }
  cut (owned self pl (world_of (Player.turn quiet self w)) ∧
       match Player.turn quiet self w with
       | Ok _ _ => True
       | Raise e w' => quit_or_eof e w'
       end).
  { intros [Ho' Hend]. split; [|done]. split_and!; [done| | |done].
    - by apply (own_lambdas_fixtures w).
    - by apply (bound_fixtures w). }
  clear Hfix Ht'.
  destruct (tidy_stands_in self pl w Ht)
    as (P & loc & L & its & exs & lp & Hst & Hne & HP & HPl & HL & HLpl & Hits & Hlp).
  pose proof Ht as (Hcl & _).
  destruct (turn_cases quiet w self loc its exs Hcl Hst)
    as [(a & rest & out & Ha & ->)|(out & ->)].
  2:{ simpl. split; [by apply (owned_same self pl w)|by right]. }
  set (w1 := advance rest out w).
  assert (in_play self pl w1) as Hplay1 by by apply (in_play_same self pl w).
  assert (owned self pl w1) as Ho1 by by apply (owned_same self pl w).
  apply elem_of_canonical in Ha
    as [->|[->|[(item & -> & Hitem)|(ex & -> & Hex)]]].
  - simpl. split; [by apply (owned_same self pl w)|].
    left. split; [done|]. apply last_snoc.
  - change (Player.perform quiet self Inventory w1)
      with (Player.enter_inventory quiet self w1).
    split.
    + apply (keeps_enter_inventory (carries (owned self pl)));
        [apply owned_console_free|apply owned_removal_free| |done].
      intros n. apply (quiet_keeps (carries (owned self pl))).
    + destruct (enter_inventory_cases quiet w1 self lp)
        as [(o & ->)|[(r & o & ->)|(r & o & item & I & Hin & HI & ->)]];
        [done|by exists P; rewrite HPl|by right|done|].
      destruct (execute_in_play self pl (advance r o w1) lp item I) as [w' ->];
        [by apply (in_play_same self pl w1)|done..].
  - destruct Hst as (P' & L' & room & er & HP' & HPx & HL' & HLx & _).
    assert (P' = P) as -> by congruence. assert (L' = L) as -> by congruence.
    destruct (closed_item w _ its item Hcl Hits Hitem) as (I & U & HI & HU).
    rewrite (take_exact quiet w1 self loc P L I U its lp item);
      [|done|done|done|done|by rewrite HPl|by rewrite HPl|done|done].
    split; [|done]. cbn [world_of]. rewrite HPl.
    assert (pl < length (item_lists w)) as Hpllt by by eapply lookup_lt_Some.
    assert (i_use I < length (uses w)) as Hult by by eapply lookup_lt_Some.
    intros l0 i J H0 Hi HJ. cbn in H0, HJ.
    rewrite list_lookup_insert_eq in H0 by by rewrite length_insert.
    injection H0 as <-. unfold owner_in. cbn.
    destruct (decide (i_use J = i_use I)) as [->|Hu].
    { by rewrite list_lookup_insert_eq. }
    rewrite list_lookup_insert_ne by done.
    apply elem_of_app in Hi as [Hi|Hi].
    + by apply (Ho lp i J).
    + apply list_elem_of_singleton in Hi as ->. congruence.
  - destruct Hst as (P' & L' & room & er & HP' & HPx & _ & _ & _ & Hexs).
    assert (P' = P) as -> by congruence.
    destruct (closed_exit w er exs ex Hcl Hexs Hex) as (E & C & HE & HC).
    rewrite (go_run quiet w1 self P (Some loc) ex E C) by done.
    split; [|done]. cbn [world_of].
    intros l0 i J H0 Hi HJ. by apply (Ho l0 i J).
Qed.

(** So does a run of the game loop, which ends in one of three ways. *)
Lemma in_play_prompt (self : cref) (pl : lref) (depth : nat) (w : World) :
  in_play self pl w →
  in_play self pl (world_of (Player.prompt quiet depth self w)) ∧
  game_over (Player.prompt quiet depth self w).
Proof.
  revert w. induction depth as [|depth IH]; intros w Hplay.
  - split; [done|]. exists RecursionError, w. split; [done|]. by right.
  - cbn [Player.prompt]. unfold bind.
    destruct (in_play_turn self pl w Hplay) as [Hplay1 Hend].
    destruct (Player.turn quiet self w) as [[] w1|e w1]; simpl in Hplay1.
    + by apply IH.
    + split; [done|]. exists e, w1. split; [done|]. by left.
Qed.

(** The game [__main__] sets up is in play. *)
Lemma setup_in_play (r0 r1 r2 r3 name : string) (lines : list string) :
  in_play 4 5 (world_of (setup [r0; r1; r2; r3] (module_loaded (name :: lines)))).
Proof.
  pose proof (setup_tidy r0 r1 r2 r3 name lines) as Ht.
  remember (world_of (setup [r0; r1; r2; r3] (module_loaded (name :: lines))))
    as w eqn:Hw.
  assert (own_lambdas w) as Hlam
    by (rewrite Hw; vm_compute; repeat constructor; by eexists).
  assert (item_lists w !! 5 = Some []) as Hl by (rewrite Hw; vm_compute; reflexivity).
  assert (i_use <$> items w = [0; 1; 2; 3]) as Hi
    by (rewrite Hw; vm_compute; reflexivity).
  assert (u__item <$> uses w = [Some 0; Some 1; Some 2; Some 3]) as Hu
    by (rewrite Hw; vm_compute; reflexivity).
  clear Hw. split_and!; [done..| |].
  - intros i I U HI HU.
    assert ((i_use <$> items w) !! i = Some (i_use I)) as Hi'
      by by rewrite list_lookup_fmap, HI.
    assert ((u__item <$> uses w) !! i_use I = Some (u__item U)) as Hu'
      by by rewrite list_lookup_fmap, HU.
    rewrite Hi in Hi'. rewrite Hu in Hu'.
    do 4 (destruct i as [|i];
          [simpl in Hi'; injection Hi' as Hi'; rewrite <- Hi' in Hu'; simpl in Hu';
           congruence|]).
    discriminate Hi'.
  - intros l i I Hl' Hi' _. rewrite Hl in Hl'. injection Hl' as <-.
    by apply not_elem_of_nil in Hi'.
Qed.


Lemma prompt_quiet_fixtures (self : cref) (depth : nat) (w : World) :
  fixtures (world_of (Player.prompt quiet depth self w)) = fixtures w.
Proof.
  apply (keeps_prompt (same_at fixtures) self).
  - apply same_at_console_free, fixtures_off_console.
  - by apply same_at_removal_free.
  - by intros w0 P l x _ _.
  - apply fixtures_owner_free.
  - apply fixtures_move_free.
  - intros n. apply (quiet_keeps (same_at fixtures)).
Qed.

(** X15.  At every point of the game [__main__] builds, however long it has
    run and however it ended, the items are kept apart: no container holds
    an item twice, no item is in two containers, and the use of every item
    the player (object 4 of the containers [__main__] makes) holds has the
    player as its owner. *)
Theorem game_keeps_items_apart (extern : nat → M unit) (r0 r1 r2 r3 name : string)
    (depth : nat) (lines : list string) :
  let w := world_of (main extern [r0; r1; r2; r3] depth (module_loaded (name :: lines))) in
  (∀ c l, holds w c l → NoDup l) ∧
  (∀ c1 c2 l1 l2 i, holds w c1 l1 → holds w c2 l2 → i ∈ l1 → i ∈ l2 → c1 = c2) ∧
  (∀ l i I, holds w 4 l → i ∈ l → items w !! i = Some I →
            owner_in w (i_use I) = Some (Some 4)).
Proof.
  intros w. subst w.
  assert (c_items <$> containers
            (world_of (setup [r0; r1; r2; r3] (module_loaded (name :: lines))))
          = [1; 2; 3; 4; 5]) as Hc0 by (vm_compute; reflexivity).
  pose proof (setup_in_play r0 r1 r2 r3 name lines) as Hplay.
  destruct (setup_run r0 r1 r2 r3 name lines) as [w0 Hrun].
  rewrite Hrun in Hc0, Hplay. cbn [world_of] in Hc0, Hplay.
  unfold main. rewrite (bind_ok _ _ _ _ _ Hrun). cbn [player].
  rewrite (prompt_own_lambdas extern 4 depth w0) by apply Hplay.
  destruct (in_play_prompt 4 5 depth w0 Hplay) as [(Ht & _ & _ & Ho) _].
  pose proof (prompt_quiet_fixtures 4 depth w0) as Hfix.
  set (w := world_of (Player.prompt quiet depth 4 w0)) in *.
  assert (c_items <$> containers w = [1; 2; 3; 4; 5]) as Hc.
  { injection Hfix as _ _ _ Hcs _.
    apply (f_equal (fmap (λ x : string * string * lref * Extra, x.1.2))) in Hcs.
    rewrite <- !list_fmap_compose in Hcs. rewrite <- Hc0. exact Hcs. }
  pose proof Ht as (_ & (P & loc & HP & HPl & _) & _ & _ & Hnd & Hone & _).
  split_and!.
  - intros c l (C & HC & Hl). by eapply Hnd.
  - intros c1 c2 l1 l2 i (C1 & HC1 & Hl1) (C2 & HC2 & Hl2) Hi1 Hi2.
    pose proof (Hone _ _ _ _ i Hl1 Hl2 Hi1 Hi2) as Heq.
    apply (NoDup_lookup [1; 2; 3; 4; 5] c1 c2 (c_items C1)); [compute_done| |].
    + by rewrite <- Hc, list_lookup_fmap, HC1.
    + by rewrite <- Hc, list_lookup_fmap, HC2, Heq.
  - intros l i I (C & HC & Hl) Hi HI.
    assert (C = P) as -> by congruence. rewrite HPl in Hl.
    by apply (Ho l i I).
Qed.

(** X16.  In a game in play, using an item from the inventory consumes it
    when its use destroys on execute.  When the line accepted in the
    inventory menu stands for an entry [k] after the first, the menu returns
    normally; the item at place [k - 2] of the player's item sequence has
    been used: the last line written is the text its callable prints; and
    if its use destroys on execute the item is afterwards in no container
    at all, the player holding what it held without it, while if its use
    does not, every object is as it was.  The other item sequences are
    untouched and the lines after the accepted one are still to be read. *)
Theorem inventory_use_consumes_the_item (extern : nat → M unit) (self : cref) (pl : lref)
    (w : World) (lp : list iref) (bad : list string) (s : string) (rest : list string)
    (k : Z) :
  in_play self pl w → item_lists w !! pl = Some lp →
  stdin w = bad ++ s :: rest →
  Forall (λ b, choice_of (len lp + 1) b = None) bad →
  choice_of (len lp + 1) s = Some k → k ≠ 1%Z →
  ∃ item I U text w',
    lp !! Z.to_nat (k - 2) = Some item ∧ items w !! item = Some I ∧
    uses w !! i_use I = Some U ∧ u_execute U = LambdaPrint text ∧
    Player.enter_inventory extern self w = Ok tt w' ∧
    last (stdout w') = Some (Line text) ∧ stdin w' = rest ∧
    (u__destroy_on_execute U = true →
     (∀ c l, holds w' c l → item ∉ l) ∧ holds w' self (without_first item lp)) ∧
    (u__destroy_on_execute U = false → same_objects w w') ∧
    (∀ r, r ≠ pl → item_lists w' !! r = item_lists w !! r) ∧
    containers w' = containers w ∧ uses w' = uses w.
Proof.
  intros (Ht & Hlam & Hb & Ho) Hlp Hin Hbad Hk Hk1.
  pose proof Ht as (Hcl & (P & loc & HP & HPl & _) & _ & _ & Hnd & Hone & _).
  pose proof Hk as [_ Hr]%choice_of_range.
  assert (is_Some (lp !! Z.to_nat (k - 2))) as [item Hitem].
  { apply lookup_lt_is_Some_2. unfold len in Hr. lia. }
  assert (item ∈ lp) as Hitem' by by eapply list_elem_of_lookup_2.
  destruct (closed_item w _ lp item Hcl Hlp Hitem') as (I & U & HI & HU).
  destruct (enter_inventory_use extern w self lp bad s rest k item I)
    as [out Hrun]; [done|by exists P; rewrite HPl|done..|].
  pose proof (Ho lp item I Hlp Hitem' HI) as Hown.
  unfold owner_in in Hown. rewrite HU in Hown. injection Hown as Hown.
  pose proof (Hb item I U HI HU) as Hbound.
  unfold own_lambdas in Hlam. rewrite Forall_lookup in Hlam.
  destruct (Hlam _ U HU) as [text He].
  set (w1 := advance rest out w) in *.
  exists item, I, U, text.
  rewrite Hrun, (execute_run extern w1 _ U HU).
  destruct (u__destroy_on_execute U) eqn:Hflag.
  - rewrite (destroy_run w1 _ U HU), Hown, Hbound.
    destruct (remove_item_without_first w1 self P lp item)
      as (w2 & -> & _ & Hl2 & Hel2 & Hc2 & He2 & Hu2 & Hi2 & Hin2 & Hout2);
      [done|by rewrite HPl|].
    unfold bind, load. rewrite Hu2. cbn [uses w1 advance says set_stdin set_stdout].
    rewrite HU, He. cbn [ItemUse.call]. eexists. split_and!; try done.
    + cbn. apply last_snoc.
    + intros _. rewrite HPl in Hl2.
      assert (pl < length (item_lists w)) as Hpllt by by eapply lookup_lt_Some.
      split.
      * intros c l (C & HC & Hl). cbn in HC, Hl. rewrite Hc2 in HC. rewrite Hl2 in Hl.
        cbn in HC, Hl.
        destruct (decide (c_items C = pl)) as [Heq|Hne].
        -- rewrite Heq, list_lookup_insert_eq in Hl by done. injection Hl as <-.
           apply without_first_NoDup_absent. by eapply Hnd.
        -- rewrite list_lookup_insert_ne in Hl by done. intros Hil.
           apply Hne. by apply (Hone (c_items C) pl l lp item).
      * exists P. split; [by cbn; rewrite Hc2|]. cbn. rewrite Hl2, HPl. cbn.
        by apply list_lookup_insert_eq.
    + intros r Hr'. cbn. rewrite Hl2, HPl. cbn. by rewrite list_lookup_insert_ne.
  - rewrite He. cbn [ItemUse.call]. eexists. split_and!; try done.
    cbn. apply last_snoc.
Qed.

Lemma objects_set_stdin (g : list string → list string) (w : World) :
  objects (set_stdin g w) = objects w.
Proof. done. Qed.

Lemma taken_in_play (lines : list string) : in_play 4 5 (taken_then lines).
Proof.
  pose proof (setup_in_play "lounge" "kitchen" "hall" "dining room" "Ann" ["3"]) as H.
  apply in_play_turn in H as [H _].
  unfold taken_then. apply (in_play_same 4 5 taken); [apply objects_set_stdin|].
  exact H.
Qed.

Lemma inventory_use_consumes_the_item_witness :
  ∃ w', Player.enter_inventory quiet 4 (taken_then ["5"; "2"; "1"]) = Ok tt w' ∧
        last (stdout w') = Some (Line "You put the crown on your head.") ∧
        stdin w' = ["1"] ∧
        (∀ c l, holds w' c l → 0 ∉ l).
Proof.
  destruct (inventory_use_consumes_the_item quiet 4 5 (taken_then ["5"; "2"; "1"]) [0]
              ["5"] "2" ["1"] 2%Z (taken_in_play _) eq_refl eq_refl)
    as (item & I & U & text & w' & Hitem & HI & HU & He & Hrun & Hlast & Hin & Hgone & _).
  - repeat constructor.
  - reflexivity.
  - discriminate.
  - injection Hitem as <-. vm_compute in HI. injection HI as <-.
    vm_compute in HU. injection HU as <-. injection He as <-.
    exists w'. split_and!; [assumption..|]. by apply Hgone.
Defined.

(** *** Numbers as they are shown and as they are read *)

Lemma digit_char (a : ascii) (v : Z) :
  digit_val a = Some v →
  is_space a = false ∧ Ascii.eqb a "-" = false ∧ Ascii.eqb a "+" = false ∧
  Ascii.eqb a "_" = false.
Proof. destruct a as [[] [] [] [] [] [] [] []]; vm_compute; intros; done. Qed.

Lemma more_digits_step (acc v : Z) (a : ascii) (l : list ascii) :
  digit_val a = Some v → more_digits acc (a :: l) = more_digits (10 * acc + v) l.
Proof.
  intros H. destruct (digit_char a v H) as (_ & _ & _ & He).
  cbn [more_digits]. by rewrite He, H.
Qed.

Lemma uint_digits (d : Decimal.uint) :
  Forall (λ a, is_Some (digit_val a))
    (String.list_ascii_of_string (NilEmpty.string_of_uint d)).
Proof.
  induction d; cbn [String.list_ascii_of_string NilEmpty.string_of_uint];
    constructor; try done; by eexists.
Qed.

Lemma more_digits_uint (d : Decimal.uint) (acc : Z) :
  more_digits acc (String.list_ascii_of_string (NilEmpty.string_of_uint d))
  = Some (decimal_value acc d).
Proof.
  revert acc.
  induction d; intros acc;
    cbn [String.list_ascii_of_string NilEmpty.string_of_uint decimal_value];
    first [done|erewrite more_digits_step by reflexivity; apply IHd].
Qed.

Lemma decimal_value_acc (d : Decimal.uint) (acc : positive) :
  decimal_value (Z.pos acc) d = Z.pos (Pos.of_uint_acc d acc).
Proof.
  revert acc.
  induction d; intros acc; cbn [decimal_value Pos.of_uint_acc];
    first [done|rewrite <- IHd; f_equal; lia].
Qed.

Lemma decimal_value_of_uint (d : Decimal.uint) :
  decimal_value 0 d = Z.of_N (Pos.of_uint d).
Proof.
  induction d; cbn [decimal_value Pos.of_uint Z.of_N];
    first [done|exact IHd|by rewrite <- decimal_value_acc].
Qed.

Lemma lstrip_keep (l : list ascii) :
  Forall (λ a, is_space a = false) l → lstrip l = l.
Proof. destruct l as [|a l]; [done|]. intros H. inversion H as [|? ? Ha]. simpl. by rewrite Ha. Qed.

Lemma strip_keep (l : list ascii) :
  Forall (λ a, is_space a = false) l → strip l = l.
Proof.
  intros H. unfold strip. rewrite (lstrip_keep l H).
  rewrite lstrip_keep by by apply List.Forall_rev.
  apply rev_involutive.
Qed.

Lemma length_list_ascii (s : string) :
  length (String.list_ascii_of_string s) = String.length s.
Proof. induction s as [|a s IH]; [done|]. simpl. by rewrite IH. Qed.

(** The digits of a number that was written out are read back as it. *)
Lemma digits_uint (d : Decimal.uint) :
  d ≠ Decimal.Nil →
  length (String.list_ascii_of_string (NilEmpty.string_of_uint d)) ≤ max_str_digits →
  digits (String.list_ascii_of_string (NilEmpty.string_of_uint d))
  = Some (Z.of_N (Pos.of_uint d)).
Proof.
  intros Hd Hlen. rewrite <- decimal_value_of_uint, <- more_digits_uint.
  pose proof (uint_digits d) as Hall.
  destruct (String.list_ascii_of_string (NilEmpty.string_of_uint d)) as [|a l] eqn:Hl.
  { by destruct d. }
  inversion Hall as [|? ? [v Hv] Hrest]; subst.
  unfold digits. rewrite Hv.
  pose proof (length_filter (λ a, is_Some (digit_val a)) (a :: l)) as Hf.
  destruct (Nat.ltb_spec max_str_digits
              (length (filter (λ a, is_Some (digit_val a)) (a :: l)))) as [Hgt|_].
  { exfalso. clear -Hgt Hf Hlen. revert Hgt Hf Hlen.
    generalize (length (filter (λ a0, is_Some (digit_val a0)) (a :: l))).
    generalize (length (a :: l)). generalize max_str_digits. intros. lia. }
  by rewrite (more_digits_step 0 v a l Hv).
Qed.

Lemma digits_not_space (l : list ascii) :
  Forall (λ a, is_Some (digit_val a)) l → Forall (λ a, is_space a = false) l.
Proof.
  intros H. eapply Forall_impl; [exact H|].
  intros a [v Hv]. by destruct (digit_char a v Hv).
Qed.

(** An ASCII text is its own characters, and [int] takes them as they
    are. *)
Lemma code_points_plain (l : list ascii) :
  Forall (λ a, (N_of_ascii a < 127)%N) l →
  code_points (N_of_ascii <$> l) = Some (N_of_ascii <$> l).
Proof.
  induction 1 as [|a l Ha _ IH]; [done|].
  cbn [fmap list_fmap code_points]. rewrite IH.
  destruct (N.ltb_spec (N_of_ascii a) 128) as [_|Hge]; [done|lia].
Qed.

Lemma to_ascii_plain (l : list ascii) :
  Forall (λ a, (N_of_ascii a < 127)%N) l → to_ascii <$> (N_of_ascii <$> l) = l.
Proof.
  induction 1 as [|a l Ha _ IH]; [done|].
  cbn [fmap list_fmap]. f_equal; [|exact IH].
  unfold to_ascii. destruct (N.ltb_spec (N_of_ascii a) 127) as [_|Hge]; [|lia].
  apply ascii_N_embedding.
Qed.

Lemma py_int_plain (s : string) :
  Forall (λ a, (N_of_ascii a < 127)%N) (String.list_ascii_of_string s) →
  py_int s = ascii_int (String.list_ascii_of_string s).
Proof.
  intros H. unfold py_int. by rewrite (code_points_plain _ H), (to_ascii_plain _ H).
Qed.

Lemma digits_plain (l : list ascii) :
  Forall (λ a, is_Some (digit_val a)) l → Forall (λ a, (N_of_ascii a < 127)%N) l.
Proof.
  intros H. eapply Forall_impl; [exact H|].
  intros a [v Hv]. revert Hv.
  destruct a as [[] [] [] [] [] [] [] []]; vm_compute; intros; done.
Qed.

Lemma str_plain (n : Z) :
  Forall (λ a, (N_of_ascii a < 127)%N) (String.list_ascii_of_string (str n)).
Proof.
  assert (∀ p, NilZero.string_of_uint (Pos.to_uint p)
               = NilEmpty.string_of_uint (Pos.to_uint p)) as Hnil.
  { intros p. pose proof (Unsigned.to_uint_nonnil p). unfold NilZero.string_of_uint.
    by destruct (Pos.to_uint p). }
  unfold str. destruct n as [|p|p]; cbn [Z.to_int]; unfold NilZero.string_of_int.
  - vm_compute. by repeat constructor.
  - rewrite Hnil. apply digits_plain, uint_digits.
  - rewrite Hnil. cbn [String.list_ascii_of_string]. constructor; [by vm_compute|].
    apply digits_plain, uint_digits.
Qed.

(** [int(str(n))] is [n], for every integer [str] can write out. *)
Lemma py_int_str (n : Z) :
  String.length (str n) ≤ max_str_digits → py_int (str n) = Some n.
Proof.
  rewrite (py_int_plain _ (str_plain n)).
  unfold str, ascii_int. destruct n as [|p|p]; cbn [Z.to_int].
  - intros _. by vm_compute.
  - unfold NilZero.string_of_int, NilZero.string_of_uint.
    pose proof (Unsigned.to_uint_nonnil p) as Hnn.
    pose proof (Unsigned.of_to p) as Hof.
    destruct (Pos.to_uint p) as [|d|d|d|d|d|d|d|d|d|d] eqn:Hd; [done|..];
      rewrite <- length_list_ascii; intros Hlen;
      (rewrite strip_keep by apply digits_not_space, uint_digits);
      pose proof (digits_uint _ Hnn Hlen) as Hrun; rewrite Hof in Hrun;
      exact Hrun.
  - unfold NilZero.string_of_int.
    assert (NilZero.string_of_uint (Pos.to_uint p)
            = NilEmpty.string_of_uint (Pos.to_uint p)) as ->.
    { pose proof (Unsigned.to_uint_nonnil p). unfold NilZero.string_of_uint.
      by destruct (Pos.to_uint p). }
    rewrite <- length_list_ascii. cbn [String.list_ascii_of_string length]. intros Hlen.
    rewrite strip_keep.
    2:{ constructor; [done|]. apply digits_not_space, uint_digits. }
    change (Ascii.eqb "-" "-") with true. cbv iota.
    rewrite digits_uint.
    + by rewrite Unsigned.of_to.
    + apply Unsigned.to_uint_nonnil.
    + revert Hlen. generalize max_str_digits. intros. lia.
Qed.

(** What [int] makes of some lines: digits of any script are read, blanks
    of any script are dropped, and a separator character, a sign that is
    not ASCII, a letter or bytes that are no text are refused. *)
Lemma py_int_examples :
  py_int " 3 " = Some 3%Z ∧ py_int "-0" = Some 0%Z ∧ py_int "1_0" = Some 10%Z ∧
  py_int "٣" = Some 3%Z ∧ py_int "１２" = Some 12%Z ∧
  py_int (String (ascii_of_nat 194) (String (ascii_of_nat 160) "3")) = Some 3%Z ∧
  py_int (String (ascii_of_nat 28) "3") = None ∧
  py_int "−3" = None ∧ py_int "3é" = None ∧ py_int "²" = None ∧
  py_int (String (ascii_of_nat 255) "3") = None.
Proof. by vm_compute. Qed.

(** X18.  A number the program shows is a number the program accepts.  For
    every integer [k] that [str] can write out, [int] reads the text of [k]
    back as [k]; so when the line typed is the text of [k], the main menu
    accepts it as the choice [k] whenever the action list has a [k]-th
    action, and the inventory menu accepts it whenever [k] is one of its
    entries, in both cases at the first attempt and without a complaint. *)
Theorem shown_number_is_accepted (w : World) (k : Z) (rest : list string) :
  String.length (str k) ≤ max_str_digits →
  stdin w = str k :: rest →
  py_int (str k) = Some k ∧
  (∀ actions, (1 ≤ k ≤ len actions)%Z →
     Player.select actions w = Ok (Some k) (advance rest [Prompt "> "] w) ∧
     ∃ a, actions !! Z.to_nat (k - 1) = Some a) ∧
  (∀ self P l, containers w !! self = Some P → item_lists w !! c_items P = Some l →
     (1 ≤ k ≤ len l + 1)%Z →
     Player.select_item self w = Ok (Some k) (advance rest [Prompt "> "] w)).
Proof.
  intros Hlen Hin. pose proof (py_int_str k Hlen) as Hint. split_and!.
  - done.
  - intros actions Hk.
    assert (choice_of (len actions) (str k) = Some k) as Hc by by apply choice_of_range.
    split; [|by apply choice_in_list].
    by rewrite (select_step actions w (str k) rest Hin), Hc.
  - intros self P l HP Hl Hk.
    assert (choice_of (len l + 1) (str k) = Some k) as Hc by by apply choice_of_range.
    by rewrite (select_item_step w self P l (str k) rest HP Hl Hin), Hc.
Qed.

Lemma shown_number_is_accepted_witness :
  py_int (str 12) = Some 12%Z ∧
  Player.select (canonical [0] [0; 2]) (start ["4"])
  = Ok (Some 4%Z) (advance [] [Prompt "> "] (start ["4"])).
Proof.
  split.
  - apply (shown_number_is_accepted (start ["12"]) 12 []);
      [apply Nat.leb_le; by vm_compute|reflexivity].
  - destruct (shown_number_is_accepted (start ["4"]) 4 []) as (_ & Hsel & _);
      [apply Nat.leb_le; by vm_compute|reflexivity|].
    apply (Hsel (canonical [0] [0; 2])). unfold len. cbn. lia.
Defined.

(** *** What the main menu shows *)

Lemma print_run (s : string) (o : list Output) (w : World) :
  print s (says o w) = Ok tt (says (o ++ [Line s]) w).
Proof. unfold print, modify. by rewrite <- says_says. Qed.

Lemma items_loop_run (w : World) (its : list iref) (i : Z) (actions : list PlayerAction)
    (o : list Output) :
  (∀ it, it ∈ its → is_Some (items w !! it)) →
  for_in its
    (fun item '(i, actions) =>
       let i := (i + 1)%Z in
       n <- Item.get_name item;;
       print ("  (" +:+ str i +:+ ") " +:+ n);;
       d <- Item.get_description item;;
       print ("    " +:+ d);;
       ret (i, actions ++ [Take item]))
    (i, actions) (says o w)
  = Ok ((i + len its)%Z, actions ++ map Take its)
      (says (o ++ concat (imap (λ j it, item_entry w (i + 1 + Z.of_nat j) it) its)) w).
Proof.
  revert i actions o. induction its as [|it its IH]; intros i actions o Hall.
  - cbn. unfold ret. rewrite !app_nil_r. unfold len. cbn. by rewrite Z.add_0_r.
  - destruct (Hall it) as [I HI]; [apply elem_of_cons; by left|].
    cbn [for_in]. cbv zeta.
    rewrite (bind_ok _ _ _ (i + 1, actions ++ [Take it])%Z
               (says (o ++ item_entry w (i + 1) it) w)).
    2:{ rewrite (bind_ok _ _ _ (i_name I) (says o w)) by by apply (get_run items i_name).
        rewrite (bind_ok _ _ _ tt _ (print_run _ _ _)).
        rewrite (bind_ok _ _ _ (i_description I) _) by by apply (get_run items i_description).
        rewrite (bind_ok _ _ _ tt _ (print_run _ _ _)).
        unfold ret, item_entry. rewrite HI. by rewrite <- !app_assoc. }
    rewrite IH.
    2:{ intros it' Hit'. apply Hall, elem_of_cons. by right. }
    f_equal.
    + f_equal; [unfold len; cbn [length]; lia|by rewrite <- app_assoc].
    + f_equal. rewrite <- app_assoc. f_equal. rewrite imap_cons. cbn [concat].
      rewrite Z.add_0_r. f_equal. f_equal. apply imap_ext. intros j x _. cbn.
      f_equal. lia.
Qed.

Lemma exits_loop_run (w : World) (exs : list eref) (i : Z) (actions : list PlayerAction)
    (o : list Output) :
  (∀ ex, ex ∈ exs → ∃ E C, exits w !! ex = Some E ∧ containers w !! e_to E = Some C) →
  for_in exs
    (fun ex '(i, actions) =>
       let i := (i + 1)%Z in
       to <- Exit.get_to ex;;
       n <- Container.get_name to;;
       print ("  (" +:+ str i +:+ ") " +:+ n);;
       d <- Exit.get_description ex;;
       print ("    " +:+ d);;
       ret (i, actions ++ [Go ex]))
    (i, actions) (says o w)
  = Ok ((i + len exs)%Z, actions ++ map Go exs)
      (says (o ++ concat (imap (λ j ex, exit_entry w (i + 1 + Z.of_nat j) ex) exs)) w).
Proof.
  revert i actions o. induction exs as [|ex exs IH]; intros i actions o Hall.
  - cbn. unfold ret. rewrite !app_nil_r. unfold len. cbn. by rewrite Z.add_0_r.
  - destruct (Hall ex) as (E & C & HE & HC); [apply elem_of_cons; by left|].
    cbn [for_in]. cbv zeta.
    rewrite (bind_ok _ _ _ (i + 1, actions ++ [Go ex])%Z
               (says (o ++ exit_entry w (i + 1) ex) w)).
    2:{ rewrite (bind_ok _ _ _ (e_to E) (says o w)) by by apply (get_run exits e_to).
        rewrite (bind_ok _ _ _ (c_name C) (says o w)) by by apply (get_run containers c_name).
        rewrite (bind_ok _ _ _ tt _ (print_run _ _ _)).
        rewrite (bind_ok _ _ _ (e_description E) _) by by apply (get_run exits e_description).
        rewrite (bind_ok _ _ _ tt _ (print_run _ _ _)).
        unfold ret, exit_entry. rewrite HE, HC. by rewrite <- !app_assoc. }
    rewrite IH.
    2:{ intros ex' Hex'. apply Hall, elem_of_cons. by right. }
    f_equal.
    + f_equal; [unfold len; cbn [length]; lia|by rewrite <- app_assoc].
    + f_equal. rewrite <- app_assoc. f_equal. rewrite imap_cons. cbn [concat].
      rewrite Z.add_0_r. f_equal. f_equal. apply imap_ext. intros j x _. cbn.
      f_equal. lia.
Qed.

Lemma listing_run (w : World) (self loc : cref) (its : list iref) (exs : list eref)
    (o : list Output) :
  closed w → stands_in w self loc its exs →
  Player.print_and_get_actions self (says o w)
  = Ok (canonical its exs) (says (o ++ listing w its exs) w).
Proof.
  intros Hcl (P & L & room & er & HP & HPx & HL & HLx & Hits & Hexs).
  assert (∀ it, it ∈ its → is_Some (items w !! it)) as Hitems.
  { intros it Hit. destruct (closed_item w _ its it Hcl Hits Hit) as (I & _ & HI & _).
    by exists I. }
  assert (∀ ex, ex ∈ exs →
            ∃ E C, exits w !! ex = Some E ∧ containers w !! e_to E = Some C) as Hexits.
  { intros ex Hex. by apply (closed_exit w er exs ex). }
  unfold Player.print_and_get_actions.
  rewrite (bind_ok _ _ _ (Some loc) (says o w)) by by apply (get_location_run _ self P).
  do 5 rewrite (bind_ok _ _ _ tt _ (print_run _ _ _)).
  rewrite (bind_ok _ _ _ loc _) by done.
  rewrite (bind_ok _ _ _ its _) by by apply items_of_run with L.
  rewrite (bind_ok _ _ _ _ _ (items_loop_run w its 2 [Quit; Inventory] _ Hitems)).
  cbn [fst snd].
  set (o1 := (((((o ++ [Line "Actions:"]) ++ [Line "  (1) Quit"])
                ++ [Line "  (2) Inventory"]) ++ [Line ""]) ++ [Line "Items:"])
             ++ concat (imap (λ j it, item_entry w (2 + 1 + Z.of_nat j) it) its)).
  rewrite (bind_ok _ _ _ tt
             (says (o1 ++ if its is [] then [Line "  (no available items)"] else []) w)).
  2:{ destruct its as [|it its].
      - cbn. apply print_run.
      - destruct (Z.eqb_spec (2 + len (it :: its)) 2) as [Heq|_].
        + unfold len in Heq. cbn [length] in Heq. lia.
        + unfold ret. by rewrite app_nil_r. }
  do 2 rewrite (bind_ok _ _ _ tt _ (print_run _ _ _)).
  rewrite (bind_ok _ _ _ exs _) by by apply (exits_of_run _ loc L room er).
  rewrite (bind_ok _ _ _ _ _ (exits_loop_run w exs _ _ _ Hexits)).
  unfold ret. cbn [snd]. f_equal.
  f_equal. unfold o1, listing. rewrite <- !app_assoc. cbn [app].
  do 6 f_equal. f_equal. do 4 f_equal.
  apply imap_ext. intros j ex _. cbn. f_equal. lia.
Qed.

(** X19.  The main menu shows what it offers, under the number that selects
    it.  For a player standing in a location, [print_and_get_actions]
    returns normally and writes exactly this: the heading, Quit as entry 1
    and Inventory as entry 2; under Items, for the item at each place [j] of
    the location's item sequence, its name as entry [3 + j] and its
    description, or the line (no available items) when there is no item;
    under Exits, for the exit at each place [j] of the exit sequence, the
    name of the location it leads to as entry [3 + n + j], [n] being the
    number of items, and its description.  And the action the returned list
    holds under each of these numbers is the one shown: the [Take] of that
    item, the [Go] through that exit. *)
Theorem menu_shows_what_it_offers (w : World) (self loc : cref)
    (its : list iref) (exs : list eref) :
  closed w → stands_in w self loc its exs →
  Player.print_and_get_actions self w
  = Ok (canonical its exs) (says (listing w its exs) w) ∧
  canonical its exs !! Z.to_nat (1 - 1) = Some Quit ∧
  canonical its exs !! Z.to_nat (2 - 1) = Some Inventory ∧
  (∀ j item, its !! j = Some item →
     canonical its exs !! Z.to_nat (3 + Z.of_nat j - 1) = Some (Take item)) ∧
  (∀ j ex, exs !! j = Some ex →
     canonical its exs !! Z.to_nat (3 + len its + Z.of_nat j - 1) = Some (Go ex)).
Proof.
  intros Hcl Hst. split_and!.
  - pose proof (listing_run w self loc its exs [] Hcl Hst) as Hrun.
    by rewrite says_nil in Hrun.
  - done.
  - done.
  - intros j item Hj.
    replace (Z.to_nat (3 + Z.of_nat j - 1)) with (S (S j)) by lia.
    unfold canonical. cbn [app lookup list_lookup].
    apply lookup_app_l_Some. by rewrite list_lookup_fmap, Hj.
  - intros j ex Hj.
    replace (Z.to_nat (3 + len its + Z.of_nat j - 1)) with (2 + length its + j)
      by (unfold len; lia).
    unfold canonical.
    rewrite lookup_app_r by (cbn [length]; lia).
    rewrite lookup_app_r by (rewrite List.length_map; cbn [length]; lia).
    rewrite List.length_map. cbn [length].
    replace (2 + length its + j - 2 - length its) with j by lia.
    by rewrite list_lookup_fmap, Hj.
Qed.

Lemma menu_shows_what_it_offers_witness :
  Player.print_and_get_actions 4 in_kitchen
  = Ok [Quit; Inventory; Take 1; Take 2; Go 3; Go 6]
      (says [Line "Actions:"; Line "  (1) Quit"; Line "  (2) Inventory"; Line "";
             Line "Items:";
             Line "  (3) Mango"; Line "    A juicy Mango.";
             Line "  (4) Apple"; Line "    A juicy Apple.";
             Line ""; Line "Exits:";
             Line "  (5) Lounge"; Line "    Go to the Lounge.";
             Line "  (6) Dining Room"; Line "    Go to the Dining Room."]
         in_kitchen).
Proof.
  destruct (menu_shows_what_it_offers in_kitchen 4 1 [1; 2] [3; 6]) as [Hrun _].
  - vm_compute. repeat constructor.
  - exists (mkContainer "Ann" "You are you." 5 (IsPlayer (Some 1))),
      (mkContainer "Kitchen" "kitchen" 2 (IsLocation true 1)), true, 1.
    vm_compute. repeat split.
  - rewrite Hrun. by vm_compute.
Defined.

(** *** Retargeting an exit *)

(** X20.  [set_to] and [set_description] each change one field of one exit.
    After [set_to] the exit leads to the new container, its description is
    what it was (so an exit made by [create_twoway_link] still says Go to
    the name of the location it led to before), and every other exit is as
    it was; a player who then goes through the exit arrives in the new
    container, and the line written names the new one.  After
    [set_description] the exit has the new description and leads where it
    led. *)
Theorem retargeted_exit_leads_elsewhere (extern : nat → M unit) (w : World)
    (self : cref) (P : Container) (l0 : option cref) (e : eref) (E : Exit)
    (c : cref) (C : Container) (d : string) :
  containers w !! self = Some P → c_extra P = IsPlayer l0 →
  exits w !! e = Some E → containers w !! c = Some C →
  (∃ w1 w2,
     Exit.set_to e c w = Ok tt w1 ∧
     Exit.get_to e w1 = Ok c w1 ∧
     Exit.get_description e w1 = Ok (e_description E) w1 ∧
     (∀ e', e' ≠ e → exits w1 !! e' = exits w !! e') ∧
     Player.perform extern self (Go e) w1 = Ok tt w2 ∧
     Player.get_location self w2 = Ok (Some c) w2 ∧
     last (stdout w2) = Some (Line ("You go to the " +:+ c_name C +:+ "."))) ∧
  (∃ w1,
     Exit.set_description e d w = Ok tt w1 ∧
     Exit.get_description e w1 = Ok d w1 ∧
     Exit.get_to e w1 = Ok (e_to E) w1 ∧
     (∀ e', e' ≠ e → exits w1 !! e' = exits w !! e')).
Proof.
  intros HP HPx HE HC.
  assert (e < length (exits w)) as Hlt by by eapply lookup_lt_Some.
  assert (self < length (containers w)) as Hslt by by eapply lookup_lt_Some.
  split.
  - set (E1 := mkExit c (e_description E)).
    set (w1 := set_exits (<[e := E1]>) w).
    assert (exits w1 !! e = Some E1) as HE1 by by apply list_lookup_insert_eq.
    eexists w1, _. split_and!.
    + unfold Exit.set_to, bind, load, modify. by rewrite HE.
    + by apply (get_run exits e_to _ E1).
    + by apply (get_run exits e_description _ E1).
    + intros e' He'. cbn. by rewrite list_lookup_insert_ne.
    + by apply (go_run extern w1 self P l0 e E1 C).
    + eapply get_location_run; [cbn; by apply list_lookup_insert_eq|done].
    + cbn. apply last_snoc.
  - set (E1 := mkExit (e_to E) d).
    set (w1 := set_exits (<[e := E1]>) w).
    assert (exits w1 !! e = Some E1) as HE1 by by apply list_lookup_insert_eq.
    exists w1. split_and!.
    + unfold Exit.set_description, bind, load, modify. by rewrite HE.
    + by apply (get_run exits e_description _ E1).
    + by apply (get_run exits e_to _ E1).
    + intros e' He'. cbn. by rewrite list_lookup_insert_ne.
Qed.

Lemma retargeted_exit_leads_elsewhere_witness :
  ∃ w1 w2,
    Exit.set_to 0 3 (start []) = Ok tt w1 ∧
    Exit.get_description 0 w1 = Ok "Go to the Hall." w1 ∧
    Player.perform quiet 4 (Go 0) w1 = Ok tt w2 ∧
    Player.get_location 4 w2 = Ok (Some 3) w2 ∧
    last (stdout w2) = Some (Line "You go to the Dining Room.").
Proof.
  destruct (retargeted_exit_leads_elsewhere quiet (start []) 4
              (mkContainer "Ann" "You are you." 5 (IsPlayer (Some 0))) (Some 0) 0
              (mkExit 2 "Go to the Hall.") 3
              (mkContainer "Dining Room" "dining room" 4 (IsLocation true 3)) ""
              eq_refl eq_refl eq_refl eq_refl)
    as [(w1 & w2 & Hset & _ & Hdesc & _ & Hgo & Hloc & Hlast) _].
  exists w1, w2. split_and!; assumption.
Defined.

(** *** The map of the game *)

Lemma exits_of_inv (w : World) (c : cref) (l : list eref) (w' : World) :
  exits_of c w = Ok l w' →
  ∃ C room er, containers w !! c = Some C ∧ c_extra C = IsLocation room er ∧
               exit_lists w !! er = Some l.
Proof.
  unfold exits_of, Location.get_exits, bind, load, ret, raise.
  destruct (containers w !! c) as [C|] eqn:HC; [|done].
  destruct (c_extra C) as [|room er|] eqn:Hx; [done| |done].
  destruct (exit_lists w !! er) as [l'|] eqn:Hl; [|done].
  intros [= <- _]. by exists C, room, er.
Qed.

Lemma get_to_inv (w : World) (e : eref) (b : cref) (w' : World) :
  Exit.get_to e w = Ok b w' → (e_to <$> exits w) !! e = Some b.
Proof.
  unfold Exit.get_to, bind, load, ret. rewrite list_lookup_fmap.
  destruct (exits w !! e) as [E|]; [|done]. by intros [= <- _].
Qed.

Lemma get_to_kept (w : World) (e : eref) (b : cref) :
  (e_to <$> exits w) !! e = Some b → Exit.get_to e w = Ok b w.
Proof.
  rewrite list_lookup_fmap. unfold Exit.get_to, bind, load, ret.
  destruct (exits w !! e) as [E|]; [|done]. by intros [= <-].
Qed.

Lemma kind_location (x : Extra) (room : bool) (er : elref) :
  kind x = IsLocation room er → x = IsLocation room er.
Proof. by destruct x. Qed.

Lemma exits_of_kind (w : World) (c : cref) (room : bool) (er : elref) (l : list eref) :
  ((λ C, kind (c_extra C)) <$> containers w) !! c = Some (IsLocation room er) →
  exit_lists w !! er = Some l →
  exits_of c w = Ok l w.
Proof.
  rewrite list_lookup_fmap. intros Hc Hl.
  destruct (containers w !! c) as [C|] eqn:HC; [|done].
  injection Hc as Hc. apply kind_location in Hc.
  by apply (exits_of_run w c C room er).
Qed.

(** The state [__main__] makes and every later state of its game have the
    same fixtures. *)
Lemma main_fixtures (extern : nat → M unit) (r0 r1 r2 r3 name : string)
    (depth : nat) (lines : list string) :
  fixtures (world_of (main extern [r0; r1; r2; r3] depth (module_loaded (name :: lines))))
  = fixtures (world_of (setup [r0; r1; r2; r3] (module_loaded (name :: lines)))).
Proof.
  pose proof (setup_in_play r0 r1 r2 r3 name lines) as Hplay.
  destruct (setup_run r0 r1 r2 r3 name lines) as [w0 Hrun].
  rewrite Hrun in Hplay |- *. cbn [world_of] in Hplay |- *.
  unfold main. rewrite (bind_ok _ _ _ _ _ Hrun). cbn [player].
  rewrite (prompt_own_lambdas extern 4 depth w0) by apply Hplay.
  apply prompt_quiet_fixtures.
Qed.

(** The map [__main__] makes: where each exit leads, the exit sequences,
    and what each container is. *)
Lemma setup_map (r0 r1 r2 r3 name : string) (lines : list string) :
  e_to <$> exits (world_of (setup [r0; r1; r2; r3] (module_loaded (name :: lines))))
  = [2; 0; 1; 0; 3; 2; 3; 1] ∧
  exit_lists (world_of (setup [r0; r1; r2; r3] (module_loaded (name :: lines))))
  = [[0; 2]; [3; 6]; [1; 4]; [5; 7]] ∧
  (λ C, kind (c_extra C))
    <$> containers (world_of (setup [r0; r1; r2; r3] (module_loaded (name :: lines))))
  = [IsLocation true 0; IsLocation true 1; IsLocation false 2;
     IsLocation true 3; IsPlayer None].
Proof. vm_compute. done. Qed.

(** A state with the fixtures of that map is two-way. *)
Lemma map_two_way (w w0 : World) :
  fixtures w = fixtures w0 →
  e_to <$> exits w0 = [2; 0; 1; 0; 3; 2; 3; 1] →
  exit_lists w0 = [[0; 2]; [3; 6]; [1; 4]; [5; 7]] →
  (λ C, kind (c_extra C)) <$> containers w0
  = [IsLocation true 0; IsLocation true 1; IsLocation false 2;
     IsLocation true 3; IsPlayer None] →
  ∀ a b la ea,
    exits_of a w = Ok la w → ea ∈ la → Exit.get_to ea w = Ok b w →
    ∃ lb eb, exits_of b w = Ok lb w ∧ eb ∈ lb ∧ Exit.get_to eb w = Ok a w.
Proof.
  intros Hfix Hto Hel Hk.
  injection Hfix as Hexits Hlists _ Hconts _.
  rewrite <- Hexits in Hto. rewrite <- Hlists in Hel.
  apply (f_equal (fmap (λ x : string * string * lref * Extra, x.2))) in Hconts.
  rewrite <- !list_fmap_compose in Hconts.
  change ((λ C, kind (c_extra C)) <$> containers w
          = (λ C, kind (c_extra C)) <$> containers w0) in Hconts.
  rewrite Hk in Hconts. clear Hexits Hlists Hk. rename Hconts into Hk.
  intros a b la ea Ha Hea Hb.
  apply exits_of_inv in Ha as (C & room & er & HC & HCx & Hla).
  apply get_to_inv in Hb. rewrite Hto in Hb.
  assert (((λ C, kind (c_extra C)) <$> containers w) !! a = Some (IsLocation room er))
    as Ha by (rewrite list_lookup_fmap, HC; cbn; by rewrite HCx).
  rewrite Hk in Ha. rewrite Hel in Hla.
  assert (∀ c room er l e,
            [IsLocation true 0; IsLocation true 1; IsLocation false 2;
             IsLocation true 3; IsPlayer None] !! c = Some (IsLocation room er) →
            [[0; 2]; [3; 6]; [1; 4]; [5; 7]] !! er = Some l → e ∈ l →
            [2; 0; 1; 0; 3; 2; 3; 1] !! e = Some a →
            ∃ lb eb, exits_of c w = Ok lb w ∧ eb ∈ lb ∧ Exit.get_to eb w = Ok a w)
    as Hback.
  { intros c room' er' l e Hc Hl He Hto'. exists l, e. split_and!; [|done|].
    - apply (exits_of_kind w c room' er'); [by rewrite Hk|by rewrite Hel].
    - apply get_to_kept. by rewrite Hto. }
  destruct a as [|[|[|[|[|a]]]]]; simpl in Ha; try discriminate Ha;
    injection Ha as <- <-; simpl in Hla; injection Hla as <-;
    (apply elem_of_cons in Hea as [->|Hea];
     [|apply list_elem_of_singleton in Hea as ->]);
    simpl in Hb; injection Hb as <-.
  - apply (Hback 2 false 2 [1; 4] 1); [done|done|compute_done|done].
  - apply (Hback 1 true 1 [3; 6] 3); [done|done|compute_done|done].
  - apply (Hback 0 true 0 [0; 2] 2); [done|done|compute_done|done].
  - apply (Hback 3 true 3 [5; 7] 7); [done|done|compute_done|done].
  - apply (Hback 0 true 0 [0; 2] 0); [done|done|compute_done|done].
  - apply (Hback 3 true 3 [5; 7] 5); [done|done|compute_done|done].
  - apply (Hback 2 false 2 [1; 4] 4); [done|done|compute_done|done].
  - apply (Hback 1 true 1 [3; 6] 6); [done|done|compute_done|done].
Qed.

(** X21.  At every point of the game [__main__] builds, however long it has
    run and however it ended, the map is two-way: whenever a location has an
    exit that leads to some container, that container is a location with an
    exit that leads back.  Wherever the player can go, the player can come
    back from. *)
Theorem game_map_is_two_way (extern : nat → M unit) (r0 r1 r2 r3 name : string)
    (depth : nat) (lines : list string) :
  let w := world_of (main extern [r0; r1; r2; r3] depth (module_loaded (name :: lines))) in
  ∀ a b la ea,
    exits_of a w = Ok la w → ea ∈ la → Exit.get_to ea w = Ok b w →
    ∃ lb eb, exits_of b w = Ok lb w ∧ eb ∈ lb ∧ Exit.get_to eb w = Ok a w.
Proof.
  destruct (setup_map r0 r1 r2 r3 name lines) as (Hto & Hel & Hk).
  exact (map_two_way _ _ (main_fixtures extern r0 r1 r2 r3 name depth lines) Hto Hel Hk).
Qed.

Lemma game_map_is_two_way_witness :
  let w := world_of (main quiet ["a"; "b"; "c"; "d"] 3 (module_loaded ["Ann"; "4"; "1"])) in
  (exits_of 0 w = Ok [0; 2] w ∧ 0 ∈ [0; 2] ∧ Exit.get_to 0 w = Ok 2 w) ∧
  ∃ lb eb, exits_of 2 w = Ok lb w ∧ eb ∈ lb ∧ Exit.get_to eb w = Ok 0 w.
Proof.
  assert (exits_of 0 (world_of (main quiet ["a"; "b"; "c"; "d"] 3
                                  (module_loaded ["Ann"; "4"; "1"])))
          = Ok [0; 2] (world_of (main quiet ["a"; "b"; "c"; "d"] 3
                                   (module_loaded ["Ann"; "4"; "1"])))) as H1
    by (vm_compute; reflexivity).
  assert (0 ∈ [0; 2]) as H2 by compute_done.
  assert (Exit.get_to 0 (world_of (main quiet ["a"; "b"; "c"; "d"] 3
                                     (module_loaded ["Ann"; "4"; "1"])))
          = Ok 2 (world_of (main quiet ["a"; "b"; "c"; "d"] 3
                              (module_loaded ["Ann"; "4"; "1"])))) as H3
    by (vm_compute; reflexivity).
  split; [by split_and!|].
  exact (game_map_is_two_way quiet "a" "b" "c" "d" "Ann" 3 ["4"; "1"] 0 2 [0; 2] 0 H1 H2 H3).
Defined.

(** *** What the inventory menu shows *)

Lemma inventory_loop_run (w : World) (l : list iref) (k : nat) (o : list Output) :
  (∀ it, it ∈ l → ∃ I U, items w !! it = Some I ∧ uses w !! i_use I = Some U) →
  for_in (imap (λ i a, (Z.of_nat (k + i), a)) l)
    (fun '(i, item) _ =>
       n <- Item.get_name item;;
       print ("  (" +:+ str (i + 2) +:+ ") " +:+ n);;
       d <- Item.get_description item;;
       print ("    " +:+ d);;
       u <- Item.get_use item;;
       ud <- ItemUse.get_description u;;
       print ("    " +:+ ud))
    tt (says o w)
  = Ok tt
      (says (o ++ concat (imap (λ j it, inventory_entry w (2 + Z.of_nat (k + j)) it) l)) w).
Proof.
  revert k o. induction l as [|it l IH]; intros k o Hall.
  - cbn. unfold ret. by rewrite !app_nil_r.
  - destruct (Hall it) as (I & U & HI & HU); [apply elem_of_cons; by left|].
    rewrite !imap_cons. cbn [for_in concat].
    rewrite (bind_ok _ _ _ tt (says (o ++ inventory_entry w (2 + Z.of_nat (k + 0)) it) w)).
    2:{ rewrite (bind_ok _ _ _ (i_name I) (says o w)) by by apply (get_run items i_name).
        rewrite (bind_ok _ _ _ tt _ (print_run _ _ _)).
        rewrite (bind_ok _ _ _ (i_description I) _) by by apply (get_run items i_description).
        rewrite (bind_ok _ _ _ tt _ (print_run _ _ _)).
        rewrite (bind_ok _ _ _ (i_use I) _) by by apply (get_run items i_use).
        rewrite (bind_ok _ _ _ (u_description U) _) by by apply (get_run uses u_description).
        rewrite print_run. unfold inventory_entry. rewrite HI, HU.
        rewrite <- !app_assoc. cbn [app].
        by replace (Z.of_nat (k + 0) + 2)%Z with (2 + Z.of_nat (k + 0))%Z by lia. }
    rewrite (imap_ext _ (λ i a, (Z.of_nat (S k + i), a))).
    2:{ intros j x _. cbn. do 2 f_equal. lia. }
    rewrite (IH (S k)).
    2:{ intros it' Hit'. apply Hall, elem_of_cons. by right. }
    do 2 f_equal. rewrite <- app_assoc. do 3 f_equal.
    apply imap_ext. intros j x _. cbn. do 2 f_equal. lia.
Qed.

Lemma inventory_listing_run (extern : nat → M unit) (w : World) (self : cref)
    (l : list iref) :
  closed w → holds w self l →
  Player.enter_inventory extern self w
  = (choice <- Player.select_item self;;
     if decide (choice = Some 1%Z) then ret tt
     else
       print (from_option str "None" choice);;
       k <- Player.minus choice 2;;
       l <- items_of self;;
       item <- py_index l k;;
       _ <- Item.get_use item;;
       k <- Player.minus choice 2;;
       l <- items_of self;;
       item <- py_index l k;;
       use <- Item.get_use item;;
       ItemUse.execute extern use) (says (inventory_listing w l) w).
Proof.
  intros Hcl (P & HP & Hl).
  assert (∀ it, it ∈ l → ∃ I U, items w !! it = Some I ∧ uses w !! i_use I = Some U)
    as Hall by (intros it Hit; by apply (closed_item w (c_items P) l it)).
  unfold Player.enter_inventory.
  rewrite <- (says_nil w) at 1.
  do 2 rewrite (bind_ok _ _ _ tt _ (print_run _ _ _)).
  rewrite (bind_ok _ _ _ l _) by by apply items_of_run with P.
  change (enumerate l) with (imap (λ i a, (Z.of_nat (0 + i), a)) l).
  rewrite (bind_ok _ _ _ _ _ (inventory_loop_run w l 0 _ Hall)).
  rewrite (bind_ok _ _ _ tt _ (print_run _ _ _)).
  unfold inventory_listing. rewrite <- !app_assoc. done.
Qed.

(** The loop of the inventory skips every line it cannot accept,
    complaining once for each, and stops at the first line it can
    accept. *)
Lemma select_item_rejections (self : cref) (P : Container) (l : list iref)
    (bad : list string) (s : string) (rest : list string) (k : Z) (w : World) :
  containers w !! self = Some P →
  item_lists w !! c_items P = Some l →
  stdin w = bad ++ s :: rest →
  Forall (λ b, choice_of (len l + 1) b = None) bad →
  choice_of (len l + 1) s = Some k →
  Player.select_item self w
  = Ok (Some k) (advance rest (inventory_rejections (len l) bad) w).
Proof.
  revert w. induction bad as [|b bad IH]; intros w HP Hl Hin Hbad Hk.
  - by rewrite (select_item_step w self P l s rest HP Hl Hin), Hk.
  - apply Forall_cons in Hbad as [Hb Hbad].
    rewrite (select_item_step w self P l b (bad ++ s :: rest) HP Hl Hin), Hb.
    rewrite IH; [|done..]. by rewrite advance_advance.
Qed.

(** X22.  The inventory menu shows what the player holds, under the number
    that uses it, and asks until it is given one of these numbers.  For a
    player holding the item sequence [l], the menu writes the heading,
    Close inventory. as entry 1, and for the item at each place [j] of [l]
    its name as entry [2 + j], its description and the description of its
    use, then the line that asks for a number.  Every line typed that
    stands for none of the entries is answered by the complaint and a new
    prompt, and the menu reads on.  When the first line that stands for an
    entry stands for 1, the menu returns normally having written no more
    than this; when it stands for [2 + j] the menu writes the number back
    and executes the use of the item at place [j], the one shown under that
    number.  The line 0, which the menu names as the way out, is not one of
    the entries: the menu complains and goes on asking. *)
Theorem inventory_shows_what_it_holds (extern : nat → M unit) (w : World) (self : cref)
    (l : list iref) :
  closed w → holds w self l →
  (∀ bad s rest,
     stdin w = bad ++ s :: rest →
     Forall (λ b, choice_of (len l + 1) b = None) bad →
     (choice_of (len l + 1) s = Some 1%Z →
      Player.enter_inventory extern self w
      = Ok tt (advance rest
                 (inventory_listing w l ++ inventory_rejections (len l) bad) w)) ∧
     (∀ j item I,
        l !! j = Some item → items w !! item = Some I →
        choice_of (len l + 1) s = Some (2 + Z.of_nat j)%Z →
        Player.enter_inventory extern self w
        = ItemUse.execute extern (i_use I)
            (advance rest
               (inventory_listing w l ++ inventory_rejections (len l) bad
                ++ [Line (str (2 + Z.of_nat j))]) w))) ∧
  (∀ s rest,
     stdin w = "0" :: s :: rest →
     choice_of (len l + 1) s = Some 1%Z →
     Player.enter_inventory extern self w
     = Ok tt (advance rest
                (inventory_listing w l
                 ++ [Prompt "> "; inventory_complaint (len l); Prompt "> "]) w)).
Proof.
  intros Hcl Hh. pose proof Hh as (P & HP & Hl).
  assert (∀ bad s rest,
            stdin w = bad ++ s :: rest →
            Forall (λ b, choice_of (len l + 1) b = None) bad →
            (choice_of (len l + 1) s = Some 1%Z →
             Player.enter_inventory extern self w
             = Ok tt (advance rest
                        (inventory_listing w l ++ inventory_rejections (len l) bad) w)) ∧
            (∀ j item I,
               l !! j = Some item → items w !! item = Some I →
               choice_of (len l + 1) s = Some (2 + Z.of_nat j)%Z →
               Player.enter_inventory extern self w
               = ItemUse.execute extern (i_use I)
                   (advance rest
                      (inventory_listing w l ++ inventory_rejections (len l) bad
                       ++ [Line (str (2 + Z.of_nat j))]) w))) as Hmenu.
  { intros bad s rest Hin Hbad.
    rewrite (inventory_listing_run extern w self l Hcl Hh).
    set (w0 := says (inventory_listing w l) w).
    split.
    - intros Hs.
      rewrite (bind_ok _ _ _ _ _
                 (select_item_rejections self P l bad s rest 1 w0 HP Hl Hin Hbad Hs)).
      rewrite decide_True by done. unfold ret, w0. by rewrite advance_says.
    - intros j item I Hj HI Hs.
      rewrite (bind_ok _ _ _ _ _
                 (select_item_rejections self P l bad s rest _ w0 HP Hl Hin Hbad Hs)).
      rewrite decide_False by (intros [= ?]; lia).
      set (w1 := advance rest (inventory_rejections (len l) bad) w0).
      set (w2 := says [Line (str (2 + Z.of_nat j))] w1).
      rewrite (bind_ok _ _ w1 tt w2) by done.
      assert (l !! Z.to_nat (2 + Z.of_nat j - 2) = Some item) as Hj'
        by by replace (Z.to_nat (2 + Z.of_nat j - 2)) with j by lia.
      do 2 (rewrite (bind_ok _ _ w2 (2 + Z.of_nat j - 2)%Z w2) by done;
            rewrite (bind_ok _ _ w2 l w2) by (by apply items_of_run with P);
            rewrite (bind_ok _ _ w2 item w2) by (apply py_index_run; [lia|done]);
            rewrite (bind_ok _ _ w2 (i_use I) w2) by (by apply (get_run items i_use))).
      f_equal. unfold w2, w1, w0. by rewrite says_advance_after, advance_says. }
  split; [exact Hmenu|].
  intros s rest Hin Hs.
  destruct (Hmenu ["0"] s rest Hin) as [Hclose _].
  { constructor; [|done]. unfold choice_of. by change (py_int "0") with (Some 0%Z). }
  exact (Hclose Hs).
Qed.

Lemma inventory_shows_what_it_holds_witness :
  Player.enter_inventory quiet 4 (taken_then ["0"; "1"])
  = Ok tt
      (advance []
         [Line "Inventory:"; Line "  (1) Close inventory.";
          Line "  (2) Crown"; Line "    A golden crown."; Line "    Wear the crown.";
          Line "Enter item number to use or 0 to exit:"; Prompt "> ";
          Line "Invalid choice. Please enter a number between 0 and 1."; Prompt "> "]
         (taken_then ["0"; "1"])).
Proof.
  destruct (inventory_shows_what_it_holds quiet (taken_then ["0"; "1"]) 4 [0])
    as (_ & Hzero).
  - vm_compute. repeat constructor.
  - exists (mkContainer "Ann" "You are you." 5 (IsPlayer (Some 0))).
    vm_compute. repeat split.
  - rewrite (Hzero "1" []) by reflexivity. by vm_compute.
Defined.

(** *** The main menu as a whole *)

Lemma print_location_run (w : World) (self loc : cref) (P L : Container)
    (o : list Output) :
  containers w !! self = Some P → c_extra P = IsPlayer (Some loc) →
  containers w !! loc = Some L →
  Player.print_location self (says o w)
  = Ok tt (says (o ++ [Line ("Location: " +:+ c_name L); Line (c_description L)]) w).
Proof.
  intros HP HPx HL. unfold Player.print_location.
  rewrite (bind_ok _ _ _ (Some loc) (says o w)) by by apply (get_location_run _ self P).
  rewrite (bind_ok _ _ _ loc (says o w)) by done.
  rewrite (bind_ok _ _ _ (c_name L) (says o w)) by by apply (get_run containers c_name).
  rewrite (bind_ok _ _ _ tt _ (print_run _ _ _)).
  rewrite (bind_ok _ _ _ (c_description L) _) by by apply (get_run containers c_description).
  rewrite print_run. by rewrite <- app_assoc.
Qed.

(** The part of a turn before the selection writes the screen and yields
    the action list. *)
Lemma turn_shows {B} (w : World) (self loc : cref) (its : list iref)
    (exs : list eref) (k : list PlayerAction → M B) (o : list Output) :
  closed w → stands_in w self loc its exs →
  (print (string_repeat "=" 30);;
   Player.print_location self;;
   print "";;
   actions <- Player.print_and_get_actions self;;
   print "";;
   print "What would you like to do?";;
   k actions) (says o w)
  = k (canonical its exs) (says (o ++ screen w loc its exs) w).
Proof.
  intros Hcl Hst. pose proof Hst as (P & L & room & er & HP & HPx & HL & HLx & Hits & Hexs).
  rewrite (bind_ok _ _ _ tt _ (print_run _ _ _)).
  rewrite (bind_ok _ _ _ tt _ (print_location_run w self loc P L _ HP HPx HL)).
  rewrite (bind_ok _ _ _ tt _ (print_run _ _ _)).
  rewrite (bind_ok _ _ _ _ _ (listing_run w self loc its exs _ Hcl Hst)).
  do 2 rewrite (bind_ok _ _ _ tt _ (print_run _ _ _)).
  do 2 f_equal. unfold screen. rewrite HL. rewrite <- !app_assoc. done.
Qed.

(** A turn whose accepted line stands for [k] has written the screen and a
    complaint for every line before it, read up to the accepted line, and
    goes on with the [k]-th action. *)
Lemma turn_exact (extern : nat → M unit) (w : World) (self loc : cref)
    (its : list iref) (exs : list eref) (bad : list string) (s : string)
    (rest : list string) (k : Z) (a : PlayerAction) :
  closed w → stands_in w self loc its exs →
  stdin w = bad ++ s :: rest →
  Forall (λ b, choice_of (len (canonical its exs)) b = None) bad →
  choice_of (len (canonical its exs)) s = Some k →
  canonical its exs !! Z.to_nat (k - 1) = Some a →
  Player.turn extern self w
  = Player.perform extern self a
      (advance rest
         (screen w loc its exs ++ rejections (len (canonical its exs)) bad) w).
Proof.
  intros Hcl Hst Hin Hbad Hk Ha. unfold Player.turn.
  pose proof (turn_shows w self loc its exs
                (λ actions, action <- Player.select actions;;
                            k <- Player.minus action 1;;
                            a <- py_index actions k;;
                            Player.perform extern self a) [] Hcl Hst) as Hshow.
  rewrite says_nil in Hshow. rewrite Hshow. cbn [app].
  unfold bind at 1.
  rewrite (select_after_rejections _ bad s rest k) by done.
  unfold bind at 1, Player.minus, ret at 1. unfold bind at 1.
  apply choice_of_range in Hk as [_ Hr].
  rewrite (py_index_run _ _ a) by (done || lia).
  by rewrite advance_says.
Qed.

(** The state the [Take] branch leaves, whether or not the player's item
    sequence is the list object of the location. *)
Lemma take_any (extern : nat → M unit) (w : World) (self loc : cref)
    (P L : Container) (I : Item) (U : ItemUse) (ll : list iref) (item : iref) :
  containers w !! self = Some P → c_extra P = IsPlayer (Some loc) →
  containers w !! loc = Some L →
  item_lists w !! c_items L = Some ll →
  c_items P < length (item_lists w) →
  items w !! item = Some I → uses w !! i_use I = Some U →
  ∃ lp',
    <[c_items L := without_first item ll]> (item_lists w) !! c_items P = Some lp' ∧
    Player.perform extern self (Take item) w
    = Ok tt (mkWorld
               (<[c_items P := lp' ++ [item]]>
                  (<[c_items L := without_first item ll]> (item_lists w)))
               (exit_lists w) (containers w) (exits w)
               (<[i_use I := mkItemUse (u_name U) (u_description U) (u__item U)
                               (u__destroy_on_execute U) (Some self) (u_execute U)]>
                  (uses w))
               (items w) (stdin w)
               (stdout w ++ [Line ("You take the " +:+ i_name I +:+ ".")])).
Proof.
  intros HP HPx HL Hll Hlt HI HU.
  destruct (lookup_lt_is_Some_2
              (<[c_items L := without_first item ll]> (item_lists w)) (c_items P))
    as [lp' Hlp']; [by rewrite length_insert|].
  exists lp'. split; [done|].
  unfold Player.perform.
  set (w1 := says [Line ("You take the " +:+ i_name I +:+ ".")] w).
  destruct (remove_item_without_first w1 loc L ll item HL Hll)
    as (w2 & Hrm & _ & Hl2 & Hel2 & Hc2 & He2 & Hu2 & Hi2 & Hin2 & Hout2).
  assert (item_lists w2 !! c_items P = Some lp') as Hlp2 by by rewrite Hl2.
  assert (containers w2 !! self = Some P) as HP2 by by rewrite Hc2.
  set (w3 := set_item_lists (<[c_items P := lp' ++ [item]]>) w2).
  rewrite (bind_ok _ _ w (i_name I) w) by by apply (get_run items i_name).
  rewrite (bind_ok _ _ w tt w1) by done.
  rewrite (bind_ok _ _ w1 (Some loc) w1) by by apply (get_location_run w1 self P).
  rewrite (bind_ok _ _ w1 loc w1) by done.
  rewrite (bind_ok _ _ w1 tt w2) by done.
  rewrite (bind_ok _ _ w2 tt w3) by by apply (add_item_run w2 self P lp').
  rewrite (bind_ok _ _ w3 (i_use I) w3).
  2:{ apply (get_run items i_use). cbn. by rewrite Hi2. }
  unfold ItemUse.set_virtual_location, bind, load, modify.
  cbn [uses w3 set_item_lists]. rewrite Hu2. cbn [uses w1 says set_stdout].
  rewrite HU. f_equal. unfold w3, set_uses, set_item_lists. cbn.
  by rewrite Hl2, Hel2, Hc2, He2, Hu2, Hi2, Hin2, Hout2.
Qed.

(** C3.  In the main menu over an action list of length [n]:
    - a line stands for a choice exactly when it parses as an integer [k]
      with [1 ≤ k ≤ n];
    - the loop, reading a line, returns its choice [k] when it has one, and
      the list has a [k]-th action; otherwise it writes the complaint
      naming 1 and [n] and goes on as the loop started afresh on the lines
      that are left: it asks again;
    - whatever the lines are, the loop ends either with a choice in range,
      having complained about every line before it, or, when no line can be
      accepted, with the [EOFError] of [input] once no line is left; it
      raises nothing else and accepts nothing out of range;
    - a turn whose accepted line stands for [k] has written the screen, a
      complaint for each line before it and nothing else, and does what the
      [k]-th action of the list is: for [Quit] it writes Goodbye! and
      raises [SystemExit]; for [Inventory] it opens the inventory menu; for
      the [Take] of an item it writes You take the (name)., appends the
      item to the player's item sequence after removing its first entry
      from the location's, and makes the player the owner of its use; for
      the [Go] through an exit it writes You go to the (name). and puts
      the player where the exit leads;
    - with [n = 5], the lines 0, 6 and abc are rejected and 3 is the choice
      3. *)
Theorem main_menu_validates (extern : nat → M unit) (actions : list PlayerAction)
    (w : World) :
  (∀ s k, choice_of (len actions) s = Some k
          ↔ py_int s = Some k ∧ (1 ≤ k ≤ len actions)%Z) ∧
  (∀ s rest, stdin w = s :: rest →
     match choice_of (len actions) s with
     | Some k =>
         Player.select actions w = Ok (Some k) (advance rest [Prompt "> "] w) ∧
         ∃ a, actions !! Z.to_nat (k - 1) = Some a
     | None =>
         Player.select actions w
         = Player.select actions
             (advance rest [Prompt "> "; complaint (len actions)] w)
     end) ∧
  ((∃ bad s rest k,
       stdin w = bad ++ s :: rest ∧
       Forall (λ b, choice_of (len actions) b = None) bad ∧
       choice_of (len actions) s = Some k ∧
       Player.select actions w
       = Ok (Some k) (advance rest (rejections (len actions) bad) w)) ∨
   (Forall (λ b, choice_of (len actions) b = None) (stdin w) ∧
    Player.select actions w
    = Raise EOFError (advance [] (rejections (len actions) (stdin w)) w))) ∧
  (∀ self loc its exs bad s rest k,
     actions = canonical its exs →
     closed w → stands_in w self loc its exs →
     stdin w = bad ++ s :: rest →
     Forall (λ b, choice_of (len actions) b = None) bad →
     choice_of (len actions) s = Some k →
     let w0 := advance rest (screen w loc its exs ++ rejections (len actions) bad) w in
     ∃ a, actions !! Z.to_nat (k - 1) = Some a ∧
       match a with
       | Quit =>
           Player.turn extern self w = Raise SystemExit (says [Line "Goodbye!"] w0)
       | Inventory =>
           Player.turn extern self w = Player.enter_inventory extern self w0
       | Take item =>
           ∃ I lp w',
             items w !! item = Some I ∧ holds w self lp ∧
             Player.turn extern self w = Ok tt w' ∧
             stdout w' = stdout w0 ++ [Line ("You take the " +:+ i_name I +:+ ".")] ∧
             stdin w' = rest ∧
             owner_in w' (i_use I) = Some (Some self) ∧
             (item_list_of w self ≠ item_list_of w loc →
              holds w' loc (without_first item its) ∧ holds w' self (lp ++ [item])) ∧
             (item_list_of w self = item_list_of w loc →
              holds w' self (without_first item its ++ [item])) ∧
             containers w' = containers w ∧ exits w' = exits w ∧
             exit_lists w' = exit_lists w ∧ items w' = items w
       | Go ex =>
           ∃ E C w',
             exits w !! ex = Some E ∧ containers w !! e_to E = Some C ∧
             Player.turn extern self w = Ok tt w' ∧
             stdout w' = stdout w0 ++ [Line ("You go to the " +:+ c_name C +:+ ".")] ∧
             stdin w' = rest ∧
             Player.get_location self w' = Ok (Some (e_to E)) w' ∧
             item_lists w' = item_lists w ∧ exit_lists w' = exit_lists w ∧
             exits w' = exits w ∧ uses w' = uses w ∧ items w' = items w
       end) ∧
  (len actions = 5%Z →
     choice_of (len actions) "0" = None ∧ choice_of (len actions) "6" = None ∧
     choice_of (len actions) "abc" = None ∧ choice_of (len actions) "3" = Some 3%Z).
Proof.
  split_and!.
  - intros s k. apply choice_of_range.
  - intros s rest Hin. rewrite (select_step actions w s rest Hin).
    destruct (choice_of (len actions) s) as [k|] eqn:Hk; [|done].
    split; [done|]. apply choice_in_list. by apply choice_of_range in Hk as [_ ?].
  - apply select_total.
  - intros self loc its exs bad s rest k -> Hcl Hst Hin Hbad Hk w0.
    destruct (choice_in_list (canonical its exs) k) as [a Ha].
    { by apply choice_of_range in Hk as [_ ?]. }
    exists a. split; [done|].
    pose proof (turn_exact extern w self loc its exs bad s rest k a Hcl Hst Hin Hbad Hk Ha)
      as Hturn.
    fold w0 in Hturn.
    destruct Hst as (P & L & room & er & HP & HPx & HL & HLx & Hits & Hexs).
    destruct a as [| |item|ex].
    + by rewrite Hturn.
    + exact Hturn.
    + pose proof (canonical_take _ _ _ _ Ha) as Hitem.
      destruct (closed_item w _ its item Hcl Hits Hitem) as (I & U & HI & HU).
      destruct (closed_container w self P Hcl HP) as [Hlt _].
      destruct (lookup_lt_is_Some_2 (item_lists w) (c_items P) Hlt) as [lp Hlp].
      assert (c_items L < length (item_lists w)) as HLlt by by eapply lookup_lt_Some.
      destruct (take_any extern w0 self loc P L I U its item)
        as (lp' & Hlp' & Hrun); [done..|].
      cbn [item_lists w0 advance set_stdin says set_stdout] in Hlp'.
      eexists I, lp, _. split; [done|]. split; [by exists P|].
      split; [rewrite Hturn; exact Hrun|].
      split; [done|]. split; [done|].
      split.
      { unfold owner_in. cbn.
        rewrite list_lookup_insert_eq by by eapply lookup_lt_Some. done. }
      split.
      { intros Hdiff.
        assert (c_items P ≠ c_items L) as Hne.
        { intros Heq. apply Hdiff. unfold item_list_of. rewrite HP, HL. simpl.
          by rewrite Heq. }
        rewrite list_lookup_insert_ne in Hlp' by done.
        assert (lp' = lp) as -> by congruence.
        split.
        - exists L. split; [done|]. cbn.
          rewrite list_lookup_insert_ne by done. by apply list_lookup_insert_eq.
        - exists P. split; [done|]. cbn.
          apply list_lookup_insert_eq. by rewrite length_insert. }
      split.
      { intros Heq.
        assert (c_items P = c_items L) as HeqPL.
        { unfold item_list_of in Heq. rewrite HP, HL in Heq. simpl in Heq. congruence. }
        rewrite HeqPL in Hlp'. rewrite list_lookup_insert_eq in Hlp' by done.
        assert (lp' = without_first item its) as -> by congruence.
        exists P. split; [done|]. cbn.
        apply list_lookup_insert_eq. by rewrite length_insert. }
      done.
    + pose proof (canonical_go _ _ _ _ Ha) as Hex.
      destruct (closed_exit w er exs ex Hcl Hexs Hex) as (E & C & HE & HC).
      assert (self < length (containers w)) as Hself by by eapply lookup_lt_Some.
      eexists E, C, _. split; [done|]. split; [done|].
      split.
      { rewrite Hturn. by apply (go_run extern w0 self P (Some loc) ex E C). }
      split; [done|]. split; [done|].
      split.
      { eapply get_location_run; [cbn; by apply list_lookup_insert_eq|done]. }
      done.
  - intros ->. by vm_compute.
Qed.

Lemma main_menu_validates_witness :
  ∃ w', Player.turn quiet 4 (start ["0"; "6"; "abc"; "3"]) = Ok tt w' ∧
        last (stdout w') = Some (Line "You take the Crown.") ∧
        stdin w' = [] ∧ holds w' 4 [0] ∧ holds w' 0 [].
Proof.
  destruct (main_menu_validates quiet (canonical [0] [0; 2])
              (start ["0"; "6"; "abc"; "3"])) as (_ & _ & _ & Hturn & _).
  destruct (Hturn 4 0 [0] [0; 2] ["0"; "6"; "abc"] "3" [] 3%Z eq_refl)
    as (a & Ha & Hrun).
  - vm_compute. repeat constructor.
  - exists (mkContainer "Ann" "You are you." 5 (IsPlayer (Some 0))),
      (mkContainer "Lounge" "lounge" 1 (IsLocation true 0)), true, 0.
    vm_compute. repeat split.
  - reflexivity.
  - repeat constructor.
  - reflexivity.
  - injection Ha as <-.
    destruct Hrun as (I & lp & w' & HI & Hlp & Hrun & Hout & Hin & _ & Hdiff & _).
    vm_compute in HI. injection HI as <-.
    destruct Hlp as (P & HP & Hlp). vm_compute in HP. injection HP as <-.
    vm_compute in Hlp. injection Hlp as <-.
    destruct Hdiff as [Hloc Hself]; [vm_compute; discriminate|].
    exists w'. split_and!; [done| |done|done|done].
    rewrite Hout. apply last_snoc.
Defined.
